(** * snake-ai: the UCT move search of [main.py], embedded and verified

    The development follows [src/main.py]:
    - Python values and exceptions (list indexing, [str.isnumeric], [int]);
    - [GameState]: [__init__], [clone], [do_move], [get_moves], [get_result];
    - the same class once more over a store of objects, where [clone] and
      [do_move] allocate and mutate, to reason about sharing;
    - [MyRobotSnake._find_snake_heads] and [_find_snake_rest];
    - [Node] and [UCT] over an arena of nodes;
    - [MyRobotSnake._update_snake_part] and [OXOState], the game the search
      was written for.

    Definitions come first, theorems follow. *)

From Stdlib Require Import Ascii String.
From Stdlib Require QArith SpecFloat.
From stdpp Require Import gmap strings list sorting.

Open Scope Z_scope.

(** ** Python outcomes *)

(** The exceptions the modelled code can raise.  [ValueError] carries the
    place it comes from: [int(char)], the [math] functions, [list.remove]. *)
Inductive value_error := InvalidLiteral | MathDomain | NotInList.

Inductive exn :=
| IndexError
| AttributeError
| ZeroDivisionError
| ValueError (why : value_error).

(** The outcome of a call: a value, a raised exception, or [Stuck].  [Stuck]
    is not a Python outcome: it stands for a loop that used up the fuel of its
    model or an arena index that names no node.  The theorems on [UCT] show
    that it never occurs there; in [_find_snake_rest], whose [while True]
    need not end, it is what every number of rounds gives on a coiled
    snake. *)
Inductive res (A : Type) :=
| Ok (a : A)
| Raise (e : exn)
| Stuck.
Arguments Ok {A} a.
Arguments Raise {A} e.
Arguments Stuck {A}.

Global Instance res_ret : MRet res := λ A a, Ok a.
Global Instance res_bind : MBind res := λ A B f m,
  match m with
  | Ok a => f a
  | Raise e => Raise e
  | Stuck => Stuck
  end.

(** [o] or, when [o] is [None], the exception [e]. *)
Definition or_raise {A} (e : exn) (o : option A) : res A :=
  match o with
  | Some a => Ok a
  | None => Raise e
  end.

(** Code that reads and mutates an object of type [S] and may raise: the
    object as it is when the call ends is part of the outcome, also when the
    call raises (Python keeps the mutations made before the exception). *)
Definition St (S A : Type) : Type := S → res A * S.

Global Instance St_ret {S} : MRet (St S) := λ A a s, (Ok a, s).
Global Instance St_bind {S} : MBind (St S) := λ A B f m s,
  match m s with
  | (Ok a, s') => f a s'
  | (Raise e, s') => (Raise e, s')
  | (Stuck, s') => (Stuck, s')
  end.

Definition get_st {S} : St S S := λ s, (Ok s, s).
Definition modify_st {S} (f : S → S) : St S unit := λ s, (Ok tt, f s).
Definition lift_res {S A} (r : res A) : St S A := λ s, (r, s).

(** ** Python sequences *)

(** [l[i]] for a list or deque of length [n]: indices [0 .. n-1] and
    [-n .. -1] are valid, all others raise [IndexError]. *)
Definition py_index (n : nat) (i : Z) : option nat :=
  if bool_decide (0 ≤ i < Z.of_nat n) then Some (Z.to_nat i)
  else if bool_decide (- Z.of_nat n ≤ i < 0) then Some (Z.to_nat (Z.of_nat n + i))
  else None.

Definition getitem {A} (l : list A) (i : Z) : res A :=
  or_raise IndexError (k ← py_index (length l) i; l !! k).

Definition setitem {A} (l : list A) (i : Z) (v : A) : res (list A) :=
  or_raise IndexError ((λ k, <[k:=v]> l) <$> py_index (length l) i).

(** [grid[i][j]] *)
Definition getitem2 {A} (grid : list (list A)) (i j : Z) : res A :=
  row ← getitem grid i;
  getitem row j.

(** ** Python strings

    A [str] is modelled as a [string] whose characters are the code points
    below 256. *)

(** The code points below 256 for which [str.isnumeric] holds: the digits
    [0-9], the superscripts [U+00B2], [U+00B3], [U+00B9] and the fractions
    [U+00BC], [U+00BD], [U+00BE]. *)
Definition is_decimal_char (c : ascii) : bool :=
  let n := nat_of_ascii c in bool_decide (48 ≤ n ≤ 57)%nat.

Definition is_numeric_char (c : ascii) : bool :=
  let n := nat_of_ascii c in
  is_decimal_char c ||
  bool_decide (n = 178 ∨ n = 179 ∨ n = 185 ∨ n = 188 ∨ n = 189 ∨ n = 190)%nat.

Fixpoint forallb_string (p : ascii → bool) (s : string) : bool :=
  match s with
  | EmptyString => true
  | String c s' => p c && forallb_string p s'
  end.

(** [s.isnumeric()]: at least one character, and all of them numeric. *)
Definition isnumeric (s : string) : bool :=
  match s with
  | EmptyString => false
  | _ => forallb_string is_numeric_char s
  end.

Fixpoint decimal_value (acc : Z) (s : string) : Z :=
  match s with
  | EmptyString => acc
  | String c s' => decimal_value (10 * acc + (Z.of_nat (nat_of_ascii c) - 48)) s'
  end.

(** [int(s)] for a string [s] that passed [isnumeric]: the decimal value
    when every character is a decimal digit, [ValueError] otherwise. *)
Definition int (s : string) : res Z :=
  match s with
  | EmptyString => Raise (ValueError InvalidLiteral)
  | _ => if forallb_string is_decimal_char s then Ok (decimal_value 0 s)
         else Raise (ValueError InvalidLiteral)
  end.

(** ** snakepit datatypes *)

(** [Position] and [Vector] of [snakepit.datatypes]: named pairs of integers
    compared by value. *)
Record Position := Pos { x : Z; y : Z }.
Record Vector := Vec { xdir : Z; ydir : Z }.

Global Instance Position_eq_dec : EqDecision Position.
Proof. solve_decision. Defined.
Global Instance Vector_eq_dec : EqDecision Vector.
Proof. solve_decision. Defined.
Global Instance Vector_countable : Countable Vector.
Proof.
  apply (inj_countable' (λ v, (xdir v, ydir v)) (λ p, Vec p.1 p.2)).
  by intros [].
Defined.

(** A cell of the world: [(char, color)]. *)
Abbreviation Cell := (string * Z)%type.

(** [Map = List[List[Tuple[str, str]]]], indexed [terrain[x][y]]. *)
Abbreviation Map := (list (list Cell)).

(** [Player = Deque[Position]], head first. *)
Abbreviation Player := (list Position).

(** The constants the code takes from [RobotSnake], a class of the snakepit
    package: they are parameters of the development. *)
Class RobotSnake := {
  UP : Vector;
  DOWN : Vector;
  LEFT : Vector;
  RIGHT : Vector;
  CH_STONE : string;
  CH_HEAD : string;
  CH_BODY : string;
  CH_TAIL : string;
  DEAD_BODY_CHARS : gset string
}.

(** What the code expects of the four directions: they differ from one
    another and the opposite of a direction is a direction. *)
Definition directions `{RobotSnake} : list Vector := [UP; DOWN; LEFT; RIGHT].

Definition opposite (action : Vector) : Vector :=
  Vec (- xdir action) (- ydir action).

Definition directions_wf `{RobotSnake} : Prop :=
  NoDup directions ∧ ∀ d, d ∈ directions → opposite d ∈ directions.

(** The values these constants have in the snakepit package; the examples
    are computed with them. *)
Definition snakepit : RobotSnake := {|
  UP := Vec 0 (-1);
  DOWN := Vec 0 1;
  LEFT := Vec (-1) 0;
  RIGHT := Vec 1 0;
  CH_STONE := "#";
  CH_HEAD := "@";
  CH_BODY := "*";
  CH_TAIL := "$";
  DEAD_BODY_CHARS := {[ "x"; "%"; "+" ]}
|}.

(** ** GameState *)

Section game.
Context `{RobotSnake}.

(** [Actions = {RobotSnake.UP, RobotSnake.DOWN, RobotSnake.LEFT, RobotSnake.RIGHT}] *)
Definition Actions : gset Vector := {[ UP; DOWN; LEFT; RIGHT ]}.

Record GameState := mkGameState {
  playerJustMoved : Z;
  terrain : Map;
  players : list Player;
  last_action : list (option Vector);
  scores : list Z
}.

Definition set_playerJustMoved (v : Z) (s : GameState) : GameState :=
  mkGameState v (terrain s) (players s) (last_action s) (scores s).
Definition set_players (v : list Player) (s : GameState) : GameState :=
  mkGameState (playerJustMoved s) (terrain s) v (last_action s) (scores s).
Definition set_last_action (v : list (option Vector)) (s : GameState) : GameState :=
  mkGameState (playerJustMoved s) (terrain s) (players s) v (scores s).
Definition set_scores (v : list Z) (s : GameState) : GameState :=
  mkGameState (playerJustMoved s) (terrain s) (players s) (last_action s) v.

(** [GameState.__init__] *)
Definition GameState_init (terrain : Map) (players : list Player) : GameState :=
  mkGameState 1 terrain players [None; None] [0; 0].

(** [GameState.clone]: a new object from [__init__]; the deep copy of the
    chains and the slices of [last_action] and [scores] are equal lists.
    [playerJustMoved] is what [__init__] sets. *)
Definition clone (self : GameState) : GameState :=
  let st := GameState_init (terrain self) (players self) in
  let st := set_last_action (last_action self) st in
  let st := set_scores (scores self) st in
  st.

(** [GameState._collides_with_player] *)
Definition _collides_with_player (self : GameState) (position : Position) : bool :=
  existsb (λ player : Player, bool_decide (position ∈ player)) (players self).

(** [GameState._opposite_action] *)
Definition _opposite_action (action : Vector) : Vector := opposite action.

(** The set [{RobotSnake.CH_STONE, '-', '|', '+'}.union(RobotSnake.DEAD_BODY_CHARS)] *)
Definition obstacle_chars : gset string :=
  ({[ CH_STONE; "-"; "|"; "+" ]} : gset string) ∪ DEAD_BODY_CHARS.

(** The agent that moves next: [1 - playerJustMoved] with two chains or
    more, agent [0] otherwise. *)
Definition player_to_move (self : GameState) : Z :=
  if bool_decide (1 < length (players self))%nat then 1 - playerJustMoved self else 0.

(** [self.scores[player_moving] = v] *)
Definition assign_score (player_moving v : Z) : St GameState unit :=
  self ← get_st;
  sc ← lift_res (setitem (scores self) player_moving v);
  modify_st (set_scores sc).

(** [GameState.do_move] *)
Definition do_move (move : Vector) : St GameState unit :=
  self ← get_st;
  let player_moving := player_to_move self in
  modify_st (set_playerJustMoved player_moving);;
  la ← lift_res (setitem (last_action self) player_moving (Some move));
  modify_st (set_last_action la);;
  player ← lift_res (getitem (players self) player_moving);
  head ← lift_res (getitem player 0);
  let new_head := Pos (x head + xdir move) (y head + ydir move) in
  cell ← lift_res (getitem2 (terrain self) (x new_head) (y new_head));
  let char := cell.1 in
  (if _collides_with_player self new_head then
     assign_score player_moving (-1000)
   else if isnumeric char then
     old ← lift_res (getitem (scores self) player_moving);
     v ← lift_res (int char);
     assign_score player_moving (old + v)
   else if bool_decide (char ∈ obstacle_chars) then
     assign_score player_moving (-1000)
   else mret tt);;
  (* player.appendleft(new_head); player.pop() *)
  ps ← lift_res (setitem (players self) player_moving (removelast (new_head :: player)));
  modify_st (set_players ps).

(** [GameState.get_moves]; the order of [list(a_set)] is the order of
    [elements]. *)
Definition get_moves (self : GameState) : res (list Vector) :=
  let player_moving := player_to_move self in
  la ← getitem (last_action self) player_moving;
  match la with
  | Some a => Ok (elements (Actions ∖ {[ _opposite_action a ]}))
  | None => Ok (elements Actions)
  end.

(** [GameState.get_result] *)
Definition get_result (self : GameState) (playerjm : Z) : res Z :=
  getitem (scores self) playerjm.

(** [do_move] in steps, for the proofs: what it looks up before it touches
    the scores (the moving chain, the new head, the cell under it), and the
    [scores] list its [if] chain leaves. *)
Definition move_lookups (move : Vector) (self : GameState)
  : res (Player * Position * Cell) :=
  player ← getitem (players self) (player_to_move self);
  head ← getitem player 0;
  let new_head := Pos (x head + xdir move) (y head + ydir move) in
  cell ← getitem2 (terrain self) (x new_head) (y new_head);
  Ok (player, new_head, cell).

Definition move_scores (self : GameState) (new_head : Position) (char : string)
  : res (list Z) :=
  let player_moving := player_to_move self in
  if _collides_with_player self new_head then
    setitem (scores self) player_moving (-1000)
  else if isnumeric char then
    old ← getitem (scores self) player_moving;
    v ← int char;
    setitem (scores self) player_moving (old + v)
  else if bool_decide (char ∈ obstacle_chars) then
    setitem (scores self) player_moving (-1000)
  else Ok (scores self).

(** What [__init__] sets up and [do_move] keeps: two entries in
    [last_action] and in [scores], a [playerJustMoved] of 0 or 1, and only
    directions among the recorded actions. *)
Definition state_ok (s : GameState) : Prop :=
  length (last_action s) = 2%nat ∧ length (scores s) = 2%nat ∧
  (playerJustMoved s = 0 ∨ playerJustMoved s = 1) ∧
  ∀ a, Some a ∈ last_action s → a ∈ directions.

(** The game states the program can build: [__init__] on any terrain and
    chains, [clone], and [do_move] with one of the four directions, whether
    the call returns or raises (the mutations made before an exception
    stay). *)
Inductive reachable : GameState → Prop :=
| reachable_init terrain players :
    reachable (GameState_init terrain players)
| reachable_clone s :
    reachable s → reachable (clone s)
| reachable_do_move s move :
    reachable s → move ∈ directions → reachable (do_move move s).2.

End game.

(** ** GameState over a store of objects

    [clone] and [do_move] once more, with the objects the code allocates and
    mutates: the chains are deques held by reference in the list [players],
    [last_action] and [scores] are list objects, the terrain is held by
    reference and never copied.  The store keeps the objects of each class
    in creation order; a reference is an index among the objects of its
    class and allocation appends.  A reference that names no object makes
    the model [Stuck]. *)
Module Heap.

(** The attributes of a [GameState] object. *)
Record attrs := mkAttrs {
  a_playerJustMoved : Z;
  a_terrain : nat;
  a_players : nat;
  a_last_action : nat;
  a_scores : nat
}.

Record heap := mkHeap {
  deques : list (list Position);
  player_lists : list (list nat);
  action_lists : list (list (option Vector));
  score_lists : list (list Z);
  terrains : list Map;
  states : list attrs
}.

Definition set_deques (v : list (list Position)) (h : heap) : heap :=
  mkHeap v (player_lists h) (action_lists h) (score_lists h) (terrains h) (states h).
Definition set_player_lists (v : list (list nat)) (h : heap) : heap :=
  mkHeap (deques h) v (action_lists h) (score_lists h) (terrains h) (states h).
Definition set_action_lists (v : list (list (option Vector))) (h : heap) : heap :=
  mkHeap (deques h) (player_lists h) v (score_lists h) (terrains h) (states h).
Definition set_score_lists (v : list (list Z)) (h : heap) : heap :=
  mkHeap (deques h) (player_lists h) (action_lists h) v (terrains h) (states h).
Definition set_states (v : list attrs) (h : heap) : heap :=
  mkHeap (deques h) (player_lists h) (action_lists h) (score_lists h) (terrains h) v.

(** Reading, allocating and overwriting an object of the class kept in the
    field [get]. *)
Definition load {A} (get : heap → list A) (r : nat) : St heap A := λ h,
  (match get h !! r with Some o => Ok o | None => Stuck end, h).

Definition alloc {A} (get : heap → list A) (set : list A → heap → heap) (o : A)
  : St heap nat := λ h,
  (Ok (length (get h)), set (get h ++ [o]) h).

Definition store {A} (get : heap → list A) (set : list A → heap → heap)
  (r : nat) (o : A) : St heap unit := λ h,
  (Ok tt, set (<[r:=o]> (get h)) h).

(** [GameState.__init__]: the new object keeps the references it is given
    and gets a fresh [last_action] and a fresh [scores]. *)
Definition init (terrain players : nat) : St heap nat :=
  la ← alloc action_lists set_action_lists [None; None];
  sc ← alloc score_lists set_score_lists [0; 0];
  alloc states set_states (mkAttrs 1 terrain players la sc).

(** [copy.deepcopy] of the elements of [players]: every deque is copied once,
    a deque met again is replaced by the copy made before (the memo). *)
Fixpoint deepcopy_items (memo : list (nat * nat)) (items : list nat) : St heap (list nat) :=
  match items with
  | [] => mret []
  | r :: items' =>
      match list_find (λ p : nat * nat, p.1 = r) memo with
      | Some (_, (_, r')) =>
          rest ← deepcopy_items memo items';
          mret (r' :: rest)
      | None =>
          l ← load deques r;
          r' ← alloc deques set_deques l;
          rest ← deepcopy_items ((r, r') :: memo) items';
          mret (r' :: rest)
      end
  end.

(** [copy.deepcopy(self.players)] *)
Definition deepcopy_players (players : nat) : St heap nat :=
  items ← load player_lists players;
  items' ← deepcopy_items [] items;
  alloc player_lists set_player_lists items'.

(** [GameState.clone] *)
Definition clone (self : nat) : St heap nat :=
  a ← load states self;
  ps ← deepcopy_players (a_players a);
  st ← init (a_terrain a) ps;
  (* st.last_action = self.last_action[:] *)
  la ← load action_lists (a_last_action a);
  la' ← alloc action_lists set_action_lists la;
  b ← load states st;
  store states set_states st
    (mkAttrs (a_playerJustMoved b) (a_terrain b) (a_players b) la' (a_scores b));;
  (* st.scores = self.scores[:] *)
  sc ← load score_lists (a_scores a);
  sc' ← alloc score_lists set_score_lists sc;
  b ← load states st;
  store states set_states st
    (mkAttrs (a_playerJustMoved b) (a_terrain b) (a_players b) (a_last_action b) sc');;
  mret st.

Section heap_game.
Context `{RobotSnake}.

(** [GameState._collides_with_player] *)
Fixpoint _collides_with_player (items : list nat) (position : Position) : St heap bool :=
  match items with
  | [] => mret false
  | r :: items' =>
      player ← load deques r;
      if bool_decide (position ∈ player) then mret true
      else _collides_with_player items' position
  end.

(** [self.scores[player_moving] = v] *)
Definition assign_score (self : nat) (player_moving v : Z) : St heap unit :=
  a ← load states self;
  sc ← load score_lists (a_scores a);
  sc' ← lift_res (setitem sc player_moving v);
  store score_lists set_score_lists (a_scores a) sc'.

(** [GameState.do_move] *)
Definition do_move (self : nat) (move : Vector) : St heap unit :=
  a ← load states self;
  items ← load player_lists (a_players a);
  let player_moving :=
    if bool_decide (1 < length items)%nat then 1 - a_playerJustMoved a else 0 in
  store states set_states self
    (mkAttrs player_moving (a_terrain a) (a_players a) (a_last_action a) (a_scores a));;
  la ← load action_lists (a_last_action a);
  la' ← lift_res (setitem la player_moving (Some move));
  store action_lists set_action_lists (a_last_action a) la';;
  r ← lift_res (getitem items player_moving);
  player ← load deques r;
  head ← lift_res (getitem player 0);
  let new_head := Pos (x head + xdir move) (y head + ydir move) in
  t ← load terrains (a_terrain a);
  cell ← lift_res (getitem2 t (x new_head) (y new_head));
  let char := cell.1 in
  hit ← _collides_with_player items new_head;
  (if hit : bool then
     assign_score self player_moving (-1000)
   else if isnumeric char then
     sc ← load score_lists (a_scores a);
     old ← lift_res (getitem sc player_moving);
     v ← lift_res (int char);
     assign_score self player_moving (old + v)
   else if bool_decide (char ∈ obstacle_chars) then
     assign_score self player_moving (-1000)
   else mret tt);;
  (* player.appendleft(new_head); player.pop() *)
  player ← load deques r;
  store deques set_deques r (removelast (new_head :: player)).

(** A sequence of calls of [do_move] on one object, each on the store the
    call before has left, whether that call returned or raised. *)
Fixpoint do_moves (self : nat) (moves : list Vector) (h : heap) : heap :=
  match moves with
  | [] => h
  | move :: moves' => do_moves self moves' (do_move self move h).2
  end.

End heap_game.

(** The game state an object stands for: its attributes with every
    reference followed. *)
Fixpoint load_chains (items : list nat) : St heap (list Player) :=
  match items with
  | [] => mret []
  | r :: items' => p ← load deques r; ps ← load_chains items'; mret (p :: ps)
  end.

Definition snapshot (self : nat) : St heap GameState :=
  a ← load states self;
  t ← load terrains (a_terrain a);
  items ← load player_lists (a_players a);
  ps ← load_chains items;
  la ← load action_lists (a_last_action a);
  sc ← load score_lists (a_scores a);
  mret (mkGameState (a_playerJustMoved a) t ps la sc).

(** Every object of [h] is an object of [h'], under the same reference and
    with the same content. *)
Definition extends (h h' : heap) : Prop :=
  deques h `prefix_of` deques h' ∧
  player_lists h `prefix_of` player_lists h' ∧
  action_lists h `prefix_of` action_lists h' ∧
  score_lists h `prefix_of` score_lists h' ∧
  terrains h `prefix_of` terrains h' ∧
  states h `prefix_of` states h'.

(** The [GameState] object [c] of [h] has the references of [a], its list
    of chains holds [items], and what a call of [do_move] on it can write
    to was allocated after [h0]: [c] itself, its [last_action], its
    [scores] and the deques of its [players] are not objects of [h0], all
    of which are still in [h]. *)
Definition owns (h0 h : heap) (c : nat) (a : attrs) (items : list nat) : Prop :=
  extends h0 h ∧
  (∃ j, states h !! c = Some (mkAttrs j (a_terrain a) (a_players a)
                                (a_last_action a) (a_scores a))) ∧
  player_lists h !! a_players a = Some items ∧
  (length (states h0) ≤ c)%nat ∧
  (length (action_lists h0) ≤ a_last_action a)%nat ∧
  (length (score_lists h0) ≤ a_scores a)%nat ∧
  Forall (λ r, length (deques h0) ≤ r)%nat items.

End Heap.

(** ** MyRobotSnake: finding the snakes in the world *)

(** [self.world]: its two sizes and its cells, read as [world[x][y]]. *)
Record World := mkWorld {
  SIZE_X : Z;
  SIZE_Y : Z;
  cells : Map
}.

Definition world_at (w : World) (px py : Z) : res Cell :=
  getitem2 (cells w) px py.

Section scanner.
Context `{RobotSnake}.
(** [self.world] and [self.color] *)
Variable world : World.
Variable color : Z.

(** The body of the two loops of [_find_snake_heads] at one cell;
    [heads] is [(player_head, opponent_head)]. *)
Definition scan_cell (heads : option Position * option Position) (px py : Z)
  : res (option Position * option Position) :=
  cell ← world_at world px py;
  let '(char, c) := cell in
  if bool_decide (char = CH_HEAD) then
    if bool_decide (c = color) then Ok (Some (Pos px py), heads.2)
    else Ok (heads.1, Some (Pos px py))
  else Ok heads.

Fixpoint scan_column (heads : option Position * option Position) (px : Z) (ys : list Z)
  : res (option Position * option Position) :=
  match ys with
  | [] => Ok heads
  | py :: ys' => heads' ← scan_cell heads px py; scan_column heads' px ys'
  end.

Fixpoint scan_world (heads : option Position * option Position) (xs : list Z)
  : res (option Position * option Position) :=
  match xs with
  | [] => Ok heads
  | px :: xs' =>
      heads' ← scan_column heads px (seqZ 0 (SIZE_Y world));
      scan_world heads' xs'
  end.

(** [MyRobotSnake._find_snake_heads]: the chains hold what the two
    variables hold, a position or [None]. *)
Definition _find_snake_heads : res (list (list (option Position))) :=
  heads ← scan_world (None, None) (seqZ 0 (SIZE_X world));
  let '(player_head, opponent_head) := heads in
  match opponent_head with
  | Some _ => Ok [[player_head]; [opponent_head]]
  | None => Ok [[player_head]]
  end.

(** The cells the two loops visit, and what they can find there: the head
    symbol in the color of the controlled agent, or in another color. *)
Definition scanned (px py : Z) : Prop :=
  0 ≤ px < SIZE_X world ∧ 0 ≤ py < SIZE_Y world.

Definition own_head (p : Position) : Prop :=
  scanned (x p) (y p) ∧ world_at world (x p) (y p) = Ok (CH_HEAD, color).

Definition other_head (p : Position) : Prop :=
  scanned (x p) (y p) ∧
  ∃ c, c ≠ color ∧ world_at world (x p) (y p) = Ok (CH_HEAD, c).

(** The world has a cell at every coordinate the loops visit. *)
Definition covered : Prop :=
  ∀ px py, scanned px py → ∃ cell, world_at world px py = Ok cell.

(** What the two variables of [_find_snake_heads] hold once the cells in
    [seen] have been visited. *)
Definition heads_ok (seen : Z → Z → Prop) (heads : option Position * option Position)
  : Prop :=
  match heads.1 with
  | Some p => own_head p
  | None => ∀ p, seen (x p) (y p) → ¬ own_head p
  end ∧
  match heads.2 with
  | Some p => other_head p
  | None => ∀ p, seen (x p) (y p) → ¬ other_head p
  end.

(** [MyRobotSnake._neighbours]; [position.x] of [None] raises. *)
Definition _neighbours (position : option Position) : res (list (Z * Z)) :=
  match position with
  | None => Raise AttributeError
  | Some p => Ok [(x p + 1, y p); (x p - 1, y p); (x p, y p + 1); (x p, y p - 1)]
  end.

(** The local function [next] of [_find_snake_rest]: the first neighbour
    other than [previous] that holds a body or tail of the wanted color, or
    [None] when the loop ends without a [return]. *)
Fixpoint next_loop (is_player : bool) (previous : option Position) (ns : list (Z * Z))
  : res (option Position) :=
  match ns with
  | [] => Ok None
  | (px, py) :: ns' =>
      prev ← or_raise AttributeError previous;
      if bool_decide (px ≠ x prev ∨ py ≠ y prev) then
        cell ← world_at world px py;
        let '(char, c) := cell in
        if (bool_decide (char = CH_BODY) || bool_decide (char = CH_TAIL))
           && bool_decide (bool_decide (c = color) = is_player)
        then Ok (Some (Pos px py))
        else next_loop is_player previous ns'
      else next_loop is_player previous ns'
  end.

Definition next (is_player : bool) (position previous : option Position)
  : res (option Position) :=
  ns ← _neighbours position;
  next_loop is_player previous ns.

(** The [while True] loop of [_find_snake_rest], at most [fuel] rounds. *)
Fixpoint _find_snake_rest_loop (fuel : nat) (is_player : bool)
  (snake : list (option Position)) (position previous : option Position)
  : res (list (option Position)) :=
  match fuel with
  | O => Stuck
  | S fuel' =>
      (* position, previous = next(position, previous), position *)
      position' ← next is_player position previous;
      match position' with
      | None => Ok snake
      | Some _ =>
          _find_snake_rest_loop fuel' is_player (snake ++ [position']) position' position
      end
  end.

(** [MyRobotSnake._find_snake_rest] *)
Definition _find_snake_rest (fuel : nat) (head : option Position) (is_player : bool)
  : res (list (option Position)) :=
  _find_snake_rest_loop fuel is_player [head] head head.

End scanner.

(** ** Node and UCT *)

(** A [Node] object.  The nodes of one search live in an arena, a list in
    creation order whose first entry is the root; [parentNode] and
    [childNodes] hold indices into it. *)
Module Node.
Record t := mk {
  move : option Vector;
  parentNode : option nat;
  childNodes : list nat;
  wins : Z;
  visits : Z;
  untriedMoves : list Vector;
  playerJustMoved : Z
}.
End Node.
Abbreviation Node := Node.t.

(** [Node.update] *)
Definition update (self : Node) (result : Z) : Node :=
  Node.mk (Node.move self) (Node.parentNode self) (Node.childNodes self)
    (Node.wins self + result) (Node.visits self + 1)
    (Node.untriedMoves self) (Node.playerJustMoved self).

(** [l.remove(m)]: the first entry equal to [m] goes, [ValueError] when
    there is none. *)
Fixpoint list_remove (m : Vector) (l : list Vector) : res (list Vector) :=
  match l with
  | [] => Raise (ValueError NotInList)
  | a :: l' => if decide (a = m) then Ok l' else l'' ← list_remove m l'; Ok (a :: l'')
  end.

(** [sorted(l, key = ...)]: Python's sort is stable, and so is this
    insertion sort: an entry goes before the entries of the sorted rest
    whose key is not smaller. *)
Fixpoint insert_sorted {A} (key : A → Z) (a : A) (l : list A) : list A :=
  match l with
  | [] => [a]
  | b :: l' => if bool_decide (key a ≤ key b) then a :: b :: l'
               else b :: insert_sorted key a l'
  end.

Fixpoint sorted {A} (key : A → Z) (l : list A) : list A :=
  match l with
  | [] => []
  | a :: l' => insert_sorted key a (sorted key l')
  end.

(** What one search works on: the arena of nodes, the local variable
    [state], and the number of calls of [random.choice] made so far. *)
Record Search := mkSearch {
  tree : list Node;
  state : GameState;
  draws : nat
}.

Definition set_tree (t : list Node) (s : Search) : Search :=
  mkSearch t (state s) (draws s).
Definition set_state (g : GameState) (s : Search) : Search :=
  mkSearch (tree s) g (draws s).

Section uct.
Context `{RobotSnake}.
(** The value [wins/visits + sqrt(2*log(parent_visits)/visits)] where no
    exception is raised, and Python's [>] on two such values.  The search is
    written over any such pair; [ucb1_float] and [float_gt] below are the
    floating-point computation and comparison of [uct_select_child], and
    every statement on which child is selected is made with them. *)
Context {V : Type} (ucb1 : Z → Z → Z → V) (gtb : V → V → bool).
(** The random source: the [k]-th call of [random.choice], on a sequence of
    length [n], returns its entry [rand k mod n]. *)
Variable rand : nat → nat.

(** [Node.__init__] *)
Definition Node_init (move : option Vector) (parent : option nat) (st : GameState)
  : res Node :=
  moves ← get_moves st;
  Ok (Node.mk move parent [] 0 0 moves (playerJustMoved st)).

(** [c.wins/c.visits + sqrt(2*log(self.visits)/c.visits)]: the division
    raises on [c.visits = 0], [log] on [self.visits ≤ 0], [sqrt] on a
    negative quotient.  An int beyond the range of a float, which would
    make a division raise [OverflowError], is outside this model: the
    statements on the value bound the counters by 53 bits. *)
Definition ucb_value (self c : Node) : res V :=
  if bool_decide (Node.visits c = 0) then Raise ZeroDivisionError
  else if bool_decide (Node.visits self ≤ 0) then Raise (ValueError MathDomain)
  else if bool_decide (Node.visits c < 0 ∧ 1 < Node.visits self)
       then Raise (ValueError MathDomain)
  else Ok (ucb1 (Node.wins c) (Node.visits c) (Node.visits self)).

(** The loop of [uct_select_child]; [max_value = None] is [float('-inf')],
    [max_node = None] is the initial [0]. *)
Fixpoint select_loop (t : list Node) (self : Node) (cs : list nat)
  (max_value : option V) (max_node : option nat) : res (option nat) :=
  match cs with
  | [] => Ok max_node
  | c :: cs' =>
      match t !! c with
      | None => Stuck
      | Some cn =>
          value ← ucb_value self cn;
          if match max_value with None => true | Some m => gtb value m end
          then select_loop t self cs' (Some value) (Some c)
          else select_loop t self cs' max_value max_node
      end
  end.

(** [Node.uct_select_child] *)
Definition uct_select_child (t : list Node) (self : Node) : res (option nat) :=
  select_loop t self (Node.childNodes self) None None.

(** The children in [cs] are nodes of the arena that have been visited. *)
Definition children_visited (t : list Node) (cs : list nat) : Prop :=
  Forall (λ c, ∃ cn, t !! c = Some cn ∧ 1 ≤ Node.visits cn) cs.

(** What the loop of [uct_select_child] has found after the children in
    [seen]: nothing before the first child, then a child of [seen] whose
    value no child of [seen] exceeds and which exceeds every child before
    it. *)
Definition best_of (t : list Node) (self : Node) (seen : list nat)
    (max_value : option V) (max_node : option nat) : Prop :=
  let value_of cn := ucb1 (Node.wins cn) (Node.visits cn) (Node.visits self) in
  match max_node with
  | None => seen = [] ∧ max_value = None
  | Some c =>
      ∃ i cn, seen !! i = Some c ∧ t !! c = Some cn ∧
        max_value = Some (value_of cn) ∧
        (∀ j c' cn', seen !! j = Some c' → t !! c' = Some cn' →
           gtb (value_of cn') (value_of cn) = false) ∧
        (∀ j c' cn', (j < i)%nat → seen !! j = Some c' → t !! c' = Some cn' →
           gtb (value_of cn) (value_of cn') = true)
  end.

Definition node_at (i : nat) : St Search Node := λ s,
  (match tree s !! i with Some n => Ok n | None => Stuck end, s).

(** A method of [state] called on the local variable. *)
Definition on_state {A} (m : St GameState A) : St Search A := λ s,
  let '(r, g) := m (state s) in (r, set_state g s).

(** [random.choice(seq)] *)
Definition choice {A} (seq : list A) : St Search A := λ s,
  match seq with
  | [] => (Raise IndexError, s)
  | a :: _ =>
      (Ok (nth (rand (draws s) mod length seq)%nat seq a),
       mkSearch (tree s) (state s) (S (draws s)))
  end.

(** [Node.add_child], called with the local variable [state] as [s]. *)
Definition add_child (self : nat) (m : Vector) : St Search nat :=
  s ← get_st;
  n ← lift_res (Node_init (Some m) (Some self) (state s));
  let id := length (tree s) in
  modify_st (set_tree (tree s ++ [n]));;
  me ← node_at self;
  um ← lift_res (list_remove m (Node.untriedMoves me));
  modify_st (λ s, set_tree
    (<[self := Node.mk (Node.move me) (Node.parentNode me) (Node.childNodes me ++ [id])
                 (Node.wins me) (Node.visits me) um (Node.playerJustMoved me)]> (tree s)) s);;
  mret id.

(** The selection loop of [UCT], at most [fuel] rounds. *)
Fixpoint select_phase (fuel : nat) (node : nat) : St Search nat :=
  n ← node_at node;
  if bool_decide (Node.untriedMoves n = []) && bool_decide (Node.childNodes n ≠ []) then
    match fuel with
    | O => lift_res Stuck
    | S fuel' =>
        s ← get_st;
        c ← lift_res (uct_select_child (tree s) n);
        (* max_node is the number 0 when no child was better *)
        c ← lift_res (or_raise AttributeError c);
        cn ← node_at c;
        m ← lift_res (or_raise AttributeError (Node.move cn));
        on_state (do_move m);;
        select_phase fuel' c
    end
  else mret node.

(** The expansion step of [UCT]. *)
Definition expand (node : nat) : St Search nat :=
  n ← node_at node;
  match Node.untriedMoves n with
  | [] => mret node
  | _ =>
      m ← choice (Node.untriedMoves n);
      on_state (do_move m);;
      add_child node m
  end.

(** The rollout loop of [UCT]: a [ValueError] of the body ends the loop,
    any other exception leaves it. *)
Fixpoint rollout (maxdepth : nat) : St Search unit :=
  match maxdepth with
  | O => mret tt
  | S j => λ s,
      match (g ← get_st;
             moves ← lift_res (get_moves (state g));
             m ← choice moves;
             on_state (do_move m)) s with
      | (Ok _, s') => rollout j s'
      | (Raise (ValueError _), s') => (Ok tt, s')
      | (r, s') => (r, s')
      end
  end.

(** The back-propagation loop of [UCT], at most [fuel] rounds. *)
Fixpoint backpropagate (fuel : nat) (node : option nat) : St Search unit :=
  match node with
  | None => mret tt
  | Some i =>
      match fuel with
      | O => lift_res Stuck
      | S fuel' =>
          n ← node_at i;
          s ← get_st;
          result ← lift_res (get_result (state s) (Node.playerJustMoved n));
          modify_st (λ s, set_tree (<[i := update n result]> (tree s)) s);;
          backpropagate fuel' (Node.parentNode n)
      end
  end.

(** One round of the [for i in range(itermax)] loop.  No path in the arena
    is longer than the arena, which is the fuel of the two inner loops. *)
Definition iteration (rootstate : GameState) (maxdepth : Z) : St Search unit :=
  modify_st (set_state (clone rootstate));;
  s ← get_st;
  node ← select_phase (length (tree s)) 0%nat;
  node ← expand node;
  rollout (Z.to_nat maxdepth);;
  s ← get_st;
  backpropagate (length (tree s)) (Some node).

Fixpoint iterations (rootstate : GameState) (maxdepth : Z) (n : nat) : St Search unit :=
  match n with
  | O => mret tt
  | S n' => iteration rootstate maxdepth;; iterations rootstate maxdepth n'
  end.

(** [UCT] up to the end of its loop: the arena it has built. *)
Definition UCT_tree (rootstate : GameState) (itermax maxdepth : Z) : res (list Node) :=
  root_node ← Node_init None None rootstate;
  match iterations rootstate maxdepth (Z.to_nat itermax)
          (mkSearch [root_node] rootstate 0) with
  | (Ok _, s) => Ok (tree s)
  | (Raise e, _) => Raise e
  | (Stuck, _) => Stuck
  end.

(** [sorted(root_node.childNodes, key = lambda c: c.visits)[-1].move] *)
Definition most_visited (t : list Node) : res (option Vector) :=
  root_node ← match t !! 0%nat with Some n => Ok n | None => Stuck end;
  children ← mapM (λ c, match t !! c with Some n => Ok n | None => Stuck end)
                  (Node.childNodes root_node);
  best ← getitem (sorted Node.visits children) (-1);
  Ok (Node.move best).

(** [UCT] *)
Definition UCT (rootstate : GameState) (itermax maxdepth : Z) : res (option Vector) :=
  t ← UCT_tree rootstate itermax maxdepth;
  most_visited t.

End uct.

(** ** The arena of a search

    What holds of the arena between two rounds of the loop of [UCT], and
    inside a round once the expansion has made the node [fresh], which no
    round has visited yet. *)

(** [j] is [i] or one of its ancestors. *)
Inductive ancestor (t : list Node) : nat → nat → Prop :=
| ancestor_self i : ancestor t i i
| ancestor_parent i n p j :
    t !! i = Some n → Node.parentNode n = Some p → ancestor t p j →
    ancestor t i j.

Definition tree_ok (fresh : option nat) (t : list Node) : Prop :=
  (∃ root, t !! 0%nat = Some root ∧ Node.parentNode root = None ∧
           0 ≤ Node.visits root) ∧
  (∀ i n, t !! i = Some n → i ≠ 0%nat →
     ∃ p pn, Node.parentNode n = Some p ∧ (p < i)%nat ∧ t !! p = Some pn ∧
             Node.visits n ≤ Node.visits pn ∧ 0 ≤ Node.visits n ∧
             (Some i ≠ fresh → 1 ≤ Node.visits n) ∧
             is_Some (Node.move n)) ∧
  (∀ i n c, t !! i = Some n → c ∈ Node.childNodes n →
     ∃ cn, t !! c = Some cn ∧ Node.parentNode cn = Some i).

(** Every parent was created before its child. *)
Definition parents_below (t : list Node) : Prop :=
  ∀ i n p, t !! i = Some n → Node.parentNode n = Some p → (p < i)%nat.

(** All of a node but its two counters. *)
Definition shape (n : Node) :=
  (Node.move n, Node.parentNode n, Node.childNodes n, Node.untriedMoves n,
   Node.playerJustMoved n).

(** The arena [t'] and the node [node'] the expansion step leaves, started
    at [node] of [t]: nothing changes when [node] has no untried move;
    otherwise a node for one of the untried moves, [m], is appended to the
    arena, with no visit yet, and [node] gets it as its last child and
    loses an untried move. *)
Definition expanded (t : list Node) (node : nat) (t' : list Node) (node' : nat)
  : Prop :=
  (t' = t ∧ node' = node ∧ ∃ n, t !! node = Some n ∧ Node.untriedMoves n = []) ∨
  (∃ n m um new,
     t !! node = Some n ∧ m ∈ Node.untriedMoves n ∧ node' = length t ∧
     t' = <[node := Node.mk (Node.move n) (Node.parentNode n)
                      (Node.childNodes n ++ [length t]) (Node.wins n)
                      (Node.visits n) um (Node.playerJustMoved n)]> (t ++ [new]) ∧
     Node.move new = Some m ∧ Node.parentNode new = Some node ∧
     Node.childNodes new = [] ∧ Node.visits new = 0).

(** The arena [t'] the back-propagation loop leaves, started at [node] of
    [t]: every node keeps its shape; [node] and its ancestors, up to the
    root, have one visit more, every other node has its counters. *)
Definition bumped (t : list Node) (node : nat) (t' : list Node) : Prop :=
  length t' = length t ∧
  ∀ i n, t !! i = Some n →
    ∃ n', t' !! i = Some n' ∧ shape n' = shape n ∧
      ((ancestor t node i ∧ Node.visits n' = Node.visits n + 1) ∨
       (¬ ancestor t node i ∧ Node.visits n' = Node.visits n ∧
        Node.wins n' = Node.wins n)).

(** The arena after [k] rounds: the root has [k] visits, and it has a
    child unless it never had an untried move or no round has run. *)
Definition search_ok (k : Z) (t : list Node) : Prop :=
  tree_ok None t ∧
  ∃ root, t !! 0%nat = Some root ∧ Node.visits root = k ∧
          (Node.childNodes root = [] → Node.untriedMoves root = [] ∨ k = 0).

(** The root has an untried move or a child. *)
Definition root_open (t : list Node) : Prop :=
  ∃ root, t !! 0%nat = Some root ∧
          (Node.untriedMoves root ≠ [] ∨ Node.childNodes root ≠ []).

(** The exceptions the methods of [GameState] raise. *)
Definition game_exn (e : exn) : Prop :=
  e = IndexError ∨ e = ValueError InvalidLiteral.

(** What a step of the search guarantees: it is never stuck, it raises only
    what the game raises, and when it returns, [Q] holds of its result and
    of the search it leaves. *)
Definition outcome {A} (r : res A * Search) (Q : A → Search → Prop) : Prop :=
  match r with
  | (Ok a, s') => Q a s'
  | (Raise e, _) => game_exn e
  | (Stuck, _) => False
  end.

(** ** Python floats

    A [float] is an IEEE 754 binary64 number; [+], [*], [/] and
    [math.sqrt] round to nearest, ties to even.  These are the operations
    of [SpecFloat] at precision 53 and maximal exponent 1024. *)
Abbreviation float := SpecFloat.spec_float.

Definition float_add : float → float → float := SpecFloat.SFadd 53 1024.
Definition float_mul : float → float → float := SpecFloat.SFmul 53 1024.
Definition float_div : float → float → float := SpecFloat.SFdiv 53 1024.
Definition float_sqrt : float → float := SpecFloat.SFsqrt 53 1024.

(** [float(z)] for an int [z]: exact when [z] has at most 53 bits. *)
Definition float_of_int (z : Z) : float :=
  SpecFloat.binary_normalize 53 1024 z 0 false.

(** [a > b]: false when one of the two is NaN. *)
Definition float_gt (a b : float) : bool := SpecFloat.SFltb b a.

(** [float('-inf')] *)
Definition neg_infinity : float := SpecFloat.S754_infinity true.

Definition is_nan (a : float) : bool :=
  match a with
  | SpecFloat.S754_nan => true
  | _ => false
  end.

(** [c.wins/c.visits + sqrt(2*log(self.visits)/c.visits)], where no
    exception is raised.  For two ints of at most 53 bits [wins/visits] is
    the quotient of their floats; the int [2] and the int [c.visits] are
    converted to multiply and to divide a float.  [math_log] is [math.log]
    on an int, whose value is the one the platform's library computes. *)
Definition ucb1_float (math_log : Z → float) (wins visits parent_visits : Z)
  : float :=
  float_add
    (float_div (float_of_int wins) (float_of_int visits))
    (float_sqrt
       (float_div (float_mul (float_of_int 2) (math_log parent_visits))
          (float_of_int visits))).

(** The place of a float other than NaN in the order of the floats: its
    class, from minus infinity to plus infinity, then its exponent and its
    mantissa, both negated for a negative number. *)
Definition float_key (a : float) : Z * Z * Z :=
  match a with
  | SpecFloat.S754_infinity true => (-2, 0, 0)
  | SpecFloat.S754_finite true m e => (-1, - e, - Z.pos m)
  | SpecFloat.S754_zero _ => (0, 0, 0)
  | SpecFloat.S754_nan => (0, 0, 0)
  | SpecFloat.S754_finite false m e => (1, e, Z.pos m)
  | SpecFloat.S754_infinity false => (2, 0, 0)
  end.

Definition key_lt (p q : Z * Z * Z) : Prop :=
  p.1.1 < q.1.1 ∨
  (p.1.1 = q.1.1 ∧ (p.1.2 < q.1.2 ∨ (p.1.2 = q.1.2 ∧ p.2 < q.2))).

(** [math.log(n)] for [n] from 1 to 8, as CPython returns it on an IEEE
    754 platform; the worked inputs need no other value. *)
Definition log_upto_8 (n : Z) : float :=
  match n with
  | 1 => SpecFloat.S754_zero false
  | 2 => SpecFloat.S754_finite false 6243314768165359 (-53)
  | 3 => SpecFloat.S754_finite false 4947709893870347 (-52)
  | 4 => SpecFloat.S754_finite false 6243314768165359 (-52)
  | 5 => SpecFloat.S754_finite false 7248263982714163 (-52)
  | 6 => SpecFloat.S754_finite false 8069367277953026 (-52)
  | 7 => SpecFloat.S754_finite false 8763600222181975 (-52)
  | 8 => SpecFloat.S754_finite false 4682486076124019 (-51)
  | _ => SpecFloat.S754_nan
  end.

(** ** Worked inputs *)

(** A 3 by 3 terrain of empty cells, and the same with the symbol 5 at
    [(2, 1)]. *)
Definition open_3x3 : Map := replicate 3 (replicate 3 (" "%string, 0)).

Definition five_3x3 : Map := <[2%nat := [(" "%string, 0); ("5"%string, 0); (" "%string, 0)]]> open_3x3.

(** One agent, a chain of length one at the centre. *)
Definition centre_state (t : Map) : GameState := GameState_init t [[Pos 1 1]].

(** One agent, a chain of length one in the last column. *)
Definition edge_state : GameState := GameState_init open_3x3 [[Pos 2 1]].

(** A store with the 3 by 3 terrain, one deque and the list that holds it;
    the same after [GameState(terrain, players)], object 0; and after
    object 0 has moved right once. *)
Definition base_heap : Heap.heap :=
  Heap.mkHeap [[Pos 1 1]] [[0%nat]] [] [] [open_3x3] [].

Definition fresh_heap : Heap.heap := (Heap.init 0 0 base_heap).2.

Definition moved_heap : Heap.heap :=
  (Heap.do_move (H:=snakepit) 0 (Vec 1 0) fresh_heap).2.

(** A 3 by 3 world without any head, and one with the head of the
    controlled agent (color 1) only. *)
Definition empty_world : World := mkWorld 3 3 open_3x3.

Definition lone_world : World :=
  mkWorld 3 3 (<[1%nat := [(" "%string, 0); ("@"%string, 1); (" "%string, 0)]]> open_3x3).

(** A root with eight visits and two children, the second of which has
    the greater value although the first has fewer visits. *)
Definition small_tree : list Node :=
  [Node.mk None None [1; 2]%nat 9 8 [] 1;
   Node.mk (Some (Vec 1 0)) (Some 0%nat) [] 0 1 [] 0;
   Node.mk (Some (Vec 0 1)) (Some 0%nat) [] 9 7 [] 0].

(** A root with four visits and two children of equal counters. *)
Definition tie_tree : list Node :=
  [Node.mk None None [1; 2]%nat 2 4 [] 1;
   Node.mk (Some (Vec 1 0)) (Some 0%nat) [] 1 2 [] 0;
   Node.mk (Some (Vec 0 1)) (Some 0%nat) [] 1 2 [] 0].

(** A root no round has visited whose child has one visit. *)
Definition unvisited_root_tree : list Node :=
  [Node.mk None None [1%nat] 0 0 [] 1;
   Node.mk (Some (Vec 1 0)) (Some 0%nat) [] 0 1 [] 0].

(** A 9 by 9 terrain of empty cells with one agent at its centre, and the
    random source that draws 0, 1, 2, ... *)
Definition open_9x9 : Map := replicate 9 (replicate 9 (" "%string, 0)).

Definition wide_state : GameState := GameState_init open_9x9 [[Pos 4 4]].

Definition counting (k : nat) : nat := k.

(** The random source that always draws 3. *)
Definition always_three (k : nat) : nat := 3.

(** Two agents on the 9 by 9 terrain. *)
Definition duel_state : GameState := GameState_init open_9x9 [[Pos 2 2]; [Pos 6 6]].

(** Two agents with chains of three and of two positions on the 9 by 9
    terrain. *)
Definition long_state : GameState :=
  GameState_init open_9x9 [[Pos 2 2; Pos 2 3; Pos 2 4]; [Pos 6 6; Pos 6 7]].

(** The 3 by 3 terrain with stones in its last column, and one agent in
    column 0. *)
Definition walled_3x3 : Map := <[2%nat := replicate 3 ("#"%string, 0)]> open_3x3.

Definition walled_state : GameState := GameState_init walled_3x3 [[Pos 0 1]].

(** ** MyRobotSnake: following a snake *)

Section snake_parts.
Context `{RobotSnake}.
(** [self.world] and [self.color] *)
Variable world : World.
Variable color : Z.

(** The loop of [_update_snake_part] over the coordinates still to try. *)
Fixpoint update_loop (char_to_find : string) (old_color : Z) (ps : list (Z * Z))
  : res (option Position) :=
  match ps with
  | [] => Ok None
  | (px, py) :: ps' =>
      cell ← world_at world px py;
      let '(char, c) := cell in
      if bool_decide (char = char_to_find) && bool_decide (c = old_color)
      then Ok (Some (Pos px py))
      else update_loop char_to_find old_color ps'
  end.

(** [MyRobotSnake._update_snake_part]: the four neighbours, then the old
    position itself; [None] when the loop ends without a [return]. *)
Definition _update_snake_part (old_position : option Position)
    (char_to_find : string) (old_color : Z) : res (option Position) :=
  ns ← _neighbours old_position;
  p ← or_raise AttributeError old_position;
  update_loop char_to_find old_color (ns ++ [(x p, y p)]).

(** The coordinates [_update_snake_part] tries, in its order. *)
Definition candidates (p : Position) : list (Z * Z) :=
  [(x p + 1, y p); (x p - 1, y p); (x p, y p + 1); (x p, y p - 1); (x p, y p)].

(** [p] is visited by the two loops of [_find_snake_heads] no later than
    [q]: columns in ascending order, and each column from row 0 on. *)
Definition scan_le (p q : Position) : Prop :=
  x p < x q ∨ (x p = x q ∧ y p ≤ y q).

(** Every head among the cells in [seen] is followed, in scan order, by
    the head that the variable for its color holds. *)
Definition heads_last (seen : Z → Z → Prop) (heads : option Position * option Position)
  : Prop :=
  (∀ p, seen (x p) (y p) → own_head world color p →
     ∃ q, heads.1 = Some q ∧ scan_le p q) ∧
  (∀ p, seen (x p) (y p) → other_head world color p →
     ∃ q, heads.2 = Some q ∧ scan_le p q).

(** Two positions one step apart. *)
Definition adjacent (p q : Position) : Prop :=
  Z.abs (x q - x p) + Z.abs (y q - y p) = 1.

(** The cell at [q] holds a body or a tail, of the controlled agent when
    [is_player] and of another agent otherwise. *)
Definition part_cell (is_player : bool) (q : Position) : Prop :=
  ∃ char c, world_at world (x q) (y q) = Ok (char, c) ∧
    (char = CH_BODY ∨ char = CH_TAIL) ∧ (c = color ↔ is_player = true).

(** [rest] continues a snake that came from [prev] to [p]: each position is
    one step from the one before, is not the one before that, and holds a
    part of the snake; at the end no such position is left. *)
Fixpoint is_path (is_player : bool) (prev p : Position) (rest : list Position) : Prop :=
  match rest with
  | [] => ∀ q, adjacent p q → q ≠ prev → ¬ part_cell is_player q
  | q :: rest' =>
      adjacent p q ∧ q ≠ prev ∧ part_cell is_player q ∧ is_path is_player p q rest'
  end.

(** The coordinates [next] tries around [p], in its order: right, left,
    below, above. *)
Definition neighbours (p : Position) : list (Z * Z) :=
  [(x p + 1, y p); (x p - 1, y p); (x p, y p + 1); (x p, y p - 1)].

(** [next] passes over the coordinates [c]: they are those of the previous
    position, which is skipped without a look at the world, or the world
    has a cell there and it holds no part of the wanted snake. *)
Definition passed (is_player : bool) (prev : Position) (c : Z * Z) : Prop :=
  (c.1 = x prev ∧ c.2 = y prev) ∨
  ∃ char col, world_at world c.1 c.2 = Ok (char, col) ∧
    ¬ ((char = CH_BODY ∨ char = CH_TAIL) ∧ (col = color ↔ is_player = true)).

(** [q] is what [next] finds at [p] coming from [prev]: the first of the
    neighbours of [p] that is not [prev] and holds a part of the wanted
    snake, every neighbour tried before it being passed over. *)
Definition next_part (is_player : bool) (prev p q : Position) : Prop :=
  ∃ i, neighbours p !! i = Some (x q, y q) ∧
       Forall (passed is_player prev) (take i (neighbours p)) ∧
       q ≠ prev ∧ part_cell is_player q.

(** [rest] is the walk of the [while True] loop from [p], reached from
    [prev]: each position is what [next] finds at the one before it, and at
    the last one [next] passes over all four neighbours.  A snake whose
    parts lead back into themselves has no such walk. *)
Fixpoint is_walk (is_player : bool) (prev p : Position) (rest : list Position) : Prop :=
  match rest with
  | [] => Forall (passed is_player prev) (neighbours p)
  | q :: rest' => next_part is_player prev p q ∧ is_walk is_player p q rest'
  end.

End snake_parts.

(** A 5 by 5 world with a snake of color 1: head at [(1, 1)], body at
    [(2, 1)], tail at [(3, 1)]. *)
Definition open_5x5 : Map := replicate 5 (replicate 5 (" "%string, 0)).

Definition snake_world : World :=
  mkWorld 5 5
    (<[1%nat := [(" "%string, 0); ("@"%string, 1); (" "%string, 0); (" "%string, 0); (" "%string, 0)]]>
    (<[2%nat := [(" "%string, 0); ("*"%string, 1); (" "%string, 0); (" "%string, 0); (" "%string, 0)]]>
    (<[3%nat := [(" "%string, 0); ("$"%string, 1); (" "%string, 0); (" "%string, 0); (" "%string, 0)]]>
     open_5x5))).

(** A 5 by 5 world with a coiled snake of color 1: head at [(1, 1)], body
    at [(2, 1)], [(2, 2)] and [(3, 2)], tail at [(3, 1)], next to the first
    body part. *)
Definition coil_world : World :=
  mkWorld 5 5
    (<[1%nat := [(" "%string, 0); ("@"%string, 1); (" "%string, 0); (" "%string, 0); (" "%string, 0)]]>
    (<[2%nat := [(" "%string, 0); ("*"%string, 1); ("*"%string, 1); (" "%string, 0); (" "%string, 0)]]>
    (<[3%nat := [(" "%string, 0); ("$"%string, 1); ("*"%string, 1); (" "%string, 0); (" "%string, 0)]]>
     open_5x5))).

(** A 5 by 5 world with four heads: two of color 1, at [(1, 1)] and
    [(3, 2)], and two of color 2, at [(0, 4)] and [(4, 0)]. *)
Definition crowded_world : World :=
  mkWorld 5 5
    (<[0%nat := [(" "%string, 0); (" "%string, 0); (" "%string, 0); (" "%string, 0); ("@"%string, 2)]]>
    (<[1%nat := [(" "%string, 0); ("@"%string, 1); (" "%string, 0); (" "%string, 0); (" "%string, 0)]]>
    (<[3%nat := [(" "%string, 0); (" "%string, 0); ("@"%string, 1); (" "%string, 0); (" "%string, 0)]]>
    (<[4%nat := [("@"%string, 2); (" "%string, 0); (" "%string, 0); (" "%string, 0); (" "%string, 0)]]>
     open_5x5)))).

(** ** The arena of a search: the moves of the nodes *)

Section arena_moves.
Context `{RobotSnake}.

(** The moves of the children of [n], in child order. *)
Definition child_moves (t : list Node) (n : Node) : list (option Vector) :=
  (λ c, t !! c ≫= Node.move) <$> Node.childNodes n.

(** The selection loop of [UCT] ends at [node]: it has an untried move, or
    it has no child. *)
Definition stops (t : list Node) (node : nat) : Prop :=
  ∃ n, t !! node = Some n ∧
       (Node.untriedMoves n ≠ [] ∨ Node.childNodes n = []).

(** The expansion step in full: [expanded], with the untried moves that
    [list.remove] leaves to [node] and the new node as [Node.__init__]
    builds it, on the game state [st] reached by the move [m]. *)
Definition grown (t : list Node) (node : nat) (t' : list Node) (node' : nat)
  : Prop :=
  (t' = t ∧ node' = node ∧ ∃ n, t !! node = Some n ∧ Node.untriedMoves n = []) ∨
  (∃ n m um new st,
     t !! node = Some n ∧ m ∈ Node.untriedMoves n ∧
     list_remove m (Node.untriedMoves n) = Ok um ∧
     Node_init (Some m) (Some node) st = Ok new ∧
     node' = length t ∧
     t' = <[node := Node.mk (Node.move n) (Node.parentNode n)
                      (Node.childNodes n ++ [length t]) (Node.wins n)
                      (Node.visits n) um (Node.playerJustMoved n)]> (t ++ [new])).

(** Every node keeps the moves it was built with: the moves of its
    children and its untried moves are, up to their order, the moves that
    [get_moves] returned on some game state, the root state for the
    root. *)
Definition moves_kept (rootstate : GameState) (t : list Node) : Prop :=
  ∀ i n, t !! i = Some n →
    ∃ st moves, (i = 0%nat → st = rootstate) ∧ get_moves st = Ok moves ∧
      Some <$> moves ≡ₚ child_moves t n ++ (Some <$> Node.untriedMoves n).

(** Every node has an untried move or a child. *)
Definition all_open (t : list Node) : Prop :=
  ∀ i n, t !! i = Some n →
    Node.untriedMoves n ≠ [] ∨ Node.childNodes n ≠ [].

End arena_moves.

(** ** The arena of a search: the visits of the nodes *)

(** The visits of the nodes in [cs], added up. *)
Definition sum_visits (t : list Node) (cs : list nat) : Z :=
  foldr Z.add 0 ((λ c, from_option Node.visits 0 (t !! c)) <$> cs).

(** The visits of a node are those of its children, and one more for the
    round that made it; the root was made by no round. *)
Definition visits_add_up (t : list Node) : Prop :=
  ∀ i n, t !! i = Some n →
    Node.visits n =
      (if decide (i = 0%nat) then 0 else 1) + sum_visits t (Node.childNodes n).

(** No node is twice a child of its parent, and every node is a child of
    the node it has as its parent. *)
Definition linked (t : list Node) : Prop :=
  (∀ i n, t !! i = Some n → NoDup (Node.childNodes n)) ∧
  (∀ i n p, t !! i = Some n → Node.parentNode n = Some p →
     ∃ pn, t !! p = Some pn ∧ i ∈ Node.childNodes pn).

(** ** The store: what a move writes to *)

(** The store [h] differs from [h0] at most in the object [self], whose
    references are those of [a], in its [last_action], in its [scores] and
    in the deques in [items]: it has the objects of [h0] and no others, and
    the terrains, the lists of chains and every other object are those of
    [h0]. *)
Definition writes_only (h0 h : Heap.heap) (self : nat) (a : Heap.attrs)
    (items : list nat) : Prop :=
  Heap.terrains h = Heap.terrains h0 ∧
  Heap.player_lists h = Heap.player_lists h0 ∧
  length (Heap.deques h) = length (Heap.deques h0) ∧
  length (Heap.action_lists h) = length (Heap.action_lists h0) ∧
  length (Heap.score_lists h) = length (Heap.score_lists h0) ∧
  length (Heap.states h) = length (Heap.states h0) ∧
  (∃ j, Heap.states h !! self =
          Some (Heap.mkAttrs j (Heap.a_terrain a) (Heap.a_players a)
                  (Heap.a_last_action a) (Heap.a_scores a))) ∧
  (∀ i, i ≠ self → Heap.states h !! i = Heap.states h0 !! i) ∧
  (∀ i, i ≠ Heap.a_last_action a →
     Heap.action_lists h !! i = Heap.action_lists h0 !! i) ∧
  (∀ i, i ≠ Heap.a_scores a →
     Heap.score_lists h !! i = Heap.score_lists h0 !! i) ∧
  (∀ r, r ∉ items → Heap.deques h !! r = Heap.deques h0 !! r).

(** ** OXOState *)

Module OXO.

(** How a method of [OXOState] ends: an [assert] fails, or it ends as the
    other code does. *)
Inductive checked (A : Type) :=
| AssertionError
| Checked (r : res A).
Arguments AssertionError {A}.
Arguments Checked {A} r.

(** The floating-point results [1.0], [0.0] and [0.5], as rationals. *)
Abbreviation Q := QArith_base.Q.
Definition win : Q := QArith_base.Qmake 1 1.
Definition loss : Q := QArith_base.Qmake 0 1.
Definition draw : Q := QArith_base.Qmake 1 2.

Record OXOState := mk {
  playerJustMoved : Z;
  board : list Z
}.

(** [OXOState.__init__] *)
Definition init : OXOState := mk 2 [0; 0; 0; 0; 0; 0; 0; 0; 0].

(** [OXOState.Clone]; [self.board[:]] is an equal list. *)
Definition Clone (self : OXOState) : OXOState :=
  mk (playerJustMoved self) (board self).

(** [OXOState.DoMove], for an integer [move]: the [assert] comes first, so
    a failed assertion leaves the object as it is. *)
Definition DoMove (move : Z) (self : OXOState) : checked unit * OXOState :=
  if bool_decide (0 ≤ move) && bool_decide (move ≤ 8) then
    match getitem (board self) move with
    | Ok b =>
        if bool_decide (b = 0) then
          let pjm := 3 - playerJustMoved self in
          match setitem (board self) move pjm with
          | Ok board' => (Checked (Ok tt), mk pjm board')
          | Raise e => (Checked (Raise e), mk pjm (board self))
          | Stuck => (Checked Stuck, mk pjm (board self))
          end
        else (AssertionError, self)
    | Raise e => (Checked (Raise e), self)
    | Stuck => (Checked Stuck, self)
    end
  else (AssertionError, self).

(** [[i for i in range(9) if self.board[i] == 0]] *)
Fixpoint GetMoves_loop (board : list Z) (range : list Z) : res (list Z) :=
  match range with
  | [] => Ok []
  | i :: range' =>
      b ← getitem board i;
      rest ← GetMoves_loop board range';
      Ok (if bool_decide (b = 0) then i :: rest else rest)
  end.

(** [OXOState.GetMoves] *)
Definition GetMoves (self : OXOState) : res (list Z) :=
  GetMoves_loop (board self) (seqZ 0 9).

(** The eight lines, in the order of the loop of [GetResult]. *)
Definition lines : list (Z * Z * Z) :=
  [(0, 1, 2); (3, 4, 5); (6, 7, 8); (0, 3, 6); (1, 4, 7); (2, 5, 8);
   (0, 4, 8); (2, 4, 6)].

(** The loop of [GetResult]: [board[x] == board[y] == board[z]] reads
    [board[z]] only when the first two are equal. *)
Fixpoint GetResult_loop (board : list Z) (playerjm : Z) (ls : list (Z * Z * Z))
  : res (option Q) :=
  match ls with
  | [] => Ok None
  | (a, b, c) :: ls' =>
      va ← getitem board a;
      vb ← getitem board b;
      if bool_decide (va = vb) then
        vc ← getitem board c;
        if bool_decide (vb = vc) then
          va' ← getitem board a;
          Ok (Some (if bool_decide (va' = playerjm) then win else loss))
        else GetResult_loop board playerjm ls'
      else GetResult_loop board playerjm ls'
  end.

(** [OXOState.GetResult] *)
Definition GetResult (self : OXOState) (playerjm : Z) : checked Q :=
  match GetResult_loop (board self) playerjm lines with
  | Ok (Some r) => Checked (Ok r)
  | Ok None =>
      match GetMoves self with
      | Ok [] => Checked (Ok draw)
      | Ok (_ :: _) => AssertionError
      | Raise e => Checked (Raise e)
      | Stuck => Checked Stuck
      end
  | Raise e => Checked (Raise e)
  | Stuck => Checked Stuck
  end.

(** The states the class can build: [__init__], [Clone], and [DoMove] with
    any integer, whether the call returns or fails. *)
Inductive reachable : OXOState → Prop :=
| reachable_init : reachable init
| reachable_Clone s : reachable s → reachable (Clone s)
| reachable_DoMove s move : reachable s → reachable (DoMove move s).2.

(** The number of squares of [board] that hold [v]. *)
Definition count (v : Z) (board : list Z) : nat :=
  length (filter (λ b, b = v) board).

(** What the class keeps of its states: nine squares that hold 0, 1 or 2,
    a [playerJustMoved] of 1 or 2, and as many marks of player 1 as of
    player 2, or one more when player 1 has just moved. *)
Definition marks_ok (s : OXOState) : Prop :=
  length (board s) = 9%nat ∧
  (playerJustMoved s = 1 ∨ playerJustMoved s = 2) ∧
  Forall (λ b, b = 0 ∨ b = 1 ∨ b = 2) (board s) ∧
  count 1 (board s) =
    (count 2%Z (board s) + if bool_decide (playerJustMoved s = 1%Z) then 1 else 0)%nat.

(** The square [i] of [board] holds [v]. *)
Definition holds (board : list Z) (v : Z) (i : Z) : Prop :=
  getitem board i = Ok v.

(** The three squares of a line hold the same value. *)
Definition uniform (board : list Z) (l : Z * Z * Z) : Prop :=
  ∃ v, holds board v l.1.1 ∧ holds board v l.1.2 ∧ holds board v l.2.

End OXO.

(** A game of noughts and crosses in which player 1 fills the middle row
    and player 2 two squares of the bottom row: the top row is empty. *)
Definition oxo_middle_row : OXO.OXOState :=
  foldl (λ s move, (OXO.DoMove move s).2) OXO.init [3; 6; 4; 7; 5].

(** A game in which player 1 fills the bottom row and no line is left
    empty. *)
Definition oxo_bottom_row : OXO.OXOState :=
  foldl (λ s move, (OXO.DoMove move s).2) OXO.init [0; 4; 8; 2; 6; 3; 7].

(** * Theorems *)

(** ** Python sequences *)

Lemma py_index_lt n i k : py_index n i = Some k → (k < n)%nat.
Proof.
  unfold py_index. repeat case_bool_decide; intros; simplify_eq; lia.
Qed.

Lemma py_index_nat n (k : nat) : (k < n)%nat → py_index n (Z.of_nat k) = Some k.
Proof.
  intros. unfold py_index. rewrite bool_decide_eq_true_2 by lia.
  by rewrite Nat2Z.id.
Qed.

Lemma py_index_is_Some n i : is_Some (py_index n i) ↔ - Z.of_nat n ≤ i < Z.of_nat n.
Proof.
  unfold py_index. repeat case_bool_decide; split; intros Hi; try lia; eauto.
  by destruct Hi.
Qed.

Lemma getitem_Ok {A} (l : list A) i a :
  getitem l i = Ok a ↔ ∃ k, py_index (length l) i = Some k ∧ l !! k = Some a.
Proof.
  unfold getitem. destruct (py_index _ _) as [k|] eqn:E; simpl.
  - destruct (l !! k) eqn:E'; simpl; split.
    + intros [= <-]. eauto.
    + intros (k' & [= <-] & ?). congruence.
    + done.
    + intros (k' & [= <-] & ?). congruence.
  - split; [done|]. by intros (? & ? & ?).
Qed.

Lemma getitem_outcome {A} (l : list A) i :
  (∃ a, getitem l i = Ok a) ∨ getitem l i = Raise IndexError.
Proof. unfold getitem. destruct (_ ≫= _); simpl; eauto. Qed.

Lemma setitem_outcome {A} (l : list A) i v :
  (∃ k, py_index (length l) i = Some k ∧ setitem l i v = Ok (<[k:=v]> l)) ∨
  (py_index (length l) i = None ∧ setitem l i v = Raise IndexError).
Proof. unfold setitem. destruct (py_index _ _); simpl; eauto. Qed.

Lemma setitem_Ok {A} (l : list A) i v l' :
  setitem l i v = Ok l' ↔ ∃ k, py_index (length l) i = Some k ∧ l' = <[k:=v]> l.
Proof.
  destruct (setitem_outcome l i v) as [(k & E & ->)|[E ->]]; split.
  - intros [= <-]. eauto.
  - intros (? & ? & ->). congruence.
  - done.
  - intros (? & ? & ?). congruence.
Qed.

Lemma setitem_length {A} (l : list A) i v l' :
  setitem l i v = Ok l' → length l' = length l.
Proof. rewrite setitem_Ok. intros (k & _ & ->). apply length_insert. Qed.

Lemma getitem_setitem {A} (l : list A) i v l' :
  setitem l i v = Ok l' → getitem l' i = Ok v.
Proof.
  rewrite setitem_Ok. intros (k & E & ->). apply getitem_Ok.
  exists k. rewrite length_insert. split; [done|].
  apply list_lookup_insert_eq. by eapply py_index_lt.
Qed.

Lemma getitem_is_Ok {A} (l : list A) i :
  - Z.of_nat (length l) ≤ i < Z.of_nat (length l) → ∃ a, getitem l i = Ok a.
Proof.
  intros Hi. apply py_index_is_Some in Hi as [k Hk].
  destruct (lookup_lt_is_Some_2 l k) as [a Ha]; [by eapply py_index_lt|].
  exists a. apply getitem_Ok. eauto.
Qed.

Lemma getitem_not_Stuck {A} (l : list A) i : getitem l i ≠ Stuck.
Proof. by destruct (getitem_outcome l i) as [[? ->]| ->]. Qed.

Lemma setitem_not_Stuck {A} (l : list A) i v : setitem l i v ≠ Stuck.
Proof. by destruct (setitem_outcome l i v) as [(? & ? & ->)|[? ->]]. Qed.

Lemma int_not_Stuck s : int s ≠ Stuck.
Proof. unfold int. destruct s; [done|]. by case_match. Qed.

(** ** GameState *)

Section game_facts.
Context `{RobotSnake}.

Ltac st_unfold :=
  unfold mbind, St_bind, mret, St_ret, get_st, modify_st, lift_res;
  cbn beta iota.

(** [do_move], step by step. *)
Lemma do_move_unfold move s :
  do_move move s =
  let s1 := set_playerJustMoved (player_to_move s) s in
  match setitem (last_action s) (player_to_move s) (Some move) with
  | Ok la =>
      let s2 := set_last_action la s1 in
      match move_lookups move s with
      | Ok (player, new_head, cell) =>
          match move_scores s new_head cell.1 with
          | Ok sc =>
              match setitem (players s) (player_to_move s)
                      (removelast (new_head :: player)) with
              | Ok ps => (Ok tt, set_players ps (set_scores sc s2))
              | Raise e => (Raise e, set_scores sc s2)
              | Stuck => (Stuck, set_scores sc s2)
              end
          | Raise e => (Raise e, s2)
          | Stuck => (Stuck, s2)
          end
      | Raise e => (Raise e, s2)
      | Stuck => (Stuck, s2)
      end
  | Raise e => (Raise e, s1)
  | Stuck => (Stuck, s1)
  end.
Proof.
  unfold do_move, move_lookups, move_scores, getitem2, assign_score. st_unfold.
  unfold mbind, res_bind. cbv zeta.
  destruct (setitem (last_action s) _ _) as [la| |]; [|done..].
  destruct (getitem (players s) _) as [player| |]; [|done..].
  destruct (getitem player 0) as [head| |]; [|done..].
  cbn [x y].
  destruct (getitem (terrain s) _) as [column| |]; [|done..].
  destruct (getitem column _) as [cell| |]; [|done..].
  cbn [fst snd].
  destruct (_collides_with_player s _).
  { cbn [scores set_last_action set_playerJustMoved].
    destruct (setitem (scores s) _ _); [|done..].
    by destruct (setitem (players s) _ _). }
  destruct (isnumeric cell.1).
  { destruct (getitem (scores s) _); [|done..].
    destruct (int cell.1); [|done..].
    cbn [scores set_last_action set_playerJustMoved].
    destruct (setitem (scores s) _ _); [|done..].
    by destruct (setitem (players s) _ _). }
  destruct (bool_decide _).
  { cbn [scores set_last_action set_playerJustMoved].
    destruct (setitem (scores s) _ _); [|done..].
    by destruct (setitem (players s) _ _). }
  by destruct (setitem (players s) _ _).
Qed.

Lemma move_lookups_not_Stuck move s : move_lookups move s ≠ Stuck.
Proof.
  unfold move_lookups, getitem2, mbind, res_bind.
  destruct (getitem (players s) _) as [player| |] eqn:E1;
    [|done|by apply getitem_not_Stuck in E1].
  destruct (getitem player 0) as [head| |] eqn:E2;
    [|done|by apply getitem_not_Stuck in E2].
  destruct (getitem (terrain s) _) as [column| |] eqn:E3;
    [|done|by apply getitem_not_Stuck in E3].
  by destruct (getitem column _) eqn:E4; [| |apply getitem_not_Stuck in E4].
Qed.

Lemma move_scores_outcome s new_head char sc :
  move_scores s new_head char = Ok sc → length sc = length (scores s).
Proof.
  unfold move_scores, mbind, res_bind.
  repeat case_match; try done; intros Hsc;
    first [by eapply setitem_length | by simplify_eq].
Qed.

Lemma move_scores_not_Stuck s new_head char : move_scores s new_head char ≠ Stuck.
Proof.
  unfold move_scores, mbind, res_bind.
  repeat case_match; try done; try by apply setitem_not_Stuck.
  all: by repeat match goal with
    | E : getitem _ _ = Stuck |- _ => apply getitem_not_Stuck in E
    | E : int _ = Stuck |- _ => apply int_not_Stuck in E
    end.
Qed.

(** [do_move] returns or raises: its model is never stuck. *)
Lemma do_move_not_Stuck move s : (do_move move s).1 ≠ Stuck.
Proof.
  rewrite do_move_unfold. cbv zeta.
  destruct (setitem (last_action s) _ _) eqn:E1;
    [|done|by apply setitem_not_Stuck in E1].
  destruct (move_lookups move s) as [[[player new_head] cell]| |] eqn:E2;
    [|done|by apply move_lookups_not_Stuck in E2].
  destruct (move_scores s new_head cell.1) eqn:E3;
    [|done|by apply move_scores_not_Stuck in E3].
  by destruct (setitem (players s) _ _) eqn:E4; [| |apply setitem_not_Stuck in E4].
Qed.

Lemma elem_of_list_insert_inv {A} (l : list A) k v a :
  a ∈ <[k:=v]> l → a = v ∨ a ∈ l.
Proof.
  intros [i Hi]%list_elem_of_lookup.
  destruct (decide (k = i)) as [->|Hne].
  - destruct (decide (i < length l)%nat).
    + rewrite list_lookup_insert_eq in Hi by done. left. congruence.
    + rewrite list_insert_ge in Hi by lia. right. by eapply list_elem_of_lookup_2.
  - rewrite list_lookup_insert_ne in Hi by done. right.
    by eapply list_elem_of_lookup_2.
Qed.

Lemma player_to_move_cases s :
  playerJustMoved s = 0 ∨ playerJustMoved s = 1 →
  player_to_move s = 0 ∨ player_to_move s = 1.
Proof. unfold player_to_move. case_bool_decide; lia. Qed.

Lemma GameState_init_ok t ps : state_ok (GameState_init t ps).
Proof.
  repeat split; simpl; auto.
  intros a Ha. by repeat (apply elem_of_cons in Ha as [Ha|Ha]; [done|]);
    apply elem_of_nil in Ha.
Qed.

Lemma clone_ok s : state_ok s → state_ok (clone s).
Proof. intros (? & ? & ? & ?). repeat split; simpl; auto. Qed.

Lemma do_move_ok move s :
  state_ok s → move ∈ directions → state_ok (do_move move s).2.
Proof.
  intros (Hla & Hsc & Hj & Hdir) Hmove.
  pose proof (player_to_move_cases s Hj) as Hpm.
  assert (∀ la, setitem (last_action s) (player_to_move s) (Some move) = Ok la →
    length la = 2%nat ∧ ∀ a, Some a ∈ la → a ∈ directions) as Hla'.
  { intros la Hset. split; [by rewrite (setitem_length _ _ _ _ Hset)|].
    apply setitem_Ok in Hset as (k & _ & ->).
    intros a [[= ->]|Ha]%elem_of_list_insert_inv; auto. }
  rewrite do_move_unfold. cbv zeta.
  destruct (setitem (last_action s) _ _) as [la| |] eqn:E1;
    [destruct (Hla' la eq_refl) as [Hl1 Hl2]|done..].
  destruct (move_lookups move s) as [[[player new_head] cell]| |] eqn:E2;
    [|done..].
  destruct (move_scores s new_head cell.1) as [sc| |] eqn:E3; [|done..].
  apply move_scores_outcome in E3.
  destruct (setitem (players s) _ _) eqn:E4;
    repeat split; simpl; auto; congruence.
Qed.

Lemma reachable_ok s : reachable s → state_ok s.
Proof.
  induction 1; auto using GameState_init_ok, clone_ok, do_move_ok.
Qed.

Lemma setitem_is_Ok {A} (l : list A) i v a :
  getitem l i = Ok a → ∃ k, py_index (length l) i = Some k ∧ l !! k = Some a ∧
                            setitem l i v = Ok (<[k:=v]> l).
Proof.
  intros (k & Hk & Ha)%getitem_Ok. exists k. repeat split; try done.
  apply setitem_Ok. eauto.
Qed.

Lemma state_ok_lookups s :
  state_ok s →
  (∃ la, getitem (last_action s) (player_to_move s) = Ok la) ∧
  (∃ old, getitem (scores s) (player_to_move s) = Ok old).
Proof.
  intros (Hla & Hsc & Hj & _).
  pose proof (player_to_move_cases s Hj).
  split; apply getitem_is_Ok; lia.
Qed.

Lemma removelast_cons_cons {A} (a b : A) l :
  removelast (a :: b :: l) = a :: removelast (b :: l).
Proof. done. Qed.

Lemma length_removelast_cons {A} (a : A) l : length (removelast (a :: l)) = length l.
Proof.
  revert a. induction l as [|b l IH]; intros a; [done|].
  rewrite removelast_cons_cons. cbn [length]. by rewrite IH.
Qed.

Lemma Actions_directions d : d ∈ Actions ↔ d ∈ directions.
Proof.
  unfold Actions, directions.
  rewrite !elem_of_union, !elem_of_singleton, !elem_of_cons, elem_of_nil.
  tauto.
Qed.

Lemma filter_ne_notin (l : list Vector) o :
  o ∉ l → filter (λ d, d ≠ o) l = l.
Proof.
  induction l as [|a l IH]; [done|].
  intros [Hne Ho]%not_elem_of_cons.
  rewrite filter_cons_True by done. by rewrite IH.
Qed.

Lemma length_filter_ne (l : list Vector) o :
  NoDup l → o ∈ l → S (length (filter (λ d, d ≠ o) l)) = length l.
Proof.
  induction 1 as [|a l Ha Hl IH]; [by intros ?%elem_of_nil|].
  intros [->|Ho]%elem_of_cons.
  - rewrite filter_cons_False by (by intros ?).
    by rewrite filter_ne_notin.
  - rewrite filter_cons_True by (by intros ->). simpl. by rewrite IH.
Qed.

Lemma elements_Actions : directions_wf → elements Actions ≡ₚ directions.
Proof.
  intros [Hnd _]. apply NoDup_Permutation; [apply NoDup_elements|done|].
  intros d. rewrite elem_of_elements. apply Actions_directions.
Qed.

Lemma elements_Actions_without o :
  directions_wf →
  elements (Actions ∖ {[ o ]}) ≡ₚ filter (λ d, d ≠ o) directions.
Proof.
  intros [Hnd _]. apply NoDup_Permutation;
    [apply NoDup_elements|by apply NoDup_filter|].
  intros d. rewrite elem_of_elements, elem_of_difference, elem_of_singleton,
    list_elem_of_filter, Actions_directions. tauto.
Qed.

(** C3.  In a reachable game state, [get_moves] returns without raising a
    non-empty list: the four directions (each once) when the agent to move
    has no recorded action, and when it has one, [a], the three directions
    other than the opposite of [a] (each once). *)
Theorem get_moves_legal s :
  directions_wf → reachable s →
  ∃ moves, get_moves s = Ok moves ∧ moves ≠ [] ∧
    ((getitem (last_action s) (player_to_move s) = Ok None ∧
      moves ≡ₚ directions) ∨
     (∃ a, getitem (last_action s) (player_to_move s) = Ok (Some a) ∧
           opposite a ∈ directions ∧
           moves ≡ₚ filter (λ d, d ≠ opposite a) directions ∧
           length moves = 3%nat)).
Proof.
  intros Hwf Hs%reachable_ok.
  destruct (state_ok_lookups s Hs) as [[la Hla] _].
  unfold get_moves, _opposite_action. rewrite Hla. cbn.
  destruct la as [a|].
  - assert (opposite a ∈ directions) as Hopp.
    { destruct Hs as (_ & _ & _ & Hdir), Hwf as [_ Hcl].
      apply Hcl, Hdir. apply getitem_Ok in Hla as (k & _ & Hk).
      by eapply list_elem_of_lookup_2. }
    pose proof (elements_Actions_without (opposite a) Hwf) as Hperm.
    assert (length (elements (Actions ∖ {[ opposite a ]})) = 3%nat) as Hlen.
    { rewrite Hperm. destruct Hwf as [Hnd _].
      pose proof (length_filter_ne _ _ Hnd Hopp) as Hl. simpl in Hl. lia. }
    eexists. split; [done|]. split; [by intros E; rewrite E in Hlen|].
    right. by exists a.
  - pose proof (elements_Actions Hwf) as Hperm.
    eexists. split; [done|]. split; [|by left].
    intros E. rewrite E in Hperm. by apply Permutation_nil_l in Hperm.
Qed.

Lemma move_lookups_Ok move s player head cell :
  getitem (players s) (player_to_move s) = Ok player →
  getitem player 0 = Ok head →
  getitem2 (terrain s) (x head + xdir move) (y head + ydir move) = Ok cell →
  move_lookups move s =
    Ok (player, Pos (x head + xdir move) (y head + ydir move), cell).
Proof.
  intros Hp Hh Hc. unfold move_lookups. rewrite Hp. cbn. rewrite Hh. cbn.
  by rewrite Hc.
Qed.

Lemma getitem_head_removelast (new_head head : Position) player :
  getitem player 0 = Ok head →
  getitem (removelast (new_head :: player)) 0 = Ok new_head.
Proof.
  intros (k & Hk & Hl)%getitem_Ok. destruct player as [|b l]; [done|].
  rewrite removelast_cons_cons. apply getitem_Ok. exists 0%nat. split; [|done].
  apply (py_index_nat _ 0). simpl. lia.
Qed.

(** C1, as amended.  When the chain of the agent to move is there and has a
    head, the cell at head + move is inside the terrain, and a numeric
    symbol that decides the score is one [int] accepts, [do_move] returns;
    the agent to move is then the agent that just moved, the head of its
    chain is head + move, and only its score changes, by the first rule
    that applies: -1000 when the new head is on a chain, the old score plus
    the value of a numeric symbol, -1000 on an obstacle symbol, the old
    score otherwise. *)
Theorem do_move_score_rule s move player head cell :
  reachable s →
  getitem (players s) (player_to_move s) = Ok player →
  getitem player 0 = Ok head →
  getitem2 (terrain s) (x head + xdir move) (y head + ydir move) = Ok cell →
  (_collides_with_player s (Pos (x head + xdir move) (y head + ydir move)) = false →
   isnumeric cell.1 = true → ∃ v, int cell.1 = Ok v) →
  let pm := player_to_move s in
  let new_head := Pos (x head + xdir move) (y head + ydir move) in
  ∃ s' old new,
    do_move move s = (Ok tt, s') ∧
    playerJustMoved s' = pm ∧
    (p ← getitem (players s') pm; getitem p 0) = Ok new_head ∧
    get_result s pm = Ok old ∧
    get_result s' pm = Ok new ∧
    setitem (scores s) pm new = Ok (scores s') ∧
    (_collides_with_player s new_head = true → new = -1000) ∧
    (_collides_with_player s new_head = false → isnumeric cell.1 = true →
       ∃ v, int cell.1 = Ok v ∧ new = old + v) ∧
    (_collides_with_player s new_head = false → isnumeric cell.1 = false →
       cell.1 ∈ obstacle_chars → new = -1000) ∧
    (_collides_with_player s new_head = false → isnumeric cell.1 = false →
       cell.1 ∉ obstacle_chars → new = old).
Proof.
  intros Hs%reachable_ok Hp Hh Hc Hint. cbv zeta.
  remember (Pos (x head + xdir move) (y head + ydir move)) as new_head eqn:Enh.
  destruct (state_ok_lookups s Hs) as [[la Hla] [old Hold]].
  destruct (setitem_is_Ok _ _ (Some move) _ Hla) as (kl & _ & _ & Hsetla).
  destruct (setitem_is_Ok _ _ (removelast (new_head :: player)) _ Hp)
    as (kp & Hkp & _ & Hsetp).
  assert (∀ new : Z, ∃ sc, setitem (scores s) (player_to_move s) new = Ok sc ∧
                           getitem sc (player_to_move s) = Ok new) as Hsc.
  { intros new. destruct (setitem_is_Ok _ _ new _ Hold) as (k & _ & _ & Hk).
    eexists. split; [done|]. by eapply getitem_setitem. }
  assert (setitem (scores s) (player_to_move s) old = Ok (scores s)) as Hsame.
  { destruct (setitem_is_Ok _ _ old _ Hold) as (k & _ & Hk & ->).
    by rewrite list_insert_id. }
  assert (∃ new sc, move_scores s new_head cell.1 = Ok sc ∧
            setitem (scores s) (player_to_move s) new = Ok sc ∧ getitem sc (player_to_move s) = Ok new ∧
            (_collides_with_player s new_head = true → new = -1000) ∧
            (_collides_with_player s new_head = false → isnumeric cell.1 = true →
               ∃ v, int cell.1 = Ok v ∧ new = old + v) ∧
            (_collides_with_player s new_head = false → isnumeric cell.1 = false →
               cell.1 ∈ obstacle_chars → new = -1000) ∧
            (_collides_with_player s new_head = false → isnumeric cell.1 = false →
               cell.1 ∉ obstacle_chars → new = old)) as (new & sc & Hms & Hset & Hget & Hrules).
  { unfold move_scores.
    destruct (_collides_with_player s new_head) eqn:Ecol.
    { destruct (Hsc (-1000)) as (sc & ? & ?). exists (-1000), sc.
      repeat split; done. }
    destruct (isnumeric cell.1) eqn:Enum.
    { destruct (Hint eq_refl eq_refl) as [v Hv]. rewrite Hold, Hv. cbn.
      destruct (Hsc (old + v)) as (sc & ? & ?). exists (old + v), sc.
      repeat split; try done. intros _ _. eauto. }
    case_bool_decide as Eobs.
    { destruct (Hsc (-1000)) as (sc & ? & ?). exists (-1000), sc.
      repeat split; done. }
    exists old, (scores s). repeat split; done. }
  exists (set_players (<[kp:=removelast (new_head :: player)]> (players s))
            (set_scores sc (set_last_action (<[kl:=Some move]> (last_action s))
               (set_playerJustMoved (player_to_move s) s)))), old, new.
  split.
  { rewrite do_move_unfold. cbv zeta. rewrite Hsetla.
    rewrite (move_lookups_Ok _ _ _ _ _ Hp Hh Hc), <-Enh.
    by rewrite Hms, Hsetp. }
  split; [done|]. split.
  { cbn [players set_players].
    assert (getitem (<[kp:=removelast (new_head :: player)]> (players s)) (player_to_move s)
            = Ok (removelast (new_head :: player))) as ->.
    { eapply getitem_setitem, Hsetp. }
    cbn. by eapply getitem_head_removelast. }
  repeat split; try done; apply Hrules.
Qed.

Lemma do_move_returns s move player head cell :
  state_ok s →
  getitem (players s) (player_to_move s) = Ok player →
  getitem player 0 = Ok head →
  getitem2 (terrain s) (x head + xdir move) (y head + ydir move) = Ok cell →
  (_collides_with_player s (Pos (x head + xdir move) (y head + ydir move)) = false →
   isnumeric cell.1 = true → ∃ v, int cell.1 = Ok v) →
  ∃ s', do_move move s = (Ok tt, s').
Proof.
  intros Hs Hp Hh Hc Hint.
  destruct (state_ok_lookups s Hs) as [[la Hla] [old Hold]].
  destruct (setitem_is_Ok _ _ (Some move) _ Hla) as (kl & _ & _ & Hsetla).
  rewrite do_move_unfold. cbv zeta. rewrite Hsetla.
  rewrite (move_lookups_Ok _ _ _ _ _ Hp Hh Hc).
  assert (∃ sc, move_scores s (Pos (x head + xdir move) (y head + ydir move)) cell.1
                = Ok sc) as [sc ->].
  { unfold move_scores.
    assert (∀ v, ∃ sc, setitem (scores s) (player_to_move s) v = Ok sc) as Hset.
    { intros v. destruct (setitem_is_Ok _ _ v _ Hold) as (k & _ & _ & Hk). eauto. }
    destruct (_collides_with_player s _); [apply Hset|].
    destruct (isnumeric cell.1).
    { destruct Hint as [v Hv]; [done..|]. rewrite Hold, Hv. cbn. apply Hset. }
    destruct (bool_decide _); [apply Hset|eauto]. }
  destruct (setitem_is_Ok _ _
    (removelast (Pos (x head + xdir move) (y head + ydir move) :: player)) _ Hp)
    as (kp & _ & _ & ->). eauto.
Qed.

(** C6, as amended.  [do_move] changes the length of no chain, whether it
    returns or raises.  When it raises, every chain is what it was: no head
    is pushed and no tail is popped.  When it returns, the chain of the
    agent that moved is its old chain with the new head in front and
    without its last entry, also when the score became -1000, and every
    other chain is what it was.  It returns whenever the chain of the agent
    to move is there and has a head, the cell at head + move is inside the
    terrain, and a numeric symbol that decides the score is one [int]
    accepts. *)
Theorem do_move_chain_lengths s move :
  length <$> players (do_move move s).2 = length <$> players s ∧
  (∀ e, (do_move move s).1 = Raise e → players (do_move move s).2 = players s) ∧
  (∀ s', do_move move s = (Ok tt, s') →
    ∃ k player head,
      py_index (length (players s)) (player_to_move s) = Some k ∧
      players s !! k = Some player ∧
      player !! 0%nat = Some head ∧
      players s' !! k = Some (removelast
        (Pos (x head + xdir move) (y head + ydir move) :: player)) ∧
      ∀ j, j ≠ k → players s' !! j = players s !! j) ∧
  (∀ player head cell,
    reachable s →
    getitem (players s) (player_to_move s) = Ok player →
    getitem player 0 = Ok head →
    getitem2 (terrain s) (x head + xdir move) (y head + ydir move) = Ok cell →
    (_collides_with_player s (Pos (x head + xdir move) (y head + ydir move)) = false →
     isnumeric cell.1 = true → ∃ v, int cell.1 = Ok v) →
    ∃ s', do_move move s = (Ok tt, s')).
Proof.
  assert (length <$> players (do_move move s).2 = length <$> players s ∧
    (∀ e, (do_move move s).1 = Raise e → players (do_move move s).2 = players s) ∧
    (∀ s', do_move move s = (Ok tt, s') →
      ∃ k player head,
        py_index (length (players s)) (player_to_move s) = Some k ∧
        players s !! k = Some player ∧
        player !! 0%nat = Some head ∧
        players s' !! k = Some (removelast
          (Pos (x head + xdir move) (y head + ydir move) :: player)) ∧
        ∀ j, j ≠ k → players s' !! j = players s !! j)) as (Hlen & Hraise & Hpush).
  { rewrite do_move_unfold. cbv zeta.
    destruct (setitem (last_action s) _ _) as [la| |]; [|by split_and!..].
    destruct (move_lookups move s) as [[[player new_head] cell]| |] eqn:E2;
      [|by split_and!..].
    destruct (move_scores s new_head cell.1) as [sc| |]; [|by split_and!..].
    unfold move_lookups, getitem2 in E2.
    destruct (getitem (players s) _) as [player'| |] eqn:Ep; [|done..].
    cbn in E2.
    destruct (getitem player' 0) as [head| |] eqn:Eh; [|done..].
    cbn in E2.
    destruct (getitem (terrain s) _) as [column| |]; [|done..]. cbn in E2.
    destruct (getitem column _) as [cell'| |]; [|done..]. cbn in E2.
    injection E2 as -> <- ->.
    destruct (setitem_is_Ok _ _
      (removelast (Pos (x head + xdir move) (y head + ydir move) :: player)) _ Ep)
      as (k & Hk & Hpk & ->).
    cbn [fst snd players set_players].
    apply getitem_Ok in Eh as (k0 & Hk0 & Hh).
    assert (k0 = 0%nat) as ->.
    { unfold py_index in Hk0. repeat case_bool_decide; simplify_eq; lia. }
    split_and!.
    - rewrite list_fmap_insert, length_removelast_cons.
      apply list_insert_id. by rewrite list_lookup_fmap, Hpk.
    - done.
    - intros s' [= <-]. exists k, player, head. cbn [players set_players].
      repeat split; try done.
      + apply list_lookup_insert_eq. by eapply lookup_lt_Some.
      + intros j Hj. by apply list_lookup_insert_ne. }
  split_and!; [done..|].
  intros player head cell Hs. by apply do_move_returns, reachable_ok.
Qed.

End game_facts.

(** ** GameState: worked inputs *)

Lemma snakepit_wf : @directions_wf snakepit.
Proof.
  split.
  - unfold directions. cbn. repeat (apply NoDup_cons; split);
      [| | | |apply NoDup_nil_2];
      rewrite ?elem_of_cons, elem_of_nil; intros Hx; by intuition.
  - unfold directions. cbn. intros d.
    rewrite !elem_of_cons, elem_of_nil.
    intros [->|[->|[->|[->|[]]]]]; vm_compute; auto.
Qed.

Lemma get_moves_legal_witness :
  ∃ moves, get_moves (H:=snakepit) (do_move (H:=snakepit) (Vec 1 0) (centre_state open_3x3)).2
           = Ok moves ∧ length moves = 3%nat.
Proof.
  destruct (get_moves_legal (H:=snakepit)
              (do_move (H:=snakepit) (Vec 1 0) (centre_state open_3x3)).2)
    as (moves & Hm & _ & [[Hla _]|(a & _ & _ & _ & Hlen)]).
  - exact snakepit_wf.
  - apply (reachable_do_move (H:=snakepit)); [apply reachable_init|].
    unfold directions. cbn. rewrite !elem_of_cons. auto.
  - vm_compute in Hla. discriminate Hla.
  - by exists moves.
Defined.

Lemma do_move_score_rule_witness :
  ∃ s' old new,
    do_move (H:=snakepit) (Vec 1 0) (centre_state five_3x3) = (Ok tt, s') ∧
    get_result (centre_state five_3x3) 0 = Ok old ∧
    get_result s' 0 = Ok new ∧
    new = old + 5.
Proof.
  destruct (do_move_score_rule (H:=snakepit) (centre_state five_3x3) (Vec 1 0)
              [Pos 1 1] (Pos 1 1) ("5"%string, 0))
    as (s' & old & new & Hdo & _ & _ & Hold & Hnew & _ & _ & Hnum & _).
  - apply reachable_init.
  - reflexivity.
  - reflexivity.
  - reflexivity.
  - intros _ _. by exists 5.
  - exists s', old, new. repeat split; try done.
    destruct Hnum as (v & Hv & ->); [reflexivity..|].
    by injection Hv as <-.
Defined.

(** C1, counterexample.  On the 3 by 3 terrain an agent in the last column
    moves right: the lookup of the cell raises, the chain and the scores
    are what they were. *)
Lemma do_move_off_terrain :
  do_move (H:=snakepit) (Vec 1 0) edge_state =
    (Raise IndexError,
     mkGameState 0 open_3x3 [[Pos 2 1]] [Some (Vec 1 0); None] [0; 0]).
Proof. reflexivity. Qed.

Lemma do_move_chain_lengths_witness :
  ∃ s', do_move (H:=snakepit) (Vec 1 0) long_state = (Ok tt, s') ∧
        players s' = [[Pos 3 2; Pos 2 2; Pos 2 3]; [Pos 6 6; Pos 6 7]].
Proof.
  destruct (do_move_chain_lengths (H:=snakepit) long_state (Vec 1 0))
    as (Hlen & _ & Hpush & Hret).
  destruct (Hret [Pos 2 2; Pos 2 3; Pos 2 4] (Pos 2 2) (" "%string, 0))
    as [s' Hs'].
  - apply reachable_init.
  - reflexivity.
  - reflexivity.
  - reflexivity.
  - intros _ Hnum. vm_compute in Hnum. discriminate Hnum.
  - exists s'. split; [exact Hs'|].
    destruct (Hpush s' Hs') as (k & player & head & Hk & Hp & Hh & Hnew & Hrest).
    vm_compute in Hk. injection Hk as <-.
    vm_compute in Hp. injection Hp as <-.
    vm_compute in Hh. injection Hh as <-.
    assert (1 ≠ 0)%nat as Hne by lia.
    apply Hrest in Hne.
    rewrite Hs' in Hlen. cbn [snd] in Hlen.
    destruct (players s') as [|c0 [|c1 [|c2 l]]]; [done..| |done].
    cbn in Hnew, Hne. by injection Hnew as ->; injection Hne as ->.
Defined.

(** C6, counterexample.  On the 3 by 3 terrain an agent in the last column
    moves right: [do_move] raises, and the chain is what it was; no head
    has been put in front and no last entry taken away. *)
Lemma do_move_raise_pushes_nothing :
  (do_move (H:=snakepit) (Vec 1 0) edge_state).1 = Raise IndexError ∧
  players edge_state = [[Pos 2 1]] ∧
  players (do_move (H:=snakepit) (Vec 1 0) edge_state).2 = [[Pos 2 1]] ∧
  players (do_move (H:=snakepit) (Vec 1 0) edge_state).2
    ≠ [removelast [Pos 3 1; Pos 2 1]].
Proof. split_and!; [reflexivity..|]. intros [=]. Qed.

(** ** GameState over a store of objects *)

Module HeapFacts.
Local Abbreviation game_clone := clone.
Import Heap.

Global Instance extends_refl : Reflexive extends.
Proof. by intros h; repeat split. Qed.

Global Instance extends_trans : Transitive extends.
Proof.
  intros h1 h2 h3 (? & ? & ? & ? & ? & ?) (? & ? & ? & ? & ? & ?).
  repeat split; by etrans.
Qed.

Lemma prefix_insert_above {A} (l1 l2 : list A) r o :
  l1 `prefix_of` l2 → (length l1 ≤ r)%nat → l1 `prefix_of` <[r:=o]> l2.
Proof.
  intros [k ->] Hr. rewrite insert_app_r_alt by done. by apply prefix_app_r.
Qed.

Lemma load_eq {A} (get : heap → list A) r h o :
  get h !! r = Some o → load get r h = (Ok o, h).
Proof. unfold load. by intros ->. Qed.

Lemma load_extends {A} (get : heap → list A) r h h' o :
  get h `prefix_of` get h' → get h !! r = Some o → get h' !! r = Some o.
Proof. intros Hp Hr. by eapply prefix_lookup_Some. Qed.

Lemma load_Ok {A} (get : heap → list A) r h o :
  (load get r h).1 = Ok o → get h !! r = Some o.
Proof. unfold load. cbn. destruct (get h !! r); [|done]. by intros [= ->]. Qed.

Ltac st_unfold :=
  unfold mbind, St_bind, mret, St_ret, get_st, modify_st, lift_res;
  cbn beta iota.

Lemma load_chains_heap items h : (load_chains items h).2 = h.
Proof.
  induction items as [|r items IH]; [done|]. cbn [load_chains]. st_unfold.
  unfold load at 1. destruct (deques h !! r); [|done..].
  destruct (load_chains items h) as [[ps| |] h'] eqn:E; cbn in *; by subst.
Qed.

Lemma load_chains_Ok items h chains :
  (load_chains items h).1 = Ok chains ↔
  Forall2 (λ r l, deques h !! r = Some l) items chains.
Proof.
  revert chains. induction items as [|r items IH]; intros chains.
  - cbn. split; [by intros [= <-]; constructor|by inversion 1].
  - cbn [load_chains]. st_unfold. unfold load at 1.
    destruct (deques h !! r) as [l|] eqn:El; cbn.
    + pose proof (load_chains_heap items h) as Hh.
      destruct (load_chains items h) as [[ps| |] h'] eqn:E; cbn in *; subst h'.
      * split.
        -- intros [= <-]. constructor; [done|]. by apply IH.
        -- inversion 1 as [|? l' ? ps' Hl Hps]; subst.
           apply IH in Hps. simplify_eq. done.
      * split; [done|]. inversion 1 as [|? l' ? ps' Hl Hps]; subst.
        by apply IH in Hps.
      * split; [done|]. inversion 1 as [|? l' ? ps' Hl Hps]; subst.
        by apply IH in Hps.
    + split; [done|]. inversion 1; simplify_eq.
Qed.

Ltac no_obj :=
  split; [done|]; intros (? & ? & ? & ? & ? & ? & ? & ? & ?); simplify_eq.

Lemma snapshot_Ok self h s :
  (snapshot self h).1 = Ok s ↔
  ∃ a items,
    states h !! self = Some a ∧
    terrains h !! a_terrain a = Some (terrain s) ∧
    player_lists h !! a_players a = Some items ∧
    Forall2 (λ r l, deques h !! r = Some l) items (players s) ∧
    action_lists h !! a_last_action a = Some (last_action s) ∧
    score_lists h !! a_scores a = Some (scores s) ∧
    playerJustMoved s = a_playerJustMoved a.
Proof.
  unfold snapshot. st_unfold. unfold load.
  destruct (states h !! self) as [a|] eqn:Ea; [|no_obj].
  destruct (terrains h !! a_terrain a) as [t|] eqn:Et; [|no_obj].
  destruct (player_lists h !! a_players a) as [items|] eqn:Ei;
    [|no_obj].
  pose proof (load_chains_heap items h) as Hh.
  pose proof (load_chains_Ok items h) as Hc.
  destruct (load_chains items h) as [[ps| |] h'] eqn:E; cbn in *; subst h'.
  - destruct (action_lists h !! a_last_action a) as [la|] eqn:El;
      [|no_obj].
    destruct (score_lists h !! a_scores a) as [sc|] eqn:Es;
      [|no_obj].
    cbn. split.
    + intros [= <-]. exists a, items. cbn. repeat split; try done. by apply Hc.
    + intros (a' & items' & ? & ? & ? & Hf & ? & ? & ?). simplify_eq.
      apply Hc in Hf. destruct s; cbn in *. by simplify_eq.
  - split; [done|]. intros (a' & items' & ? & ? & ? & Hf & _). simplify_eq.
    by apply Hc in Hf.
  - split; [done|]. intros (a' & items' & ? & ? & ? & Hf & _). simplify_eq.
    by apply Hc in Hf.
Qed.

Lemma snapshot_extends self h h' s :
  extends h h' → (snapshot self h).1 = Ok s → (snapshot self h').1 = Ok s.
Proof.
  intros (Hd & Hp & Hl & Hs & Ht & Hst).
  rewrite !snapshot_Ok. intros (a & items & ? & ? & ? & Hf & ? & ? & ?).
  exists a, items. repeat split; try done; try (by eapply prefix_lookup_Some).
  eapply Forall2_impl; [exact Hf|]. cbn. intros r l Hr.
  by eapply prefix_lookup_Some.
Qed.

(** The deep copy of the chains: new deques behind the old ones, with the
    contents of the old ones. *)
Lemma deepcopy_items_spec items : ∀ memo h chains n0,
  Forall2 (λ r l, deques h !! r = Some l) items chains →
  (n0 ≤ length (deques h))%nat →
  Forall (λ p : nat * nat, (n0 ≤ p.2)%nat ∧
            ∃ l, deques h !! p.1 = Some l ∧ deques h !! p.2 = Some l) memo →
  ∃ items' dq,
    deepcopy_items memo items h = (Ok items', set_deques (deques h ++ dq) h) ∧
    Forall2 (λ r l, (deques h ++ dq) !! r = Some l) items' chains ∧
    Forall (λ r, n0 ≤ r)%nat items'.
Proof.
  induction items as [|r items IH]; intros memo h chains n0 Hf Hn Hmemo.
  { inversion Hf; subst. exists [], []. cbn. rewrite app_nil_r.
    by destruct h. }
  inversion Hf as [|? l ? chains' Hl Hf']; subst.
  cbn [deepcopy_items].
  destruct (list_find _ memo) as [[i [r0 r']]|] eqn:Efind.
  - apply list_find_Some in Efind as (Hi & Hr0 & _). cbn in Hr0. subst r0.
    pose proof (proj1 (Forall_lookup _ _) Hmemo i (r, r') Hi)
      as (Hr' & l' & Hl1 & Hl2). cbn in Hr', Hl1, Hl2. simplify_eq.
    destruct (IH memo h chains' n0 Hf' Hn Hmemo) as (items' & dq & Hcopy & Hf2 & Hb).
    exists (r' :: items'), dq. st_unfold. rewrite Hcopy. cbn.
    repeat split; [|by constructor].
    constructor; [|done]. by apply lookup_app_l_Some.
  - st_unfold. unfold load at 1. rewrite Hl. unfold alloc at 1.
    destruct (IH ((r, length (deques h)) :: memo)
                (set_deques (deques h ++ [l]) h) chains' n0)
      as (items' & dq & Hcopy & Hf2 & Hb).
    + cbn. eapply Forall2_impl; [done|]. intros; by apply lookup_app_l_Some.
    + cbn. rewrite length_app. lia.
    + constructor.
      * cbn. split; [done|]. exists l. split; [by apply lookup_app_l_Some|].
        by apply list_lookup_middle.
      * eapply Forall_impl; [done|]. cbn. intros [r1 r2] (? & l' & ? & ?).
        split; [done|]. exists l'. split; by apply lookup_app_l_Some.
    + rewrite Hcopy. cbn in *. rewrite <-app_assoc in *.
      exists (length (deques h) :: items'), ([l] ++ dq). repeat split.
      * constructor; [|done]. by apply list_lookup_middle.
      * by constructor.
Qed.

Lemma clone_Ok self h a items chains la sc :
  states h !! self = Some a →
  player_lists h !! a_players a = Some items →
  Forall2 (λ r l, deques h !! r = Some l) items chains →
  action_lists h !! a_last_action a = Some la →
  score_lists h !! a_scores a = Some sc →
  ∃ items' dq,
    clone self h =
      (Ok (length (states h)),
       mkHeap (deques h ++ dq) (player_lists h ++ [items'])
         (action_lists h ++ [[None; None]; la])
         (score_lists h ++ [[0; 0]; sc])
         (terrains h)
         (states h ++ [mkAttrs 1 (a_terrain a) (length (player_lists h))
                         (S (length (action_lists h)))
                         (S (length (score_lists h)))])) ∧
    Forall2 (λ r l, (deques h ++ dq) !! r = Some l) items' chains ∧
    Forall (λ r, length (deques h) ≤ r)%nat items'.
Proof.
  intros Ha Hitems Hf Hla Hsc.
  destruct (deepcopy_items_spec items [] h chains (length (deques h)))
    as (items' & dq & Hcopy & Hf' & Hb); [done| lia | constructor |].
  exists items', dq. split; [|done].
  unfold clone, deepcopy_players, init. st_unfold.
  unfold load at 1. rewrite Ha. unfold load at 1. rewrite Hitems, Hcopy.
  unfold alloc, load, store. cbn.
  rewrite (lookup_app_l_Some _ _ _ _ Hla). cbn.
  rewrite (list_lookup_middle (states h) []) by done. cbn.
  rewrite (lookup_app_l_Some _ _ _ _ Hsc). cbn.
  rewrite !(insert_app_r_alt (states h)) by (rewrite ?length_insert; lia).
  rewrite ?length_insert, Nat.sub_diag. cbn.
  rewrite (list_lookup_middle (states h) []) by done. cbn.
  rewrite !(insert_app_r_alt (states h)) by (rewrite ?length_insert; lia).
  rewrite Nat.sub_diag. cbn.
  rewrite !length_app, <-!app_assoc. cbn.
  by rewrite !Nat.add_1_r.
Qed.

Section heap_game_facts.
Context `{RobotSnake}.

Lemma collides_heap its p h : (_collides_with_player its p h).2 = h.
Proof.
  induction its as [|r its IH]; [done|]. cbn [_collides_with_player].
  st_unfold. unfold load at 1. destruct (deques h !! r); [|done..].
  by case_bool_decide.
Qed.

Section frame.
Variables (h0 : heap) (c : nat) (a : attrs) (items : list nat).
Local Abbreviation I := (λ h, owns h0 h c a items).

Lemma inv_bind {A B} (m : St heap A) (f : A → St heap B) h :
  I (m h).2 → (∀ v, I (f v (m h).2).2) → I ((m ≫= f) h).2.
Proof.
  intros Hm Hf. unfold mbind, St_bind.
  specialize (Hf) . destruct (m h) as [[v| |] h1]; cbn in *; auto.
Qed.

Lemma inv_load {A B} (get : heap → list A) r (f : A → St heap B) h :
  I h → (∀ o, get h !! r = Some o → I (f o h).2) → I ((load get r ≫= f) h).2.
Proof.
  intros Hh Hf. unfold mbind, St_bind, load.
  destruct (get h !! r) as [o|]; cbn; auto.
Qed.

Lemma inv_lift {A B} (r : res A) (f : A → St heap B) h :
  I h → (∀ v, r = Ok v → I (f v h).2) → I ((lift_res r ≫= f) h).2.
Proof.
  intros Hh Hf. unfold mbind, St_bind, lift_res. destruct r; cbn; auto.
Qed.

Lemma inv_store_states j h :
  I h →
  I (set_states (<[c := mkAttrs j (a_terrain a) (a_players a)
                          (a_last_action a) (a_scores a)]> (states h)) h).
Proof.
  intros ((Hd & Hp & Hl & Hs & Ht & Hst) & [j' Hc] & Hitems & Hbc & Hbl & Hbs & Hbd).
  split; [|split; [|done]].
  - repeat split; try done. cbn. by apply prefix_insert_above.
  - exists j. cbn. apply list_lookup_insert_eq. by eapply lookup_lt_Some.
Qed.

Lemma inv_store_actions l h :
  I h → I (set_action_lists (<[a_last_action a := l]> (action_lists h)) h).
Proof.
  intros ((Hd & Hp & Hl & Hs & Ht & Hst) & [j' Hc] & Hitems & Hbc & Hbl & Hbs & Hbd).
  repeat split; try done; [|by exists j'].
  cbn. by apply prefix_insert_above.
Qed.

Lemma inv_store_scores l h :
  I h → I (set_score_lists (<[a_scores a := l]> (score_lists h)) h).
Proof.
  intros ((Hd & Hp & Hl & Hs & Ht & Hst) & [j' Hc] & Hitems & Hbc & Hbl & Hbs & Hbd).
  repeat split; try done; [|by exists j'].
  cbn. by apply prefix_insert_above.
Qed.

Lemma inv_store_deques r l h :
  r ∈ items → I h → I (set_deques (<[r := l]> (deques h)) h).
Proof.
  intros Hr ((Hd & Hp & Hl & Hs & Ht & Hst) & [j' Hc] & Hitems & Hbc & Hbl & Hbs & Hbd).
  repeat split; try done; [|by exists j'].
  cbn. apply prefix_insert_above; [done|].
  by eapply (proj1 (Forall_forall _ _) Hbd).
Qed.

Lemma inv_assign_score pm v h : I h → I (assign_score c pm v h).2.
Proof.
  intros Hh. unfold assign_score.
  apply inv_load; [done|]. intros a' Ha'.
  assert (a_scores a' = a_scores a) as ->.
  { destruct Hh as (_ & [j Hc] & _). by simplify_eq. }
  apply inv_load; [done|]. intros sc Hsc.
  apply inv_lift; [done|]. intros sc' Hsc'.
  unfold store. cbn. by apply inv_store_scores.
Qed.

Lemma inv_do_move move h : I h → I (do_move c move h).2.
Proof.
  intros Hh. unfold do_move.
  apply inv_load; [done|]. intros a' Ha'.
  assert (∃ j, a' = mkAttrs j (a_terrain a) (a_players a) (a_last_action a)
                      (a_scores a)) as [j ->].
  { destruct Hh as (_ & [j Hc] & _). exists j. by simplify_eq. }
  cbn [a_players a_terrain a_last_action a_scores a_playerJustMoved].
  apply inv_load; [done|]. intros items' Hitems'.
  assert (items' = items) as ->.
  { destruct Hh as (_ & _ & Hi & _). by simplify_eq. }
  apply inv_bind; [by apply inv_store_states|]. intros _.
  unfold store at 1. cbn [snd].
  match goal with |- owns _ (_ ?h1).2 _ _ _ => 
    assert (I h1) as Hh1 by (by apply inv_store_states); generalize dependent h1 end.
  intros h1 Hh1.
  apply inv_load; [done|]. intros la Hla.
  apply inv_lift; [done|]. intros la' Hla'.
  apply inv_bind; [by apply inv_store_actions|]. intros _.
  unfold store at 1. cbn [snd].
  match goal with |- owns _ (_ ?h2).2 _ _ _ => 
    assert (I h2) as Hh2 by (by apply inv_store_actions); generalize dependent h2 end.
  intros h2 Hh2.
  apply inv_lift; [done|]. intros r Hr.
  assert (r ∈ items) as Hri.
  { apply getitem_Ok in Hr as (k & _ & Hk). by eapply list_elem_of_lookup_2. }
  apply inv_load; [done|]. intros player Hplayer.
  apply inv_lift; [done|]. intros head Hhead.
  apply inv_load; [done|]. intros t Ht.
  apply inv_lift; [done|]. intros cell Hcell.
  apply inv_bind; [by rewrite collides_heap|]. intros hit.
  rewrite collides_heap.
  match goal with |- owns _ ((?m ≫= _) _).2 _ _ _ => assert (I (m h2).2) as Hm end.
  { destruct hit; [by apply inv_assign_score|].
    destruct (isnumeric cell.1).
    { apply inv_load; [done|]. intros sc Hsc.
      apply inv_lift; [done|]. intros old Hold.
      apply inv_lift; [done|]. intros v Hv.
      by apply inv_assign_score. }
    destruct (bool_decide (cell.1 ∈ obstacle_chars));
      [by apply inv_assign_score|done]. }
  apply inv_bind; [done|]. intros _.
  match goal with |- owns _ (_ ?h3).2 _ _ _ => generalize dependent h3 end.
  intros h3 Hh3.
  apply inv_load; [done|]. intros player' Hplayer'.
  unfold store. cbn. by apply inv_store_deques.
Qed.

End frame.
Lemma owns_do_moves h0 c a items moves h :
  owns h0 h c a items → owns h0 (do_moves c moves h) c a items.
Proof.
  revert h. induction moves as [|move moves IH]; intros h Hh; [done|].
  cbn [do_moves]. by apply IH, inv_do_move.
Qed.

(** C8.  [clone] of a game state object returns a new object, and whatever
    sequence of [do_move] calls is made on it, returning or raising, the
    state the original object stands for, its chains and scores among the
    rest, stays what it was. *)
Theorem clone_moves_leave_original self h s :
  (snapshot self h).1 = Ok s →
  ∃ c h1, clone self h = (Ok c, h1) ∧
    (snapshot c h1).1 = Ok (game_clone s) ∧
    ∀ moves, (snapshot self (do_moves c moves h1)).1 = Ok s.
Proof.
  intros Hs. pose proof Hs as Hs'.
  apply snapshot_Ok in Hs' as (a & items & Ha & Ht & Hi & Hf & Hla & Hsc & Hj).
  destruct (clone_Ok self h a items _ _ _ Ha Hi Hf Hla Hsc)
    as (items' & dq & Hclone & Hf' & Hb).
  eexists _, _. split; [exact Hclone|].
  match goal with |- (snapshot _ ?hc).1 = _ ∧ _ => set (h1 := hc) end.
  assert (extends h h1) as Hext.
  { repeat split; cbn; first [by apply prefix_app_r|done]. }
  split.
  - apply snapshot_Ok. eexists _, items'. cbn.
    rewrite !(list_lookup_middle _ []) by done. cbn.
    repeat split; try done.
    + by apply list_lookup_middle.
    + cbn. rewrite lookup_app_r by lia.
      by replace (S (length (action_lists h)) - length (action_lists h))%nat
        with 1%nat by lia.
    + cbn. rewrite lookup_app_r by lia.
      by replace (S (length (score_lists h)) - length (score_lists h))%nat
        with 1%nat by lia.
  - intros moves. eapply snapshot_extends; [|done].
    eapply (owns_do_moves h (length (states h))
              (mkAttrs 1 (a_terrain a) (length (player_lists h))
                 (S (length (action_lists h))) (S (length (score_lists h))))
              items' moves h1).
    split; [done|]. cbn. split.
    { exists 1. by apply list_lookup_middle. }
    split; [by apply list_lookup_middle|]. repeat split; try lia. done.
Qed.

End heap_game_facts.

End HeapFacts.

(** ** The store: worked inputs *)

Lemma clone_moves_leave_original_witness :
  ∃ c h1, Heap.clone 0 fresh_heap = (Ok c, h1) ∧
    (Heap.snapshot 0 (Heap.do_moves (H:=snakepit) c [Vec 1 0; Vec 0 1] h1)).1
      = Ok (centre_state open_3x3).
Proof.
  destruct (HeapFacts.clone_moves_leave_original (H:=snakepit) 0 fresh_heap
              (centre_state open_3x3)) as (c & h1 & Hc & _ & Hm).
  - reflexivity.
  - exists c, h1. split; [exact Hc|apply Hm].
Defined.

Lemma clone_playerJustMoved `{RobotSnake} s : playerJustMoved (clone s) = 1.
Proof. reflexivity. Qed.

(** C7, at the failing input.  Object 0 has moved once, so its
    [playerJustMoved] is 0; its clone, object 1, has the same terrain
    reference and equal chains, actions and scores, but a
    [playerJustMoved] of 1. *)
Theorem clone_resets_playerJustMoved :
  ∃ h', Heap.clone 0 moved_heap = (Ok 1%nat, h') ∧
    (Heap.snapshot 0 h').1 =
      Ok (mkGameState 0 open_3x3 [[Pos 2 1]] [Some (Vec 1 0); None] [0; 0]) ∧
    (Heap.snapshot 1 h').1 =
      Ok (mkGameState 1 open_3x3 [[Pos 2 1]] [Some (Vec 1 0); None] [0; 0]) ∧
    Heap.a_terrain <$> Heap.states h' !! 1%nat = Heap.a_terrain <$> Heap.states h' !! 0%nat ∧
    Heap.a_players <$> Heap.states h' !! 1%nat ≠ Heap.a_players <$> Heap.states h' !! 0%nat.
Proof. eexists. split; [reflexivity|]. by repeat split. Qed.

(** ** MyRobotSnake: finding the snakes in the world *)

Section scanner_facts.
Context `{RobotSnake}.
Variable world : World.
Variable color : Z.
Hypothesis Hcovered : covered world.

Lemma scan_cell_spec seen heads px py :
  scanned world px py → heads_ok world color seen heads →
  ∃ heads', scan_cell world color heads px py = Ok heads' ∧
    heads_ok world color (λ a b, seen a b ∨ (a = px ∧ b = py)) heads'.
Proof.
  intros Hin [Hown Hother]. destruct (Hcovered px py Hin) as [[char c] Hcell].
  unfold scan_cell. rewrite Hcell. cbn.
  case_bool_decide as Ehead; [case_bool_decide as Ecolor|]; subst;
    eexists; (split; [done|]); split; cbn.
  - by split.
  - destruct heads.2 as [p|]; [done|].
    intros [a b]; cbn; intros [Hs|[-> ->]]; [by apply Hother|].
    intros (_ & c & Hc & Hw). cbn in Hw. rewrite Hcell in Hw. by simplify_eq.
  - destruct heads.1 as [p|]; [done|].
    intros [a b]; cbn; intros [Hs|[-> ->]]; [by apply Hown|].
    intros (_ & Hw). cbn in Hw. rewrite Hcell in Hw. by simplify_eq.
  - split; [done|]. by exists c.
  - destruct heads.1 as [p|]; [done|].
    intros [a b]; cbn; intros [Hs|[-> ->]]; [by apply Hown|].
    intros (_ & Hw). cbn in Hw. rewrite Hcell in Hw. by simplify_eq.
  - destruct heads.2 as [p|]; [done|].
    intros [a b]; cbn; intros [Hs|[-> ->]]; [by apply Hother|].
    intros (_ & c' & Hc & Hw). cbn in Hw. rewrite Hcell in Hw. by simplify_eq.
Qed.

Lemma heads_ok_iff seen seen' heads :
  (∀ a b, seen' a b → seen a b) → heads_ok world color seen heads → heads_ok world color seen' heads.
Proof.
  intros Hs [Hown Hother]. split.
  - destruct heads.1; [done|]. intros p Hp. by apply Hown, Hs.
  - destruct heads.2; [done|]. intros p Hp. by apply Hother, Hs.
Qed.

Lemma scan_column_spec px ys : ∀ seen heads,
  0 ≤ px < SIZE_X world →
  (∀ py, py ∈ ys → 0 ≤ py < SIZE_Y world) →
  heads_ok world color seen heads →
  ∃ heads', scan_column world color heads px ys = Ok heads' ∧
    heads_ok world color (λ a b, seen a b ∨ (a = px ∧ b ∈ ys)) heads'.
Proof.
  induction ys as [|py ys IH]; intros seen heads Hpx Hys Hok.
  - exists heads. split; [done|]. eapply heads_ok_iff; [|done].
    intros a b [?|[_ ?%elem_of_nil]]; done.
  - destruct (scan_cell_spec seen heads px py) as (heads1 & Hcell & Hok1);
      [split; [done|apply Hys; left]|done|].
    destruct (IH _ heads1 Hpx (λ b Hb, Hys b (list_elem_of_further _ _ _ Hb)) Hok1)
      as (heads' & Hcol & Hok').
    exists heads'. cbn. rewrite Hcell. cbn. split; [done|].
    eapply heads_ok_iff; [|done]. cbn.
    intros a b [?|[-> [->|?]%elem_of_cons]]; auto.
Qed.

Lemma scan_world_spec xs : ∀ seen heads,
  (∀ px, px ∈ xs → 0 ≤ px < SIZE_X world) →
  heads_ok world color seen heads →
  ∃ heads', scan_world world color heads xs = Ok heads' ∧
    heads_ok world color (λ a b, seen a b ∨ (a ∈ xs ∧ 0 ≤ b < SIZE_Y world)) heads'.
Proof.
  induction xs as [|px xs IH]; intros seen heads Hxs Hok.
  - exists heads. split; [done|]. eapply heads_ok_iff; [|done].
    intros a b [?|[?%elem_of_nil _]]; done.
  - destruct (scan_column_spec px (seqZ 0 (SIZE_Y world)) seen heads)
      as (heads1 & Hcol & Hok1); [apply Hxs; left| |done|].
    { intros py Hpy%elem_of_seqZ. lia. }
    destruct (IH _ heads1 (λ b Hb, Hxs b (list_elem_of_further _ _ _ Hb)) Hok1)
      as (heads' & Hw & Hok').
    exists heads'. cbn. rewrite Hcol. cbn. split; [done|].
    eapply heads_ok_iff; [|done]. cbn.
    intros a b [?|[[->|?]%elem_of_cons Hb]]; auto.
    left. right. split; [done|]. apply elem_of_seqZ. lia.
Qed.

(** What [_find_snake_heads] returns. *)
Lemma _find_snake_heads_spec :
  ∃ player_head opponent_head,
    _find_snake_heads world color =
      Ok ([player_head] ::
          match opponent_head with Some _ => [[opponent_head]] | None => [] end) ∧
    match player_head with
    | Some p => own_head world color p
    | None => ∀ p, ¬ own_head world color p
    end ∧
    match opponent_head with
    | Some p => other_head world color p
    | None => ∀ p, ¬ other_head world color p
    end.
Proof.
  destruct (scan_world_spec (seqZ 0 (SIZE_X world)) (λ _ _, False) (None, None))
    as ([ph oh] & Hscan & Hown & Hother).
  { intros px Hpx%elem_of_seqZ. lia. }
  { split; cbn; by intros p []. }
  exists ph, oh. unfold _find_snake_heads. rewrite Hscan. cbn in *.
  split; [by destruct oh|]. split.
  - destruct ph; [done|]. intros p Hp. apply (Hown p); [|done].
    destruct Hp as [[Hx Hy] _]. right. split; [|done]. apply elem_of_seqZ. lia.
  - destruct oh; [done|]. intros p Hp. apply (Hother p); [|done].
    destruct Hp as [[Hx Hy] _]. right. split; [|done]. apply elem_of_seqZ. lia.
Qed.

Lemma _find_snake_rest_None fuel is_player :
  _find_snake_rest world color (S fuel) None is_player = Raise AttributeError.
Proof. reflexivity. Qed.

End scanner_facts.

Section absent_agents.
Context `{RobotSnake}.

Lemma do_move_no_chain t move :
  do_move move (GameState_init t []) =
    (Raise IndexError, mkGameState 0 t [] [Some move; None] [0; 0]).
Proof. by rewrite do_move_unfold. Qed.

Lemma get_moves_init t chains :
  get_moves (GameState_init t chains) = Ok (elements Actions).
Proof.
  unfold get_moves, player_to_move. cbn [playerJustMoved GameState_init last_action].
  by case_bool_decide.
Qed.

(** C9, as amended.  In a world with a cell at every coordinate of the
    scan, [_find_snake_heads] returns the chain of the controlled agent
    first, and after it the chain of an opponent exactly when a head in
    another color is there: an absent opponent is omitted.  The chain of the
    controlled agent is always returned; it holds [None] exactly when no
    head in the own color is there, and on that head [_find_snake_rest]
    raises.  [GameState] and [get_moves] work for any number of chains;
    [do_move] returns on a state with one chain whose move stays inside the
    terrain, and raises on a state without chains. *)
Theorem absent_opponent_omitted world color :
  covered world →
  ∃ player_head opponent_head,
    _find_snake_heads world color =
      Ok ([player_head] ::
          match opponent_head with Some _ => [[opponent_head]] | None => [] end) ∧
    (opponent_head = None ↔ ∀ p, ¬ other_head world color p) ∧
    (∀ p, opponent_head = Some p → other_head world color p) ∧
    (player_head = None ↔ ∀ p, ¬ own_head world color p) ∧
    (∀ p, player_head = Some p → own_head world color p) ∧
    (∀ fuel is_player,
       _find_snake_rest world color (S fuel) None is_player = Raise AttributeError) ∧
    (∀ chains, get_moves (GameState_init (cells world) chains) = Ok (elements Actions)) ∧
    (∀ head rest move cell,
       getitem2 (cells world) (x head + xdir move) (y head + ydir move) = Ok cell →
       (isnumeric cell.1 = true → ∃ v, int cell.1 = Ok v) →
       ∃ s', do_move move (GameState_init (cells world) [head :: rest]) = (Ok tt, s')) ∧
    (∀ move, (do_move move (GameState_init (cells world) [])).1 = Raise IndexError).
Proof.
  intros Hcov.
  destruct (_find_snake_heads_spec world color Hcov) as (ph & oh & Hheads & Hown & Hother).
  exists ph, oh. split_and!; [done| | | | |..].
  - split; [by intros ->|].
    destruct oh as [p|]; [|done]. intros Hno. by destruct (Hno p).
  - by intros p ->.
  - split; [by intros ->|].
    destruct ph as [p|]; [|done]. intros Hno. by destruct (Hno p).
  - by intros p ->.
  - intros fuel is_player. apply _find_snake_rest_None.
  - apply get_moves_init.
  - intros head rest move cell Hcell Hint.
    eapply (do_move_returns _ move (head :: rest) head cell);
      [apply GameState_init_ok|done|done|done|by intros _].
  - intros move. by rewrite do_move_no_chain.
Qed.

End absent_agents.

Lemma absent_opponent_omitted_witness :
  @_find_snake_heads snakepit lone_world 1 = Ok [[Some (Pos 1 1)]].
Proof.
  destruct (absent_opponent_omitted (H:=snakepit) lone_world 1)
    as (ph & oh & Hheads & _).
  - intros px py [Hx Hy].
    cbn in Hx, Hy.
    assert (px = 0 ∨ px = 1 ∨ px = 2) as Hpx by lia.
    assert (py = 0 ∨ py = 1 ∨ py = 2) as Hpy by lia.
    destruct Hpx as [-> | [-> | ->]], Hpy as [-> | [-> | ->]]; by eexists.
  - vm_compute in Hheads. by destruct oh; simplify_eq.
Defined.

(** C9, counterexample.  In a world without any head the controlled agent
    is not omitted: one chain is returned, and it holds [None]; following
    that chain raises, and so does [do_move] on a state without chains. *)
Lemma own_head_absent_not_omitted :
  @_find_snake_heads snakepit empty_world 1 = Ok [[None]] ∧
  @_find_snake_rest snakepit empty_world 1 9 None true = Raise AttributeError ∧
  (do_move (H:=snakepit) (Vec 1 0) (GameState_init open_3x3 [])).1 = Raise IndexError.
Proof. by repeat split. Qed.

(** ** Node.uct_select_child *)

Section select_facts.
Context {V : Type} (ucb1 : Z → Z → Z → V) (gtb : V → V → bool).

(** The value the loop computes for the child [cn] of [self]. *)
Local Abbreviation value_of self cn :=
  (ucb1 (Node.wins cn) (Node.visits cn) (Node.visits self)).

Lemma ucb_value_Ok self cn :
  1 ≤ Node.visits self → 1 ≤ Node.visits cn →
  ucb_value ucb1 self cn = Ok (value_of self cn).
Proof.
  intros Hs Hc. unfold ucb_value.
  rewrite !bool_decide_eq_false_2 by lia. done.
Qed.

(** Without any assumption on the comparison: the loop returns, and what it
    returns is the node it started with or one of the children. *)
Lemma select_loop_returns t self cs : ∀ max_value max_node,
  1 ≤ Node.visits self → children_visited t cs →
  ∃ r, select_loop ucb1 gtb t self cs max_value max_node = Ok r ∧
       (r = max_node ∨ ∃ c, r = Some c ∧ c ∈ cs).
Proof.
  induction cs as [|c cs IH]; intros mv mn Hs Hcs; [by exists mn; auto|].
  apply Forall_cons in Hcs as [(cn & Hc & Hv) Hcs].
  cbn [select_loop]. rewrite Hc, (ucb_value_Ok _ _ Hs Hv). cbn.
  destruct (match mv with None => true | Some m => gtb _ m end).
  - destruct (IH (Some (value_of self cn)) (Some c) Hs Hcs) as (r & -> & Hr).
    exists r. split; [done|]. right.
    destruct Hr as [->|(c' & -> & Hc')]; eexists; (split; [done|]);
      [left|by right].
  - destruct (IH mv mn Hs Hcs) as (r & -> & Hr).
    exists r. split; [done|].
    destruct Hr as [->|(c' & -> & Hc')]; [by left|right].
    eexists; split; [done|by right].
Qed.

Lemma uct_select_child_returns t self :
  1 ≤ Node.visits self → Node.childNodes self ≠ [] →
  children_visited t (Node.childNodes self) →
  ∃ c, uct_select_child ucb1 gtb t self = Ok (Some c) ∧ c ∈ Node.childNodes self.
Proof.
  intros Hs Hne Hcs. unfold uct_select_child.
  destruct (Node.childNodes self) as [|c cs]; [done|].
  pose proof Hcs as Hcs'. apply Forall_cons in Hcs' as [(cn & Hc & Hv) Hcs'].
  cbn [select_loop]. rewrite Hc, (ucb_value_Ok _ _ Hs Hv). cbn.
  destruct (select_loop_returns t self cs (Some (value_of self cn)) (Some c) Hs Hcs')
    as (r & -> & Hr).
  destruct Hr as [->|(c' & -> & Hc')]; eexists; (split; [done|]);
    [left|by right].
Qed.

Section ordered.
(** The comparison is a strict weak order on the values that are [good]:
    Python's [>] is one on the floats that are not NaN. *)
Variable good : V → Prop.
Hypothesis gtb_irrefl : ∀ a, good a → gtb a a = false.
Hypothesis gtb_trans :
  ∀ a b c, good a → good b → good c →
    gtb a b = true → gtb b c = true → gtb a c = true.
Hypothesis gtb_negtrans :
  ∀ a b c, good a → good b → good c →
    gtb a b = false → gtb b c = false → gtb a c = false.

Lemma select_loop_best t self cs : ∀ seen max_value max_node,
  1 ≤ Node.visits self → children_visited t cs →
  (∀ c cn, c ∈ seen ++ cs → t !! c = Some cn → good (value_of self cn)) →
  best_of ucb1 gtb t self seen max_value max_node →
  ∃ mv r, select_loop ucb1 gtb t self cs max_value max_node = Ok r ∧
          best_of ucb1 gtb t self (seen ++ cs) mv r.
Proof.
  induction cs as [|c cs IH]; intros seen mv mn Hs Hcs Hgood Hbest.
  { exists mv, mn. by rewrite app_nil_r. }
  apply Forall_cons in Hcs as [(cn & Hc & Hv) Hcs].
  cbn [select_loop]. rewrite Hc, (ucb_value_Ok _ _ Hs Hv). cbn.
  replace (seen ++ c :: cs) with ((seen ++ [c]) ++ cs) in *
    by by rewrite <-app_assoc.
  assert (good (value_of self cn)) as Hgc.
  { apply (Hgood c); [|done]. rewrite !elem_of_app, list_elem_of_singleton. auto. }
  assert (∀ j c' cn', seen !! j = Some c' → t !! c' = Some cn' →
            good (value_of self cn')) as Hgs.
  { intros j c' cn' Hj Hc'. apply (Hgood c'); [|done].
    rewrite !elem_of_app. left. left. by eapply list_elem_of_lookup_2. }
  assert (∀ j c' cn', (seen ++ [c]) !! j = Some c' → t !! c' = Some cn' →
            (j < length seen)%nat ∧ seen !! j = Some c' ∨
            j = length seen ∧ cn' = cn) as Hsnoc.
  { intros j c' cn' [[? ?]|[-> <-]]%lookup_snoc_Some Hc'; [by left|].
    right. split; [done|]. congruence. }
  destruct mn as [m|]; cbn in Hbest.
  - destruct Hbest as (i & mnode & Hi & Hm & -> & Hmax & Hfirst).
    pose proof (Hgs i m mnode Hi Hm) as Hgm.
    destruct (gtb (value_of self cn) (value_of self mnode)) eqn:Egt.
    + apply IH; [done..|]. exists (length seen), cn.
      split; [by apply list_lookup_middle|]. split; [done|]. split; [done|]. split.
      * intros j c' cn' Hj Hc'. destruct (Hsnoc j c' cn' Hj Hc') as [[_ Hj']|[_ ->]];
          [|by apply gtb_irrefl].
        destruct (gtb (value_of self cn') (value_of self cn)) eqn:E; [|done].
        rewrite <-(Hmax j c' cn' Hj' Hc'). symmetry.
        eapply (gtb_trans _ (value_of self cn)); eauto.
      * intros j c' cn' Hlt Hj Hc'.
        destruct (Hsnoc j c' cn' Hj Hc') as [[_ Hj']|[? _]]; [|lia].
        destruct (gtb (value_of self cn) (value_of self cn')) eqn:E; [done|].
        rewrite <-Egt. symmetry.
        eapply (gtb_negtrans _ (value_of self cn')); eauto.
    + apply IH; [done..|]. exists i, mnode.
      split; [by apply lookup_app_l_Some|]. split; [done|]. split; [done|]. split.
      * intros j c' cn' Hj Hc'.
        destruct (Hsnoc j c' cn' Hj Hc') as [[_ Hj']|[_ ->]]; [by eapply Hmax|done].
      * intros j c' cn' Hlt Hj Hc'.
        destruct (Hsnoc j c' cn' Hj Hc') as [[_ Hj']|[-> _]]; [by eapply Hfirst|].
        apply lookup_lt_Some in Hi. lia.
  - destruct Hbest as [-> ->]. apply IH; [done..|]. exists 0%nat, cn.
    split; [done|]. split; [done|]. split; [done|]. split.
    + intros j c' cn' Hj Hc'. destruct (Hsnoc j c' cn' Hj Hc') as [[? _]|[_ ->]];
        [cbn in *; lia|by apply gtb_irrefl].
    + intros j c' cn' Hlt. lia.
Qed.

(** On a node with at least one visit, a non-empty list of children and at
    least one visit of every child, [uct_select_child] returns a child
    whose value no child exceeds and which exceeds every child before it in
    the list, whatever the value function, when the comparison is a strict
    weak order on the values of the children. *)
Lemma uct_select_child_best t self :
  1 ≤ Node.visits self →
  Node.childNodes self ≠ [] →
  children_visited t (Node.childNodes self) →
  (∀ c cn, c ∈ Node.childNodes self → t !! c = Some cn →
     good (value_of self cn)) →
  ∃ i c cn,
    uct_select_child ucb1 gtb t self = Ok (Some c) ∧
    Node.childNodes self !! i = Some c ∧ t !! c = Some cn ∧
    (∀ j c' cn', Node.childNodes self !! j = Some c' → t !! c' = Some cn' →
       gtb (value_of self cn') (value_of self cn) = false) ∧
    (∀ j c' cn', (j < i)%nat → Node.childNodes self !! j = Some c' →
       t !! c' = Some cn' →
       gtb (value_of self cn) (value_of self cn') = true).
Proof.
  intros Hs Hne Hcs Hgood.
  destruct (select_loop_best t self (Node.childNodes self) [] None None Hs Hcs)
    as (mv & r & Hsel & Hbest); [done|done|].
  unfold uct_select_child. rewrite Hsel. cbn in Hbest.
  destruct r as [c|]; [|by destruct Hbest].
  destruct Hbest as (i & cn & Hi & Hc & _ & Hmax & Hfirst).
  by exists i, c, cn.
Qed.

End ordered.
End select_facts.

(** ** Python's [>] on floats *)

Lemma float_lt_key a b :
  is_nan a = false → is_nan b = false →
  SpecFloat.SFltb a b = true ↔ key_lt (float_key a) (float_key b).
Proof.
  unfold SpecFloat.SFltb, key_lt.
  destruct a as [sa|sa| |sa ma ea], b as [sb|sb| |sb mb eb]; try done;
    intros _ _; cbn.
  all: try (destruct sa); try (destruct sb); cbn; try (split; [done|lia]);
    try (split; [lia|done]); try (split; [intros _; lia|done]).
  - change (Pos.compare_cont Eq ma mb) with (Pos.compare ma mb).
    destruct (Z.compare_spec ea eb), (Pos.compare_spec ma mb); cbn;
      split; first [done|lia|intros _; lia].
  - change (Pos.compare_cont Eq ma mb) with (Pos.compare ma mb).
    destruct (Z.compare_spec ea eb), (Pos.compare_spec ma mb); cbn;
      split; first [done|lia|intros _; lia].
Qed.

Lemma key_lt_irrefl p : ¬ key_lt p p.
Proof. unfold key_lt. lia. Qed.

Lemma key_lt_trans p q r : key_lt p q → key_lt q r → key_lt p r.
Proof. unfold key_lt. lia. Qed.

Lemma key_lt_negtrans p q r : ¬ key_lt p q → ¬ key_lt q r → ¬ key_lt p r.
Proof. unfold key_lt. lia. Qed.

(** Python's [>] is a strict weak order on the floats other than NaN. *)
Lemma float_gt_irrefl a : is_nan a = false → float_gt a a = false.
Proof.
  intros Ha. apply not_true_is_false. unfold float_gt.
  rewrite float_lt_key by done. apply key_lt_irrefl.
Qed.

Lemma float_gt_trans a b c :
  is_nan a = false → is_nan b = false → is_nan c = false →
  float_gt a b = true → float_gt b c = true → float_gt a c = true.
Proof.
  unfold float_gt. intros Ha Hb Hc. rewrite !float_lt_key by done.
  intros H1 H2. by eapply key_lt_trans.
Qed.

Lemma float_gt_negtrans a b c :
  is_nan a = false → is_nan b = false → is_nan c = false →
  float_gt a b = false → float_gt b c = false → float_gt a c = false.
Proof.
  unfold float_gt. intros Ha Hb Hc H1 H2. apply not_true_is_false.
  apply not_true_iff_false in H1, H2.
  rewrite float_lt_key in H1, H2 |- * by done.
  intros H3. by apply (key_lt_negtrans _ _ _ H2 H1).
Qed.

(** What is above [float('-inf')] is not NaN. *)
Lemma float_gt_neg_infinity a : float_gt a neg_infinity = true → is_nan a = false.
Proof. by destruct a. Qed.

(** ** Node.uct_select_child on floats *)

Section float_select.
(** [math.log] on ints. *)
Variable math_log : Z → float.

(** C4, as amended.  Take a node with at least one visit and a non-empty
    list of children, each with at least one visit and with counters of at
    most 53 bits.  The value of a child is the float
    [c.wins/c.visits + sqrt(2*log(self.visits)/c.visits)]
    as IEEE 754 arithmetic computes it from [math.log(self.visits)]; let
    the value of every child be above [float('-inf')], the initial
    maximum, which a NaN is not.  Then [uct_select_child] returns a child
    whose value no child exceeds and which exceeds every child before it
    in the list: the first child of maximal value. *)
Theorem uct_select_child_first_max t self :
  1 ≤ Node.visits self →
  Node.childNodes self ≠ [] →
  Forall (λ c, ∃ cn, t !! c = Some cn ∧
            1 ≤ Node.visits cn ≤ 2 ^ 53 ∧
            - 2 ^ 53 ≤ Node.wins cn ≤ 2 ^ 53 ∧
            float_gt
              (ucb1_float math_log (Node.wins cn) (Node.visits cn)
                 (Node.visits self))
              neg_infinity = true)
    (Node.childNodes self) →
  ∃ i c cn,
    uct_select_child (ucb1_float math_log) float_gt t self = Ok (Some c) ∧
    Node.childNodes self !! i = Some c ∧ t !! c = Some cn ∧
    (∀ j c' cn', Node.childNodes self !! j = Some c' → t !! c' = Some cn' →
       float_gt
         (ucb1_float math_log (Node.wins cn') (Node.visits cn') (Node.visits self))
         (ucb1_float math_log (Node.wins cn) (Node.visits cn) (Node.visits self))
       = false) ∧
    (∀ j c' cn', (j < i)%nat → Node.childNodes self !! j = Some c' →
       t !! c' = Some cn' →
       float_gt
         (ucb1_float math_log (Node.wins cn) (Node.visits cn) (Node.visits self))
         (ucb1_float math_log (Node.wins cn') (Node.visits cn') (Node.visits self))
       = true).
Proof.
  intros Hs Hne Hcs.
  apply (uct_select_child_best (ucb1_float math_log) float_gt
           (λ a, float_gt a neg_infinity = true)); [| | |done|done| |].
  - intros a Ha. by apply float_gt_irrefl, float_gt_neg_infinity.
  - intros a b c Ha Hb Hc. by apply float_gt_trans; apply float_gt_neg_infinity.
  - intros a b c Ha Hb Hc. by apply float_gt_negtrans; apply float_gt_neg_infinity.
  - eapply Forall_impl; [exact Hcs|]. cbn.
    intros c (cn & Hc & Hv & _). exists cn. split; [done|lia].
  - intros c cn Hin Hc.
    destruct (proj1 (Forall_forall _ _) Hcs c Hin) as (cn' & Hc' & _ & _ & Hgt).
    by simplify_eq.
Qed.

End float_select.

(** ** uct_select_child: worked inputs *)

Lemma uct_select_child_first_max_witness :
  ∃ i, uct_select_child (ucb1_float log_upto_8) float_gt small_tree
         (Node.mk None None [1; 2]%nat 9 8 [] 1) = Ok (Some 2%nat) ∧
       [1; 2]%nat !! i = Some 2%nat.
Proof.
  destruct (uct_select_child_first_max log_upto_8
              small_tree (Node.mk None None [1; 2]%nat 9 8 [] 1))
    as (i & c & cn & Hsel & Hi & _).
  - done.
  - done.
  - repeat constructor; eexists; (split; [reflexivity|]);
      (split; [cbn; lia|]); (split; [cbn; lia|]); reflexivity.
  - exists i. vm_compute in Hsel. by simplify_eq.
Defined.

(** The two values behind the choice in [small_tree], about 2.039 and
    2.057: the second child wins although the first has fewer visits. *)
Lemma small_tree_values :
  ucb1_float log_upto_8 0 1 8 = SpecFloat.S754_finite false 4592171876966243 (-51) ∧
  ucb1_float log_upto_8 9 7 8 = SpecFloat.S754_finite false 4630849012469230 (-51).
Proof. split; vm_compute; reflexivity. Qed.

(** Two children of equal value: the first is returned. *)
Lemma uct_select_child_tie :
  uct_select_child (ucb1_float log_upto_8) float_gt tie_tree
    (Node.mk None None [1; 2]%nat 2 4 [] 1) = Ok (Some 1%nat).
Proof. vm_compute. reflexivity. Qed.

(** C4, counterexample.  A root no round has visited, with a child that
    has one visit: [log(self.visits)] raises. *)
Lemma uct_select_child_unvisited_parent :
  children_visited unvisited_root_tree [1%nat] ∧
  uct_select_child (ucb1_float log_upto_8) float_gt unvisited_root_tree
    (Node.mk None None [1%nat] 0 0 [] 1) = Raise (ValueError MathDomain).
Proof.
  split; [|reflexivity].
  repeat constructor. eexists. split; [reflexivity|done].
Qed.

(** ** UCT *)

Lemma int_outcome s : (∃ v, int s = Ok v) ∨ int s = Raise (ValueError InvalidLiteral).
Proof. unfold int. destruct s; [by right|]. case_match; eauto. Qed.

Section uct_facts.
Context `{RobotSnake} {V : Type} (ucb1 : Z → Z → Z → V) (gtb : V → V → bool).
Variable rand : nat → nat.

Lemma getitem_Raise {A} (l : list A) i e : getitem l i = Raise e → e = IndexError.
Proof. destruct (getitem_outcome l i) as [[a ->]| ->]; congruence. Qed.

Lemma setitem_Raise {A} (l : list A) i v e : setitem l i v = Raise e → e = IndexError.
Proof.
  destruct (setitem_outcome l i v) as [(k & _ & ->)|[_ ->]]; congruence.
Qed.

Lemma do_move_exn move s e : (do_move move s).1 = Raise e → game_exn e.
Proof.
  rewrite do_move_unfold. cbv zeta.
  destruct (setitem (last_action s) _ _) eqn:E1; cbn;
    [|intros [= <-]; left; by eapply setitem_Raise|done].
  destruct (move_lookups move s) as [[[player new_head] cell]| |] eqn:E2; cbn;
    [| |done].
  2:{ intros [= <-]. left. unfold move_lookups, getitem2, mbind, res_bind in E2.
      repeat (case_match; try done);
        match goal with E : getitem _ _ = Raise _ |- _ =>
          apply getitem_Raise in E end; congruence. }
  destruct (move_scores s new_head cell.1) eqn:E3; cbn; [| |done].
  2:{ intros [= <-]. unfold move_scores, mbind, res_bind in E3.
      destruct (int_outcome cell.1) as [[v Hv]|Hv]; rewrite Hv in E3;
      repeat (case_match; try done); simplify_eq;
        first [by right | left;
          match goal with
          | E : getitem _ _ = Raise _ |- _ => by apply getitem_Raise in E
          | E : setitem _ _ _ = Raise _ |- _ => by apply setitem_Raise in E
          end]. }
  destruct (setitem (players s) _ _) eqn:E4; cbn; [done| |done].
  intros [= <-]. left. by eapply setitem_Raise.
Qed.

Lemma get_moves_outcome s :
  (∃ l, get_moves s = Ok l) ∨ get_moves s = Raise IndexError.
Proof.
  unfold get_moves.
  destruct (getitem_outcome (last_action s) (player_to_move s)) as [[a ->]| ->];
    [left|by right].
  destruct a; cbn; eauto.
Qed.

(** *** Steps of the search *)

Lemma outcome_bind {A B} (m : St Search A) (f : A → St Search B) s
    (Q1 : A → Search → Prop) (Q2 : B → Search → Prop) :
  outcome (m s) Q1 →
  (∀ a s', Q1 a s' → outcome (f a s') Q2) →
  outcome ((m ≫= f) s) Q2.
Proof.
  intros Hm Hf. unfold mbind, St_bind.
  destruct (m s) as [[a| |] s']; cbn in Hm; [by apply Hf|done..].
Qed.

Lemma outcome_weaken {A} (r : res A * Search) (Q1 Q2 : A → Search → Prop) :
  outcome r Q1 → (∀ a s', Q1 a s' → Q2 a s') → outcome r Q2.
Proof. unfold outcome. destruct r as [[a| |] s']; auto. Qed.

Lemma outcome_node_at i s n :
  tree s !! i = Some n → outcome (node_at i s) (λ a s', a = n ∧ s' = s).
Proof. unfold node_at. by intros ->. Qed.

Lemma outcome_do_move move s :
  outcome (on_state (do_move move) s)
    (λ _ s', tree s' = tree s ∧ draws s' = draws s).
Proof.
  unfold on_state, outcome.
  pose proof (do_move_exn move (state s)) as Hexn.
  pose proof (do_move_not_Stuck move (state s)) as Hstuck.
  destruct (do_move move (state s)) as [[a| |] g]; cbn in *; auto.
Qed.

Lemma outcome_choice {A} (seq : list A) s :
  outcome (choice rand seq s) (λ a s', a ∈ seq ∧ tree s' = tree s).
Proof.
  unfold choice, outcome. destruct seq as [|a seq]; [by left|].
  split; [|done]. apply list_elem_of_In, nth_In.
  apply Nat.mod_upper_bound. done.
Qed.

Lemma outcome_ret {A} (a : A) s (Q : A → Search → Prop) :
  Q a s → outcome ((mret a : St Search A) s) Q.
Proof. done. Qed.

Lemma outcome_get s : outcome (get_st s) (λ a s', a = s ∧ s' = s).
Proof. done. Qed.

Lemma outcome_modify f s : outcome (modify_st f s) (λ _ s', s' = f s).
Proof. done. Qed.

Lemma outcome_lift {A} (r : res A) s :
  (∀ e, r = Raise e → game_exn e) → r ≠ Stuck →
  outcome (lift_res r s) (λ a s', r = Ok a ∧ s' = s).
Proof. destruct r; cbn; auto. Qed.

Lemma outcome_lift_Ok {A} (r : res A) a s :
  r = Ok a → outcome (lift_res r s) (λ a' s', a' = a ∧ s' = s).
Proof. by intros ->. Qed.

(** *** The arena *)

Lemma tree_ok_child t i n c :
  tree_ok None t → t !! i = Some n → c ∈ Node.childNodes n →
  ∃ cn, t !! c = Some cn ∧ (i < c)%nat ∧ 1 ≤ Node.visits cn ∧
        Node.visits cn ≤ Node.visits n ∧ is_Some (Node.move cn) ∧
        Node.parentNode cn = Some i.
Proof.
  intros ((root & Hroot & Hnone & _) & Hnodes & Hchildren) Hi Hc.
  destruct (Hchildren i n c Hi Hc) as (cn & Hcn & Hparent).
  assert (c ≠ 0%nat) as Hc0 by (intros ->; congruence).
  destruct (Hnodes c cn Hcn Hc0) as (p & pn & Hp & Hlt & Hpn & Hle & _ & Hv & Hm).
  assert (p = i) as -> by congruence. assert (pn = n) as -> by congruence.
  exists cn. repeat split; auto.
Qed.

Lemma tree_ok_children t i n :
  tree_ok None t → t !! i = Some n →
  children_visited t (Node.childNodes n) ∧
  (Node.childNodes n ≠ [] → 1 ≤ Node.visits n).
Proof.
  intros Hok Hi. split.
  - apply Forall_forall. intros c Hc.
    destruct (tree_ok_child t i n c Hok Hi Hc) as (cn & ? & _ & ? & _).
    by exists cn.
  - destruct (Node.childNodes n) as [|c cs] eqn:E; [done|]. intros _.
    destruct (tree_ok_child t i n c Hok Hi) as (cn & ? & _ & ? & ? & _);
      [rewrite E; left|lia].
Qed.

(** The selection loop returns a node of the arena and leaves the arena as
    it is; it returns the node it starts at unless that node has no untried
    move and has children. *)
Lemma select_phase_spec fuel : ∀ node s,
  tree_ok None (tree s) → (node < length (tree s))%nat →
  (length (tree s) - node ≤ fuel)%nat →
  outcome (select_phase ucb1 gtb fuel node s)
    (λ node' s', tree s' = tree s ∧ (node' < length (tree s))%nat ∧
       (node' = node ∨
        ∃ n, tree s !! node = Some n ∧ Node.untriedMoves n = [] ∧
             Node.childNodes n ≠ [])).
Proof.
  induction fuel as [|fuel IH]; intros node s Hok Hnode Hfuel; [lia|].
  destruct (lookup_lt_is_Some_2 _ _ Hnode) as [n Hn].
  cbn [select_phase].
  eapply outcome_bind; [by apply outcome_node_at|]. intros ? ? [-> ->].
  destruct (bool_decide (Node.untriedMoves n = []) &&
            bool_decide (Node.childNodes n ≠ [])) eqn:Econd;
    [|apply outcome_ret; auto].
  apply andb_prop in Econd as [Hu%bool_decide_eq_true_1 Hc%bool_decide_eq_true_1].
  destruct (tree_ok_children _ _ _ Hok Hn) as [Hcs Hv].
  destruct (uct_select_child_returns ucb1 gtb (tree s) n (Hv Hc) Hc Hcs)
    as (c & Hsel & Hcin).
  destruct (tree_ok_child _ _ _ c Hok Hn Hcin) as (cn & Hcn & Hlt & _ & _ & [m Hm] & _).
  eapply outcome_bind; [apply outcome_get|]. intros ? ? [-> ->].
  eapply outcome_bind; [by apply outcome_lift_Ok|].
  cbn beta. intros ? ? [-> ->].
  eapply outcome_bind; [by apply outcome_lift_Ok|]. cbn beta. intros ? ? [-> ->].
  eapply outcome_bind; [by apply outcome_node_at|]. intros ? ? [-> ->].
  eapply outcome_bind; [apply outcome_lift_Ok; by rewrite Hm|].
  cbn beta. intros ? ? [-> ->].
  eapply outcome_bind; [apply outcome_do_move|]. intros _ s1 [Ht1 _].
  pose proof (lookup_lt_Some _ _ _ Hcn) as Hclt.
  eapply outcome_weaken.
  - apply IH; rewrite Ht1; [exact Hok|exact Hclt|lia].
  - cbn beta. intros node' s' (Ht' & Hlt' & _). rewrite Ht1 in Ht', Hlt'.
    split; [done|]. split; [done|]. right. by exists n.
Qed.

End uct_facts.

Section uct_steps.
Context `{RobotSnake} {V : Type} (ucb1 : Z → Z → Z → V) (gtb : V → V → bool).
Variable rand : nat → nat.

Lemma list_remove_Ok m l : m ∈ l → ∃ um, list_remove m l = Ok um.
Proof.
  induction l as [|a l IH]; [by intros ?%elem_of_nil|].
  intros Hm. cbn. case_decide as Ea; [eauto|].
  apply elem_of_cons in Hm as [->|Hm]; [done|].
  destruct (IH Hm) as [um ->]. cbn. eauto.
Qed.

(** The expansion step. *)
Lemma expand_spec node s n :
  tree s !! node = Some n →
  outcome (expand rand node s) (λ node' s', expanded (tree s) node (tree s') node').
Proof.
  intros Hn. unfold expand.
  eapply outcome_bind; [by apply outcome_node_at|]. intros ? ? [-> ->].
  destruct (Node.untriedMoves n) as [|m0 ms] eqn:Eu.
  { apply outcome_ret. left. split; [done|]. split; [done|]. by exists n. }
  rewrite <-Eu.
  eapply outcome_bind; [apply outcome_choice|]. intros m s1 [Hm Ht1].
  eapply outcome_bind; [apply outcome_do_move|]. intros _ s2 [Ht2 _].
  rewrite Ht1 in Ht2. clear dependent s1.
  unfold add_child.
  eapply outcome_bind; [apply outcome_get|]. intros ? ? [-> ->].
  eapply outcome_bind.
  { apply outcome_lift.
    - unfold Node_init. intros e.
      destruct (get_moves_outcome (state s2)) as [[l ->]| ->]; [done|].
      intros [= <-]. by left.
    - unfold Node_init.
      by destruct (get_moves_outcome (state s2)) as [[l ->]| ->]. }
  cbn beta. intros new ? [Hnew ->].
  eapply outcome_bind; [apply outcome_modify|]. intros _ ? ->.
  eapply outcome_bind.
  { apply outcome_node_at. cbn. rewrite Ht2. by apply lookup_app_l_Some. }
  intros ? ? [-> ->].
  destruct (list_remove_Ok m (Node.untriedMoves n) Hm) as [um Hum].
  eapply outcome_bind; [by apply outcome_lift_Ok|]. cbn beta. intros ? ? [-> ->].
  eapply outcome_bind; [apply outcome_modify|]. intros _ ? ->.
  apply outcome_ret. cbn. rewrite Ht2. right.
  exists n, m, um, new. repeat split; try done.
  all: unfold Node_init in Hnew;
    destruct (get_moves (state s2)); cbn in Hnew; by simplify_eq.
Qed.

(** One round of the rollout loop leaves the arena as it is. *)
Lemma rollout_body_spec s :
  let r := (g ← get_st;
            moves ← lift_res (get_moves (state g));
            m ← choice rand moves;
            on_state (do_move m)) s in
  tree r.2 = tree s ∧
  match r.1 with Ok _ => True | Raise e => game_exn e | Stuck => False end.
Proof.
  unfold mbind, St_bind, get_st, lift_res. cbn beta iota.
  destruct (get_moves_outcome (state s)) as [[l ->]| ->]; [|by split; [|left]].
  destruct l as [|a l]; [by split; [|left]|].
  unfold choice, on_state. cbn [state tree].
  match goal with |- context [do_move ?m ?g] =>
    pose proof (do_move_exn m g) as Hexn;
    pose proof (do_move_not_Stuck m g) as Hstuck;
    destruct (do_move m g) as [[u| |] g']
  end; cbn in *; auto.
Qed.

Lemma rollout_spec maxdepth : ∀ s,
  outcome (rollout rand maxdepth s) (λ _ s', tree s' = tree s).
Proof.
  induction maxdepth as [|j IH]; intros s; [done|].
  cbn [rollout]. pose proof (rollout_body_spec s) as [Ht Hr]. cbv zeta in *.
  destruct ((get_st ≫= _) s) as [[a|e|] s1]; cbn in *; [| |done].
  - eapply outcome_weaken; [apply IH|]. cbn. intros _ s' ->. done.
  - destruct e; try done; destruct Hr as [|]; done.
Qed.

(** *** Ancestors *)

Lemma ancestor_le t a b : parents_below t → ancestor t a b → (b ≤ a)%nat.
Proof.
  intros Hp. induction 1 as [|i n p j Hi Hn _ IH]; [done|].
  specialize (Hp i n p Hi Hn). lia.
Qed.

Lemma ancestor_trans t a b c : ancestor t a b → ancestor t b c → ancestor t a c.
Proof.
  induction 1 as [|i n p j Hi Hn _ IH]; [done|].
  intros Hc. eapply ancestor_parent; eauto.
Qed.

Lemma ancestor_up t a i n p :
  ancestor t a i → t !! i = Some n → Node.parentNode n = Some p → ancestor t a p.
Proof.
  intros Ha Hi Hn. eapply ancestor_trans; [done|].
  eapply ancestor_parent; [done..|constructor].
Qed.

Lemma ancestor_same_parents t t' a b :
  (∀ i, Node.parentNode <$> t' !! i = Node.parentNode <$> t !! i) →
  ancestor t a b → ancestor t' a b.
Proof.
  intros Hsame. induction 1 as [|i n p j Hi Hn _ IH]; [constructor|].
  specialize (Hsame i). rewrite Hi in Hsame. cbn in Hsame.
  destruct (t' !! i) as [n'|] eqn:Hi'; [|done]. cbn in Hsame.
  eapply ancestor_parent; [done| |done]. congruence.
Qed.

Lemma tree_ok_parents_below fresh t : tree_ok fresh t → parents_below t.
Proof.
  intros ((root & Hroot & Hnone & _) & Hnodes & _) i n p Hi Hp.
  destruct (decide (i = 0%nat)) as [->|Hne]; [congruence|].
  destruct (Hnodes i n Hi Hne) as (p' & _ & Hp' & Hlt & _). congruence.
Qed.

Lemma ancestor_root fresh t i :
  tree_ok fresh t → (i < length t)%nat → ancestor t i 0.
Proof.
  intros Hok. induction (lt_wf i) as [i _ IH]. intros Hi.
  destruct (decide (i = 0%nat)) as [->|Hne]; [constructor|].
  destruct (lookup_lt_is_Some_2 _ _ Hi) as [n Hn].
  destruct Hok as (Hroot & Hnodes & Hch).
  destruct (Hnodes i n Hn Hne) as (p & pn & Hp & Hlt & Hpn & _).
  eapply ancestor_parent; [done..|]. apply IH; [done|].
  by eapply lookup_lt_Some.
Qed.

(** *** Back-propagation *)

Lemma shape_update n r : shape (update n r) = shape n.
Proof. done. Qed.

Lemma backpropagate_None fuel s : backpropagate fuel None s = (Ok tt, s).
Proof. by destruct fuel. Qed.

Lemma backpropagate_spec fuel : ∀ node s,
  parents_below (tree s) → (node < length (tree s))%nat → (node < fuel)%nat →
  outcome (backpropagate fuel (Some node) s)
    (λ _ s', bumped (tree s) node (tree s')).
Proof.
  induction fuel as [|fuel IH]; intros node s Hpb Hnode Hfuel; [lia|].
  destruct (lookup_lt_is_Some_2 _ _ Hnode) as [n Hn].
  cbn [backpropagate].
  eapply outcome_bind; [by apply outcome_node_at|]. intros ? ? [-> ->].
  eapply outcome_bind; [apply outcome_get|]. intros ? ? [-> ->].
  eapply outcome_bind.
  { apply outcome_lift; unfold get_result.
    - intros e He. left. by eapply getitem_Raise.
    - apply getitem_not_Stuck. }
  cbn beta. intros r ? [_ ->].
  eapply outcome_bind; [apply outcome_modify|]. intros _ ? ->.
  set (t1 := <[node := update n r]> (tree s)).
  assert (∀ i, Node.parentNode <$> t1 !! i = Node.parentNode <$> tree s !! i)
    as Hsame.
  { intros i. unfold t1. destruct (decide (i = node)) as [->|Hne].
    - by rewrite list_lookup_insert_eq, Hn by done.
    - by rewrite list_lookup_insert_ne. }
  assert (∀ i, Node.parentNode <$> tree s !! i = Node.parentNode <$> t1 !! i)
    as Hsame' by done.
  destruct (Node.parentNode n) as [p|] eqn:Hp.
  - pose proof (Hpb node n p Hn Hp) as Hlt.
    assert (parents_below t1) as Hpb1.
    { intros i ni pi Hi Hpi. specialize (Hsame i). rewrite Hi in Hsame.
      cbn in Hsame. destruct (tree s !! i) as [ni0|] eqn:Hi0; [|done].
      apply (Hpb i ni0 pi Hi0). cbn in Hsame. congruence. }
    eapply outcome_weaken.
    { apply IH; cbn [tree set_tree]; fold t1;
        [done|unfold t1; rewrite length_insert; lia|lia]. }
    cbn [tree set_tree]. fold t1. intros _ s' [Hlen Hb]. split.
    { rewrite Hlen. apply length_insert. }
    intros i ni Hi.
    destruct (decide (i = node)) as [->|Hne].
    + assert (ni = n) as -> by congruence.
      destruct (Hb node (update n r)) as (n' & Hn' & Hshape & Hv).
      { unfold t1. by apply list_lookup_insert_eq. }
      exists n'. split; [done|]. split; [done|]. left. split; [constructor|].
      destruct Hv as [[Hanc _]|(_ & -> & _)]; [|done].
      apply ancestor_le in Hanc; [lia|done].
    + destruct (Hb i ni) as (n' & Hn' & Hshape & Hv).
      { unfold t1. by rewrite list_lookup_insert_ne. }
      exists n'. split; [done|]. split; [done|].
      destruct Hv as [[Hanc Hv]|(Hanc & Hv & Hw)].
      * left. split; [|done]. eapply ancestor_parent; [done..|].
        by eapply ancestor_same_parents.
      * right. split; [|done]. intros Ha. apply Hanc.
        inversion Ha as [|? n0 p0 ? Hn0 Hp0 Ha0]; subst; [done|].
        assert (p0 = p) as -> by congruence.
        by eapply ancestor_same_parents.
  - rewrite backpropagate_None. cbn [outcome tree set_tree]. fold t1. split.
    { apply length_insert. }
    intros i ni Hi. destruct (decide (i = node)) as [->|Hne].
    + assert (ni = n) as -> by congruence.
      exists (update n r). split; [by apply list_lookup_insert_eq|].
      split; [done|]. left. split; [constructor|done].
    + exists ni. split; [by unfold t1; rewrite list_lookup_insert_ne|].
      split; [done|]. right. split; [|done].
      intros Ha. inversion Ha; subst; [done|congruence].
Qed.

(** *** The arena after the expansion and after the back-propagation *)

Lemma lookup_insert_snoc (t : list Node) node n' new i x :
  (node < length t)%nat →
  <[node := n']> (t ++ [new]) !! i = Some x ↔
  (i = node ∧ x = n') ∨
  (i ≠ node ∧ t !! i = Some x) ∨
  (i = length t ∧ x = new).
Proof.
  intros Hnode. destruct (decide (i = node)) as [->|Hne].
  - rewrite list_lookup_insert_eq by (rewrite length_app; cbn; lia).
    split; [intros [= <-]; auto|]. intros [[_ ->]|[[? _]|[? _]]]; [done|done|lia].
  - rewrite list_lookup_insert_ne by done. rewrite lookup_snoc_Some.
    split.
    + intros [[_ ?]|[-> <-]]; auto.
    + intros [[? _]|[[_ ?]|[-> ->]]]; [done| |by right].
      left. split; [by eapply lookup_lt_Some|done].
Qed.

Lemma expanded_tree_ok t node t' node' :
  tree_ok None t → expanded t node t' node' →
  ∃ fresh, (fresh = None ∨ fresh = Some node') ∧ tree_ok fresh t' ∧
           (node' < length t')%nat.
Proof.
  intros Hok [(-> & -> & n & Hn & _)|(n & m & um & new & Hn & Hm & -> & -> & Hmove & Hparent & Hch & Hv)].
  { exists None. split; [by left|]. split; [done|]. by eapply lookup_lt_Some. }
  pose proof (lookup_lt_Some _ _ _ Hn) as Hnode.
  set (n' := Node.mk _ _ _ _ _ _ _).
  exists (Some (length t)). split; [by right|]. split;
    [|rewrite length_insert, length_app; cbn; lia].
  pose proof Hok as ((root & Hroot & Hnone & Hroot0) & Hnodes & Hchildren).
  assert (0 ≤ Node.visits n) as Hn0.
  { destruct (decide (node = 0%nat)) as [->|Hne]; [by simplify_eq|].
    by destruct (Hnodes node n Hn Hne) as (? & ? & _ & _ & _ & _ & ? & _). }
  assert (∀ i x, t !! i = Some x →
            ∃ x', <[node := n']> (t ++ [new]) !! i = Some x' ∧
                  Node.parentNode x' = Node.parentNode x ∧
                  Node.visits x' = Node.visits x) as Hkeep.
  { intros i x Hi. destruct (decide (i = node)) as [->|Hne].
    - exists n'. split; [apply lookup_insert_snoc; auto|]. by simplify_eq.
    - exists x. split; [apply lookup_insert_snoc; auto|done]. }
  split; [|split].
  - destruct (Hkeep 0%nat root Hroot) as (root' & Hr' & Hp' & Hv').
    exists root'. split; [done|]. split; congruence.
  - intros i x Hi Hi0. apply lookup_insert_snoc in Hi; [|done].
    destruct Hi as [[-> ->]|[[Hne Hi]|[-> ->]]].
    + destruct (Hnodes node n Hn Hi0) as (p & pn & Hp & Hlt & Hpn & Hle & H0 & H1 & Hmv).
      destruct (Hkeep p pn Hpn) as (pn' & Hpn' & _ & Hvp).
      exists p, pn'. split; [done|]. split; [done|]. split; [done|].
      split; [cbn; lia|]. split; [done|]. split; [|done].
      intros _. by apply H1.
    + destruct (Hnodes i x Hi Hi0) as (p & pn & Hp & Hlt & Hpn & Hle & H0 & H1 & Hmv).
      destruct (Hkeep p pn Hpn) as (pn' & Hpn' & _ & Hvp).
      exists p, pn'. split; [done|]. split; [done|]. split; [done|].
      split; [lia|]. split; [done|]. split; [|done].
      intros _. by apply H1.
    + exists node, n'. split; [done|]. split; [done|].
      split; [apply lookup_insert_snoc; auto|]. split; [cbn; lia|].
      split; [lia|]. split; [done|]. by rewrite Hmove.
  - intros i x c Hi Hc. apply lookup_insert_snoc in Hi; [|done].
    destruct Hi as [[-> ->]|[[Hne Hi]|[-> ->]]].
    + cbn in Hc. apply elem_of_app in Hc as [Hc|Hc%list_elem_of_singleton].
      * destruct (Hchildren node n c Hn Hc) as (cn & Hcn & Hpc).
        destruct (Hkeep c cn Hcn) as (cn' & Hcn' & Hpc' & _).
        exists cn'. split; [done|]. congruence.
      * subst c. exists new. split; [apply lookup_insert_snoc; auto|done].
    + destruct (Hchildren i x c Hi Hc) as (cn & Hcn & Hpc).
      destruct (Hkeep c cn Hcn) as (cn' & Hcn' & Hpc' & _).
      exists cn'. split; [done|]. congruence.
    + rewrite Hch in Hc. by apply elem_of_nil in Hc.
Qed.

Lemma bumped_tree_ok fresh t node t' :
  tree_ok fresh t → fresh = None ∨ fresh = Some node →
  (node < length t)%nat → bumped t node t' →
  tree_ok None t'.
Proof.
  intros Hok Hfresh Hnode [Hlen Hb].
  pose proof Hok as ((root & Hroot & Hnone & Hroot0) & Hnodes & Hchildren).
  assert (∀ i x', t' !! i = Some x' →
            ∃ x, t !! i = Some x ∧ shape x' = shape x ∧
              ((ancestor t node i ∧ Node.visits x' = Node.visits x + 1) ∨
               (¬ ancestor t node i ∧ Node.visits x' = Node.visits x))) as Hback.
  { intros i x' Hi. destruct (lookup_lt_is_Some_2 t i) as [x Hx].
    { rewrite <-Hlen. by eapply lookup_lt_Some. }
    destruct (Hb i x Hx) as (x'' & Hx'' & Hs & Hv). exists x.
    assert (x'' = x') as -> by congruence. split; [done|]. split; [done|].
    destruct Hv as [?|(? & ? & _)]; auto. }
  split; [|split].
  - destruct (Hb 0%nat root Hroot) as (root' & Hr' & Hs & Hv).
    exists root'. split; [done|]. injection Hs as _ Hp _ _ _.
    split; [congruence|]. destruct Hv as [[_ ->]|(_ & -> & _)]; lia.
  - intros i x' Hi Hi0.
    destruct (Hback i x' Hi) as (x & Hx & Hs & Hv).
    destruct (Hnodes i x Hx Hi0) as (p & pn & Hp & Hlt & Hpn & Hle & H0 & H1 & Hmv).
    destruct (Hb p pn Hpn) as (pn' & Hpn' & _ & Hvp).
    injection Hs as Hmove Hparent _ _ _.
    exists p, pn'. split; [congruence|]. split; [done|]. split; [done|].
    split; [|split; [|split]].
    + destruct Hv as [[Ha ->]|[Ha ->]].
      * pose proof (ancestor_up _ _ _ _ _ Ha Hx Hp) as Hap.
        destruct Hvp as [[_ ->]|[Hna _]]; [lia|done].
      * destruct Hvp as [[_ ->]|(_ & -> & _)]; lia.
    + destruct Hv as [[_ ->]|[_ ->]]; lia.
    + intros _. destruct (decide (Some i = fresh)) as [Hif|Hif].
      * destruct Hfresh as [-> | ->]; [done|]. injection Hif as Hif. subst i.
        destruct Hv as [[_ ->]|[Hna _]]; [lia|]. destruct Hna. constructor.
      * specialize (H1 Hif). destruct Hv as [[_ ->]|[_ ->]]; lia.
    + by rewrite Hmove.
  - intros i x' c Hi Hc.
    destruct (Hback i x' Hi) as (x & Hx & Hs & _).
    injection Hs as _ _ Hch _ _. rewrite Hch in Hc.
    destruct (Hchildren i x c Hx Hc) as (cn & Hcn & Hpc).
    destruct (Hb c cn Hcn) as (cn' & Hcn' & Hs' & _).
    injection Hs' as _ Hp' _ _ _. exists cn'. split; [done|]. congruence.
Qed.

Lemma expanded_root t node t' node' root :
  expanded t node t' node' → t !! 0%nat = Some root →
  ∃ root', t' !! 0%nat = Some root' ∧
    Node.visits root' = Node.visits root ∧
    (Node.childNodes root ≠ [] → Node.childNodes root' ≠ []) ∧
    (Node.untriedMoves root = [] → Node.untriedMoves root' = []) ∧
    (node = 0%nat → Node.untriedMoves root ≠ [] → Node.childNodes root' ≠ []).
Proof.
  intros [(-> & -> & n & Hn & Hu)|(n & m & um & new & Hn & Hm & -> & -> & _)] Hroot.
  { exists root. repeat split; try done. intros ->. by simplify_eq. }
  pose proof (lookup_lt_Some _ _ _ Hn) as Hnode.
  destruct (decide (node = 0%nat)) as [->|Hne].
  - assert (n = root) as -> by congruence.
    eexists. split; [apply lookup_insert_snoc; auto|]. cbn.
    repeat split; try done.
    + intros _. by destruct (Node.childNodes root).
    + intros Hu. rewrite Hu in Hm. by apply elem_of_nil in Hm.
    + intros _ _. by destruct (Node.childNodes root).
  - exists root. split; [apply lookup_insert_snoc; auto|]. done.
Qed.

(** One round of the loop of [UCT]: the root gets one visit more, the
    arena stays well formed, and the root gets a child when it had an
    untried move. *)
Lemma iteration_spec rootstate maxdepth k s :
  search_ok k (tree s) → 0 ≤ k →
  outcome (iteration ucb1 gtb rand rootstate maxdepth s)
    (λ _ s', search_ok (k + 1) (tree s') ∧
             (root_open (tree s) → root_open (tree s'))).
Proof.
  intros [Hok (root & Hroot & Hk & Hopen)] Hk0. unfold iteration.
  eapply outcome_bind; [apply outcome_modify|]. intros _ ? ->.
  eapply outcome_bind; [apply outcome_get|]. intros ? ? [-> ->].
  cbn [tree set_state].
  eapply outcome_bind.
  { apply select_phase_spec; cbn [tree set_state];
      [done|by eapply lookup_lt_Some|lia]. }
  cbn [tree set_state]. intros node s2 (Ht2 & Hnode & Hsel).
  destruct (lookup_lt_is_Some_2 _ _ Hnode) as [n Hn].
  eapply outcome_bind; [apply (expand_spec node s2 n); by rewrite Ht2|].
  rewrite Ht2. intros node' s3 Hexp.
  eapply outcome_bind; [apply rollout_spec|]. intros [] s4 Ht4. cbn beta in Ht4.
  eapply outcome_bind; [apply outcome_get|]. intros ? ? [-> ->].
  destruct (expanded_tree_ok _ _ _ _ Hok Hexp) as (fresh & Hfresh & Hok3 & Hnode').
  eapply outcome_weaken.
  { apply backpropagate_spec; rewrite Ht4;
      [by eapply tree_ok_parents_below|done|done]. }
  cbn beta. rewrite Ht4. intros [] s5 Hb.
  pose proof (bumped_tree_ok _ _ _ _ Hok3 Hfresh Hnode' Hb) as Hok5.
  destruct (expanded_root _ _ _ _ root Hexp Hroot)
    as (root3 & Hroot3 & Hv3 & Hch3 & Hu3 & Hnew3).
  destruct Hb as [_ Hb]. destruct (Hb 0%nat root3 Hroot3) as (root5 & Hroot5 & Hs5 & Hv5).
  injection Hs5 as _ _ Hch5 Hu5 _.
  assert (Node.visits root5 = k + 1) as Hk5.
  { destruct Hv5 as [[_ ->]|[Hna _]]; [lia|]. destruct Hna.
    by eapply ancestor_root. }
  split.
  - split; [done|]. exists root5. split; [done|]. split; [done|].
    rewrite Hch5, Hu5. intros Hnil. left.
    destruct (Node.untriedMoves root) as [|m ms] eqn:Eu; [by apply Hu3|].
    destruct (Node.childNodes root) as [|c cs] eqn:Ec; [|by destruct Hch3].
    destruct Hsel as [->|(n0 & Hn0 & Hu0 & _)].
    + by destruct Hnew3.
    + simplify_eq. congruence.
  - intros (root0 & Hroot0 & Hopen0). simplify_eq.
    exists root5. split; [done|]. rewrite Hch5, Hu5.
    destruct (Node.childNodes root) as [|c cs] eqn:Ec; [|right; by apply Hch3].
    destruct Hopen0 as [Hu0|]; [|done].
    destruct Hsel as [->|(n0 & Hn0 & Hun0 & _)]; [right; by apply Hnew3|].
    by simplify_eq.
Qed.

Lemma iterations_spec rootstate maxdepth n : ∀ k s,
  search_ok k (tree s) → 0 ≤ k →
  outcome (iterations ucb1 gtb rand rootstate maxdepth n s)
    (λ _ s', search_ok (k + Z.of_nat n) (tree s') ∧
             (root_open (tree s) → root_open (tree s'))).
Proof.
  induction n as [|n IH]; intros k s Hok Hk.
  { apply outcome_ret. by rewrite Z.add_0_r. }
  cbn [iterations].
  eapply outcome_bind; [by apply iteration_spec|].
  cbn beta. intros _ s1 [Hok1 Hopen1].
  eapply outcome_weaken; [apply IH; [done|lia]|].
  cbn beta. intros _ s' [Hok' Hopen'].
  split; [|auto].
  by replace (k + Z.of_nat (S n)) with (k + 1 + Z.of_nat n) by lia.
Qed.

Lemma Node_init_ok rootstate root :
  Node_init None None rootstate = Ok root → search_ok 0 [root].
Proof.
  unfold Node_init. destruct (get_moves rootstate) as [l| |]; [|done..].
  intros [= <-]. split.
  - split; [|split].
    + eexists. by split.
    + intros [|i] n Hi Hne; [done|]. by destruct i.
    + intros [|i] n c Hi Hc; [|by destruct i].
      cbn in Hi. injection Hi as <-. by apply elem_of_nil in Hc.
  - eexists. split; [done|]. split; [done|]. by right.
Qed.

(** The arena [UCT] has built when its loop ends: it is well formed, the
    root has one visit for each round, and it has a child when the root
    state had a move. *)
Lemma UCT_tree_spec rootstate itermax maxdepth :
  match UCT_tree ucb1 gtb rand rootstate itermax maxdepth with
  | Ok t =>
      search_ok (Z.of_nat (Z.to_nat itermax)) t ∧
      ((∃ l, get_moves rootstate = Ok l ∧ l ≠ []) → root_open t)
  | Raise e => game_exn e
  | Stuck => False
  end.
Proof.
  unfold UCT_tree.
  pose proof (Node_init_ok rootstate) as Hinit.
  unfold Node_init in *.
  destruct (get_moves_outcome rootstate) as [[l Hl]|Hl]; rewrite Hl in *;
    [|by left].
  cbn in *. specialize (Hinit _ eq_refl).
  pose proof (iterations_spec rootstate maxdepth (Z.to_nat itermax) 0
                (mkSearch [Node.mk None None [] 0 0 l (playerJustMoved rootstate)]
                   rootstate 0) Hinit (Z.le_refl 0)) as Hit.
  destruct (iterations _ _ _ _ _ _ _) as [[u| |] s']; cbn in Hit; [|done..].
  destruct Hit as [Hok Hopen]. split; [done|].
  intros (l' & [= <-] & Hne). apply Hopen. eexists. split; [done|]. by left.
Qed.

End uct_steps.

(** ** The stable sort and the last of the most visited *)

Section sorted_facts.
Context {A : Type} (key : A → Z).

Lemma insert_sorted_perm a l : insert_sorted key a l ≡ₚ a :: l.
Proof.
  induction l as [|b l IH]; [done|]. cbn. case_bool_decide; [done|].
  rewrite IH. apply Permutation_swap.
Qed.

Lemma sorted_perm l : sorted key l ≡ₚ l.
Proof.
  induction l as [|a l IH]; [done|]. cbn. by rewrite insert_sorted_perm, IH.
Qed.

Lemma insert_sorted_not_nil a l : insert_sorted key a l ≠ [].
Proof. destruct l; cbn; [done|]. by case_bool_decide. Qed.

Lemma last_cons_not_nil (b : A) l : l ≠ [] → last (b :: l) = last l.
Proof. by destruct l. Qed.

(** The entry put into a list comes last exactly when its key is above
    all keys of the list. *)
Lemma last_insert_sorted a l :
  last (insert_sorted key a l) =
    if decide (Forall (λ b, key b < key a) l) then Some a else last l.
Proof.
  induction l as [|b l IH]; [done|]. cbn [insert_sorted].
  case_bool_decide as Hab.
  - rewrite decide_False; [done|]. intros [Hb _]%Forall_cons. lia.
  - rewrite last_cons_not_nil by apply insert_sorted_not_nil. rewrite IH.
    destruct (decide (Forall _ l)) as [Hl|Hl].
    + rewrite decide_True; [done|]. constructor; [lia|done].
    + rewrite decide_False by (by intros [_ ?]%Forall_cons).
      destruct l; [|done]. by destruct Hl.
Qed.

(** The last entry of the sorted list is the last entry of greatest key. *)
Lemma last_sorted l :
  l ≠ [] →
  ∃ j x, l !! j = Some x ∧ last (sorted key l) = Some x ∧
    (∀ j' x', l !! j' = Some x' → key x' ≤ key x) ∧
    (∀ j' x', (j < j')%nat → l !! j' = Some x' → key x' < key x).
Proof.
  induction l as [|a l IH]; [done|]. intros _. cbn [sorted].
  rewrite last_insert_sorted.
  destruct (decide (Forall _ (sorted key l))) as [Hall|Hnot].
  - rewrite sorted_perm in Hall. exists 0%nat, a. split; [done|]. split; [done|].
    assert (∀ j' x', l !! j' = Some x' → key x' < key a) as Hlt.
    { intros j' x' Hx'. eapply (proj1 (Forall_forall _ _) Hall).
      by eapply list_elem_of_lookup_2. }
    split.
    + intros [|j'] x' Hx'; cbn in Hx'; [by simplify_eq|].
      specialize (Hlt j' x' Hx'). lia.
    + intros [|j'] x' Hj Hx'; [lia|]. by eapply Hlt.
  - destruct l as [|b l]; [by destruct Hnot|].
    destruct IH as (j & x & Hj & Hlast & Hmax & Hstrict); [done|].
    exists (S j), x. split; [done|]. split; [done|]. split.
    + intros [|j'] x' Hx'; cbn in Hx'; [|by eapply Hmax].
      injection Hx' as <-.
      apply not_Forall_Exists in Hnot; [|apply _].
      apply Exists_exists in Hnot as (c & Hc & Hca). cbn in Hca.
      rewrite sorted_perm in Hc. apply list_elem_of_lookup in Hc as [jc Hc].
      specialize (Hmax jc c Hc). lia.
    + intros [|j'] x' Hlt Hx'; [lia|]. cbn in Hx'.
      eapply Hstrict; [|done]. lia.
Qed.

Lemma getitem_last (l : list A) : getitem l (-1) = or_raise IndexError (last l).
Proof.
  unfold getitem, py_index. rewrite last_lookup.
  rewrite bool_decide_eq_false_2 by lia.
  destruct l as [|a l]; [done|].
  rewrite bool_decide_eq_true_2 by (cbn [length]; lia). cbn [mbind option_bind].
  replace (Z.to_nat (Z.of_nat (length (a :: l)) + -1)) with (pred (length (a :: l)))
    by (cbn [length]; lia).
  done.
Qed.

End sorted_facts.

Lemma mapM_lookup (t : list Node) cs cns :
  Forall2 (λ c cn, t !! c = Some cn) cs cns →
  mapM (λ c, match t !! c with Some n => Ok n | None => Stuck end) cs = Ok cns.
Proof.
  induction 1 as [|c cn cs cns Hc _ IH]; [done|].
  cbn. rewrite Hc. cbn. by rewrite IH.
Qed.

Section uct_theorems.
Context `{RobotSnake} {V : Type} (ucb1 : Z → Z → Z → V) (gtb : V → V → bool).
Variable rand : nat → nat.

Lemma get_moves_not_nil s l : NoDup directions → get_moves s = Ok l → l ≠ [].
Proof.
  intros Hnd. unfold get_moves.
  destruct (getitem (last_action s) _) as [[a|]| |]; cbn; [| |done..];
    intros [= <-] Hnil; apply (f_equal length) in Hnil.
  - assert (elements (Actions ∖ {[_opposite_action a]})
            ≡ₚ filter (λ d, d ≠ _opposite_action a) directions) as Hperm.
    { apply NoDup_Permutation; [apply NoDup_elements|by apply NoDup_filter|].
      intros d. rewrite elem_of_elements, elem_of_difference, elem_of_singleton,
        list_elem_of_filter, Actions_directions. tauto. }
    rewrite Hperm in Hnil.
    destruct (decide (_opposite_action a ∈ directions)) as [Hin|Hin].
    + pose proof (length_filter_ne _ _ Hnd Hin) as Hl. rewrite Hnil in Hl. done.
    + by rewrite filter_ne_notin in Hnil.
  - assert (elements Actions ≡ₚ directions) as Hperm.
    { apply NoDup_Permutation; [apply NoDup_elements|done|].
      intros d. rewrite elem_of_elements. apply Actions_directions. }
    by rewrite Hperm in Hnil.
Qed.

Lemma tree_ok_child_nodes t root :
  tree_ok None t → t !! 0%nat = Some root →
  ∃ cns, Forall2 (λ c cn, t !! c = Some cn) (Node.childNodes root) cns.
Proof.
  intros Hok Hroot.
  assert (Forall (λ c, ∃ cn, t !! c = Some cn) (Node.childNodes root)) as Hall.
  { apply Forall_forall. intros c Hc.
    destruct (tree_ok_child t 0 root c Hok Hroot Hc) as (cn & ? & _). eauto. }
  induction Hall as [|c cs [cn Hcn] _ [cns IH]]; [by exists []|].
  exists (cn :: cns). by constructor.
Qed.

Lemma most_visited_outcome t :
  tree_ok None t →
  (∃ mv, most_visited t = Ok mv) ∨ most_visited t = Raise IndexError.
Proof.
  intros Hok. pose proof Hok as ((root & Hroot & _) & _).
  destruct (tree_ok_child_nodes t root Hok Hroot) as [cns Hcns].
  unfold most_visited. rewrite Hroot. cbn.
  rewrite (mapM_lookup _ _ _ Hcns). cbn.
  destruct (getitem_outcome (sorted Node.visits cns) (-1)) as [[best ->]| ->];
    cbn; eauto.
Qed.

(** C10.  A search never fails in [uct_select_child]: [UCT], and the loop
    that builds its arena, raise neither [ZeroDivisionError] nor the
    [ValueError] of [log] and [sqrt], and the model is never stuck.  In the
    arena after any number of rounds, which is the arena the next round
    selects in, every node with a child has at least one visit, and so has
    every one of its children. *)
Theorem uct_select_child_well_defined rootstate itermax maxdepth :
  UCT_tree ucb1 gtb rand rootstate itermax maxdepth ≠ Raise ZeroDivisionError ∧
  UCT_tree ucb1 gtb rand rootstate itermax maxdepth ≠ Raise (ValueError MathDomain) ∧
  UCT_tree ucb1 gtb rand rootstate itermax maxdepth ≠ Stuck ∧
  UCT ucb1 gtb rand rootstate itermax maxdepth ≠ Raise ZeroDivisionError ∧
  UCT ucb1 gtb rand rootstate itermax maxdepth ≠ Raise (ValueError MathDomain) ∧
  UCT ucb1 gtb rand rootstate itermax maxdepth ≠ Stuck ∧
  ∀ t, UCT_tree ucb1 gtb rand rootstate itermax maxdepth = Ok t →
    ∀ i n, t !! i = Some n → Node.childNodes n ≠ [] →
      1 ≤ Node.visits n ∧ children_visited t (Node.childNodes n).
Proof.
  pose proof (UCT_tree_spec ucb1 gtb rand rootstate itermax maxdepth) as Hspec.
  unfold UCT.
  destruct (UCT_tree ucb1 gtb rand rootstate itermax maxdepth) as [t|e|];
    [|by split_and!; try done; intros [= ->]; destruct Hspec|done].
  destruct Hspec as [[Hok _] _].
  split_and!; try done.
  - cbn. by destruct (most_visited_outcome t Hok) as [[mv ->]| ->].
  - cbn. by destruct (most_visited_outcome t Hok) as [[mv ->]| ->].
  - cbn. by destruct (most_visited_outcome t Hok) as [[mv ->]| ->].
  - intros ? [= <-] i n Hi Hne.
    destruct (tree_ok_children t i n Hok Hi) as [Hcs Hv]. auto.
Qed.

(** C5.  When [UCT] has run its [itermax >= 1] rounds, the root has
    exactly [itermax] visits, no node has more visits than its parent, and
    so no child of the root has more than [itermax]. *)
Theorem root_visits_count rootstate itermax maxdepth t :
  1 ≤ itermax →
  UCT_tree ucb1 gtb rand rootstate itermax maxdepth = Ok t →
  ∃ root, t !! 0%nat = Some root ∧ Node.parentNode root = None ∧
    Node.visits root = itermax ∧
    (∀ i n p, t !! i = Some n → Node.parentNode n = Some p →
       ∃ pn, t !! p = Some pn ∧ Node.visits n ≤ Node.visits pn) ∧
    (∀ p pn c, t !! p = Some pn → c ∈ Node.childNodes pn →
       ∃ cn, t !! c = Some cn ∧ Node.parentNode cn = Some p ∧
             Node.visits cn ≤ Node.visits pn) ∧
    (∀ c, c ∈ Node.childNodes root →
       ∃ cn, t !! c = Some cn ∧ Node.visits cn ≤ itermax).
Proof.
  intros Hiter Ht.
  pose proof (UCT_tree_spec ucb1 gtb rand rootstate itermax maxdepth) as Hspec.
  rewrite Ht in Hspec. destruct Hspec as [[Hok (root & Hroot & Hk & _)] _].
  rewrite Z2Nat.id in Hk by lia.
  pose proof Hok as ((root' & Hroot' & Hnone & _) & Hnodes & _).
  assert (root' = root) as -> by congruence.
  exists root. split_and!; try done.
  - intros i n p Hi Hp.
    destruct (decide (i = 0%nat)) as [->|Hne]; [congruence|].
    destruct (Hnodes i n Hi Hne) as (p' & pn & Hp' & _ & Hpn & Hle & _).
    exists pn. split; congruence.
  - intros p pn c Hp Hc.
    destruct (tree_ok_child t p pn c Hok Hp Hc) as (cn & ? & _ & _ & ? & _ & ?).
    by exists cn.
  - intros c Hc.
    destruct (tree_ok_child t 0 root c Hok Hroot Hc) as (cn & ? & _ & _ & ? & _).
    exists cn. split; [done|lia].
Qed.

(** C2, as amended.  When the [itermax >= 1] rounds of the loop have run
    without raising, [UCT] returns the move of a child of the root that no
    child exceeds in visits and that has more visits than every child after
    it in the list of children: the last of the most visited children, in
    the order of their creation. *)
Theorem UCT_most_visited_last rootstate itermax maxdepth t :
  NoDup directions →
  1 ≤ itermax →
  UCT_tree ucb1 gtb rand rootstate itermax maxdepth = Ok t →
  ∃ root j c cn,
    t !! 0%nat = Some root ∧ Node.childNodes root !! j = Some c ∧
    t !! c = Some cn ∧
    UCT ucb1 gtb rand rootstate itermax maxdepth = Ok (Node.move cn) ∧
    (∀ j' c' cn', Node.childNodes root !! j' = Some c' → t !! c' = Some cn' →
       Node.visits cn' ≤ Node.visits cn) ∧
    (∀ j' c' cn', (j < j')%nat → Node.childNodes root !! j' = Some c' →
       t !! c' = Some cn' → Node.visits cn' < Node.visits cn).
Proof.
  intros Hnd Hiter Ht.
  pose proof (UCT_tree_spec ucb1 gtb rand rootstate itermax maxdepth) as Hspec.
  rewrite Ht in Hspec.
  destruct Hspec as [[Hok (root & Hroot & Hk & Hchild)] Hopen].
  rewrite Z2Nat.id in Hk by lia.
  assert (Node.childNodes root ≠ []) as Hne.
  { intros Hnil. destruct Hopen as (root' & Hroot' & Hopen').
    - unfold UCT_tree, Node_init in Ht.
      destruct (get_moves rootstate) as [l| |] eqn:Hl; [|done..].
      exists l. split; [done|]. by eapply get_moves_not_nil.
    - assert (root' = root) as -> by congruence.
      destruct (Hchild Hnil) as [Hu|]; [|lia].
      by destruct Hopen'. }
  destruct (tree_ok_child_nodes t root Hok Hroot) as [cns Hcns].
  assert (cns ≠ []) as Hne'.
  { intros ->. apply Forall2_nil_inv_r in Hcns. done. }
  destruct (last_sorted Node.visits cns Hne') as (j & cn & Hj & Hlast & Hmax & Hstrict).
  destruct (Forall2_lookup_r _ _ _ _ _ Hcns Hj) as (c & Hc & Hcn).
  exists root, j, c, cn. split_and!; try done.
  - unfold UCT. rewrite Ht. cbn. unfold most_visited. rewrite Hroot. cbn.
    rewrite (mapM_lookup _ _ _ Hcns). cbn.
    by rewrite getitem_last, Hlast.
  - intros j' c' cn' Hc' Hcn'.
    destruct (Forall2_lookup_l _ _ _ _ _ Hcns Hc') as (cn'' & Hj' & Hcn'').
    assert (cn'' = cn') as -> by congruence. by eapply Hmax.
  - intros j' c' cn' Hlt Hc' Hcn'.
    destruct (Forall2_lookup_l _ _ _ _ _ Hcns Hc') as (cn'' & Hj' & Hcn'').
    assert (cn'' = cn') as -> by congruence. by eapply Hstrict.
Qed.

End uct_theorems.

(** ** UCT: worked inputs *)

Lemma wide_search_runs :
  ∃ t, UCT_tree (H:=snakepit) (ucb1_float log_upto_8) float_gt counting wide_state 8 2 = Ok t.
Proof. vm_compute. eauto. Qed.

Lemma root_visits_count_witness :
  ∃ t root,
    UCT_tree (H:=snakepit) (ucb1_float log_upto_8) float_gt counting wide_state 8 2 = Ok t ∧
    t !! 0%nat = Some root ∧ Node.visits root = 8.
Proof.
  destruct wide_search_runs as [t Ht].
  destruct (root_visits_count (H:=snakepit) (ucb1_float log_upto_8) float_gt counting
              wide_state 8 2 t) as (root & Hroot & _ & Hv & _).
  - lia.
  - exact Ht.
  - exists t, root. split; [exact Ht|]. split; [exact Hroot|exact Hv].
Defined.

Lemma UCT_most_visited_last_witness :
  ∃ mv, UCT (H:=snakepit) (ucb1_float log_upto_8) float_gt counting wide_state 8 2 = Ok mv.
Proof.
  destruct wide_search_runs as [t Ht].
  destruct (UCT_most_visited_last (H:=snakepit) (ucb1_float log_upto_8) float_gt counting
              wide_state 8 2 t) as (root & j & c & cn & _ & _ & _ & Huct & _).
  - apply snakepit_wf.
  - lia.
  - exact Ht.
  - eexists. exact Huct.
Defined.

(** C2, counterexample.  The agent is in the last column of the 3 by 3
    terrain and the first move drawn is the one to the right: the search
    raises in the expansion step of its first round. *)
Lemma UCT_raises_off_terrain :
  UCT (H:=snakepit) (ucb1_float log_upto_8) float_gt always_three edge_state 1 5 = Raise IndexError.
Proof. vm_compute. reflexivity. Qed.

(** * More of the code *)

(** ** GameState: turns, recorded actions, exceptions *)

Section game_more.
Context `{RobotSnake}.

Lemma do_move_players_length move s :
  length (players (do_move move s).2) = length (players s).
Proof.
  rewrite do_move_unfold. cbv zeta.
  destruct (setitem (last_action s) _ _) as [la| |]; [|done..].
  destruct (move_lookups move s) as [[[player new_head] cell]| |]; [|done..].
  destruct (move_scores s new_head cell.1) as [sc| |]; [|done..].
  destruct (setitem (players s) _ _) as [ps| |] eqn:Eps; [|done..].
  cbn. by eapply setitem_length.
Qed.

Lemma do_move_playerJustMoved move s :
  playerJustMoved (do_move move s).2 = player_to_move s.
Proof.
  rewrite do_move_unfold. cbv zeta.
  destruct (setitem (last_action s) _ _) as [la| |]; [|done..].
  destruct (move_lookups move s) as [[[player new_head] cell]| |]; [|done..].
  destruct (move_scores s new_head cell.1) as [sc| |]; [|done..].
  by destruct (setitem (players s) _ _).
Qed.

(** The agents take turns.  With two chains or more the agent that moves
    becomes the agent that just moved and the other one is to move next;
    with one chain or none it is always agent 0.  This holds whether
    [do_move] returns or raises. *)
Theorem do_move_alternates s move :
  reachable s →
  playerJustMoved (do_move move s).2 = player_to_move s ∧
  ((1 < length (players s))%nat →
     player_to_move (do_move move s).2 = 1 - player_to_move s ∧
     player_to_move (do_move move (do_move move s).2).2 = player_to_move s) ∧
  ((length (players s) ≤ 1)%nat →
     player_to_move s = 0 ∧ player_to_move (do_move move s).2 = 0).
Proof.
  intros Hs%reachable_ok.
  pose proof (do_move_playerJustMoved move s) as Hj.
  pose proof (do_move_players_length move s) as Hl.
  split; [done|]. split.
  - intros Htwo.
    assert (player_to_move (do_move move s).2 = 1 - player_to_move s) as H1.
    { unfold player_to_move at 1. rewrite Hl, Hj.
      by rewrite bool_decide_eq_true_2. }
    split; [done|].
    unfold player_to_move at 1.
    rewrite !do_move_players_length, do_move_playerJustMoved, H1.
    rewrite bool_decide_eq_true_2 by done. lia.
  - intros Hone. unfold player_to_move. rewrite Hl.
    by rewrite !bool_decide_eq_false_2 by lia.
Qed.

Lemma do_move_last_action move s :
  state_ok s →
  ∃ k, py_index 2 (player_to_move s) = Some k ∧
       last_action (do_move move s).2 = <[k := Some move]> (last_action s).
Proof.
  intros Hs. destruct (state_ok_lookups s Hs) as [[la Hla] _].
  destruct (setitem_is_Ok _ _ (Some move) _ Hla) as (k & Hk & _ & Hset).
  destruct Hs as (Hlen & _). rewrite Hlen in Hk.
  exists k. split; [done|].
  rewrite do_move_unfold. cbv zeta. rewrite Hset.
  destruct (move_lookups move s) as [[[player new_head] cell]| |]; [|done..].
  destruct (move_scores s new_head cell.1) as [sc| |]; [|done..].
  by destruct (setitem (players s) _ _).
Qed.

Lemma get_moves_after la s :
  getitem (last_action s) (player_to_move s) = Ok (Some la) →
  ∃ moves, get_moves s = Ok moves ∧
    ∀ d, d ∈ moves ↔ d ∈ directions ∧ d ≠ opposite la.
Proof.
  intros Hla. unfold get_moves, _opposite_action. rewrite Hla. cbn.
  eexists. split; [done|]. intros d.
  rewrite elem_of_elements, elem_of_difference, elem_of_singleton.
  by rewrite Actions_directions.
Qed.

(** No reversal.  Once an agent has moved by [move], the next call of
    [get_moves] made for that agent, at once in a game of one agent and
    after the move of the other agent in a game of two, returns the
    directions other than the opposite of [move]; the calls of [do_move]
    may have returned or raised. *)
Theorem get_moves_excludes_reversal s move :
  reachable s → move ∈ directions →
  ((length (players s) ≤ 1)%nat →
     ∃ moves, get_moves (do_move move s).2 = Ok moves ∧
       ∀ d, d ∈ moves ↔ d ∈ directions ∧ d ≠ opposite move) ∧
  ((1 < length (players s))%nat → ∀ move',
     ∃ moves, get_moves (do_move move' (do_move move s).2).2 = Ok moves ∧
       ∀ d, d ∈ moves ↔ d ∈ directions ∧ d ≠ opposite move).
Proof.
  intros Hr Hm. pose proof (reachable_ok s Hr) as Hs.
  destruct (do_move_last_action move s Hs) as (k & Hk & Hla).
  pose proof (do_move_ok move s Hs Hm) as Hs1.
  assert (getitem (last_action (do_move move s).2) (player_to_move s)
          = Ok (Some move)) as Hget.
  { apply getitem_Ok. exists k. rewrite Hla, length_insert.
    destruct Hs as (Hlen & _). rewrite Hlen. split; [done|].
    apply list_lookup_insert_eq. rewrite Hlen. by eapply py_index_lt. }
  split.
  - intros Hone. apply get_moves_after.
    unfold player_to_move at 1. rewrite do_move_players_length.
    rewrite bool_decide_eq_false_2 by lia.
    unfold player_to_move in Hget. by rewrite bool_decide_eq_false_2 in Hget by lia.
  - intros Htwo move'. apply get_moves_after.
    set (s1 := (do_move move s).2) in *.
    assert (player_to_move (do_move move' s1).2 = player_to_move s) as ->.
    { unfold player_to_move at 1.
      rewrite do_move_players_length, do_move_playerJustMoved.
      unfold s1. rewrite do_move_players_length.
      rewrite bool_decide_eq_true_2 by done.
      unfold player_to_move at 1. rewrite do_move_players_length.
      rewrite bool_decide_eq_true_2 by done.
      rewrite do_move_playerJustMoved. lia. }
    destruct (do_move_last_action move' s1 Hs1) as (k' & Hk' & Hla').
    assert (player_to_move s1 = 1 - player_to_move s) as Hpm1.
    { unfold player_to_move at 1. unfold s1.
      rewrite do_move_players_length, do_move_playerJustMoved.
      by rewrite bool_decide_eq_true_2. }
    apply getitem_Ok. apply getitem_Ok in Hget as (k0 & Hk0 & Hget).
    exists k0. rewrite Hla', length_insert. split; [done|].
    rewrite list_lookup_insert_ne; [done|].
    rewrite Hpm1 in Hk'. rewrite Hla, length_insert in Hk0.
    destruct Hs as (Hlen & _ & Hj & _). rewrite Hlen in Hk0.
    pose proof (player_to_move_cases s Hj) as Hpm.
    unfold py_index in Hk', Hk0.
    repeat case_bool_decide; simplify_eq; lia.
Qed.


Lemma move_lookups_inv move s player new_head cell :
  move_lookups move s = Ok (player, new_head, cell) →
  ∃ head, getitem (players s) (player_to_move s) = Ok player ∧
    getitem player 0 = Ok head ∧
    new_head = Pos (x head + xdir move) (y head + ydir move) ∧
    getitem2 (terrain s) (x head + xdir move) (y head + ydir move) = Ok cell.
Proof.
  unfold move_lookups, mbind, res_bind.
  destruct (getitem (players s) _) as [p| |] eqn:E1; [|done..].
  destruct (getitem p 0) as [head| |] eqn:E2; [|done..]. cbn [x y].
  destruct (getitem2 _ _ _) as [c| |] eqn:E3; [|done..].
  intros [= -> <- ->]. by exists head.
Qed.

Lemma move_lookups_Raise move s e :
  move_lookups move s = Raise e → e = IndexError.
Proof.
  unfold move_lookups, getitem2, mbind, res_bind.
  destruct (getitem (players s) _) as [p| |] eqn:E1;
    [|intros [= <-]; by eapply getitem_Raise|done].
  destruct (getitem p 0) as [head| |] eqn:E2;
    [|intros [= <-]; by eapply getitem_Raise|done].
  destruct (getitem (terrain s) _) as [col| |] eqn:E3;
    [|intros [= <-]; by eapply getitem_Raise|done].
  destruct (getitem col _) as [c| |] eqn:E4;
    [done|intros [= <-]; by eapply getitem_Raise|done].
Qed.

Lemma move_scores_Ok_iff s new_head char :
  state_ok s →
  (∃ sc, move_scores s new_head char = Ok sc) ↔
  (_collides_with_player s new_head = false → isnumeric char = true →
   ∃ v, int char = Ok v).
Proof.
  intros Hs. destruct (state_ok_lookups s Hs) as [_ [old Hold]].
  assert (∀ v, ∃ sc, setitem (scores s) (player_to_move s) v = Ok sc) as Hset.
  { intros v. destruct (setitem_is_Ok _ _ v _ Hold) as (k & _ & _ & ->). eauto. }
  unfold move_scores, mbind, res_bind. rewrite Hold.
  destruct (_collides_with_player s new_head).
  { split; [done|]. intros _. apply Hset. }
  destruct (isnumeric char).
  { destruct (int char) as [v| |].
    - split; [eauto|]. intros _. apply Hset.
    - split; [by intros [? ?]|]. intros Hv. by destruct Hv as [? ?].
    - split; [by intros [? ?]|]. intros Hv. by destruct Hv as [? ?]. }
  split; [done|]. intros _.
  destruct (bool_decide _); [apply Hset|eauto].
Qed.

Lemma move_scores_Raise s new_head char e :
  state_ok s → move_scores s new_head char = Raise e →
  e = ValueError InvalidLiteral ∧ _collides_with_player s new_head = false ∧
  isnumeric char = true.
Proof.
  intros Hs. destruct (state_ok_lookups s Hs) as [_ [old Hold]].
  assert (∀ v, setitem (scores s) (player_to_move s) v ≠ Raise e) as Hset.
  { intros v. by destruct (setitem_is_Ok _ _ v _ Hold) as (k & _ & _ & ->). }
  unfold move_scores, mbind, res_bind. rewrite Hold.
  destruct (_collides_with_player s new_head); [by intros ?%Hset|].
  destruct (isnumeric char).
  { destruct (int char) as [v| |] eqn:Ev; [by intros ?%Hset| |done].
    intros [= <-]. destruct (int_outcome char) as [[? ?]|?]; [congruence|].
    split_and!; [congruence|done..]. }
  destruct (bool_decide _); [by intros ?%Hset|done].
Qed.

(** When [do_move] returns.  In a state the program can build, [do_move]
    returns if and only if the agent to move has a chain, the chain has a
    head, the terrain has a cell at head + move (with Python's indices, so
    -1 is the last column or row), and the symbol of that cell, when it is
    numeric and decides the score, is one that [int] accepts. *)
Theorem do_move_returns_iff s move :
  reachable s →
  (∃ s', do_move move s = (Ok tt, s')) ↔
  ∃ player head cell,
    getitem (players s) (player_to_move s) = Ok player ∧
    getitem player 0 = Ok head ∧
    getitem2 (terrain s) (x head + xdir move) (y head + ydir move) = Ok cell ∧
    (_collides_with_player s (Pos (x head + xdir move) (y head + ydir move)) = false →
     isnumeric cell.1 = true → ∃ v, int cell.1 = Ok v).
Proof.
  intros Hs%reachable_ok.
  destruct (state_ok_lookups s Hs) as [[la0 Hla] _].
  destruct (setitem_is_Ok _ _ (Some move) _ Hla) as (k & _ & _ & Hset).
  rewrite do_move_unfold. cbv zeta. rewrite Hset.
  split.
  - intros [s' Hdo].
    destruct (move_lookups move s) as [[[player new_head] cell]| |] eqn:E2;
      [|done..].
    apply move_lookups_inv in E2 as (head & Hp & Hh & -> & Hc).
    exists player, head, cell. split_and!; try done.
    apply move_scores_Ok_iff; [done|].
    destruct (move_scores s _ cell.1) as [sc| |]; [eauto|done..].
  - intros (player & head & cell & Hp & Hh & Hc & Hint).
    rewrite (move_lookups_Ok _ _ _ _ _ Hp Hh Hc).
    apply move_scores_Ok_iff in Hint as [sc ->]; [|done].
    destruct (setitem_is_Ok _ _
      (removelast (Pos (x head + xdir move) (y head + ydir move) :: player))
      _ Hp) as (k' & _ & _ & ->).
    eauto.
Qed.

(** A call of [do_move] that raises.  In a state the program can build it
    raises [IndexError] or the [ValueError] of [int]; the scores, the chains
    and the terrain are what they were, but the move counts: the agent has
    had its turn and the move is recorded as its last action. *)
Theorem do_move_raise_keeps_game s move e s' :
  reachable s →
  do_move move s = (Raise e, s') →
  (e = IndexError ∨ e = ValueError InvalidLiteral) ∧
  scores s' = scores s ∧ players s' = players s ∧ terrain s' = terrain s ∧
  playerJustMoved s' = player_to_move s ∧
  getitem (last_action s') (player_to_move s) = Ok (Some move).
Proof.
  intros Hs%reachable_ok.
  destruct (state_ok_lookups s Hs) as [[la0 Hla] _].
  destruct (setitem_is_Ok _ _ (Some move) _ Hla) as (k & Hk & _ & Hset).
  assert (getitem (<[k:=Some move]> (last_action s)) (player_to_move s)
          = Ok (Some move)) as Hget.
  { eapply getitem_setitem, Hset. }
  rewrite do_move_unfold. cbv zeta. rewrite Hset.
  destruct (move_lookups move s) as [[[player new_head] cell]| |] eqn:E2.
  - destruct (move_scores s new_head cell.1) as [sc| |] eqn:E3.
    + apply move_lookups_inv in E2 as (head & Hp & _).
      destruct (setitem_is_Ok _ _ (removelast (new_head :: player)) _ Hp)
        as (k' & _ & _ & ->). done.
    + intros [= <- <-].
      apply move_scores_Raise in E3 as (-> & _); [|done]. split_and!; auto.
    + done.
  - intros [= <- <-]. apply move_lookups_Raise in E2 as ->. split_and!; auto.
  - done.
Qed.

(** What a move leaves alone.  Whether [do_move] returns or raises, the
    terrain is the one before, and so are the score, the recorded action
    and the chain of the agent that does not move. *)
Theorem do_move_frame s move :
  reachable s →
  terrain (do_move move s).2 = terrain s ∧
  ∀ j, j ≠ Z.to_nat (player_to_move s) →
    scores (do_move move s).2 !! j = scores s !! j ∧
    last_action (do_move move s).2 !! j = last_action s !! j ∧
    players (do_move move s).2 !! j = players s !! j.
Proof.
  intros Hs%reachable_ok.
  pose proof Hs as (Hlen & Hlsc & Hj & _).
  pose proof (player_to_move_cases s Hj) as Hpm.
  assert (∀ n k, py_index n (player_to_move s) = Some k →
            k = Z.to_nat (player_to_move s)) as Hidx.
  { intros n k. unfold py_index. repeat case_bool_decide; intros; simplify_eq; lia. }
  assert (∀ A (l l' : list A) v j, setitem l (player_to_move s) v = Ok l' →
            j ≠ Z.to_nat (player_to_move s) → l' !! j = l !! j) as Hne.
  { intros A l l' v j (k & Hk%Hidx & ->)%setitem_Ok Hjk.
    apply list_lookup_insert_ne. congruence. }
  assert (∀ new_head char sc j, move_scores s new_head char = Ok sc →
            j ≠ Z.to_nat (player_to_move s) → sc !! j = scores s !! j) as Hsc.
  { intros new_head char sc j. unfold move_scores, mbind, res_bind.
    repeat case_match; try done; intros Hset Hjk;
      first [by eapply Hne | by simplify_eq]. }
  rewrite do_move_unfold. cbv zeta.
  destruct (setitem (last_action s) _ _) as [la| |] eqn:E1; [|done..].
  destruct (move_lookups move s) as [[[player new_head] cell]| |] eqn:E2;
    [|split; [done|]; intros j Hjk; cbn; split_and!; eauto..].
  destruct (move_scores s new_head cell.1) as [sc| |] eqn:E3;
    [|split; [done|]; intros j Hjk; cbn; split_and!; eauto..].
  destruct (setitem (players s) _ _) as [ps| |] eqn:E4;
    split; try done; intros j Hjk; cbn; split_and!; eauto.
Qed.

(** Off the left edge.  An agent whose head is in column 0 and that moves
    to column -1 does not leave the terrain for Python: the index -1 reads
    the last column.  [do_move] returns, the head is at column -1, and a
    stone, border, wall or dead body in the last column costs the agent
    the game while a free cell there leaves its score as it was. *)
Theorem do_move_wraps_left s move player head column cell :
  reachable s →
  getitem (players s) (player_to_move s) = Ok player →
  getitem player 0 = Ok head →
  x head + xdir move = -1 →
  last (terrain s) = Some column →
  getitem column (y head + ydir move) = Ok cell →
  _collides_with_player s (Pos (-1) (y head + ydir move)) = false →
  isnumeric cell.1 = false →
  ∃ s' old,
    do_move move s = (Ok tt, s') ∧
    (p ← getitem (players s') (player_to_move s); getitem p 0)
      = Ok (Pos (-1) (y head + ydir move)) ∧
    get_result s (player_to_move s) = Ok old ∧
    get_result s' (player_to_move s)
      = Ok (if bool_decide (cell.1 ∈ obstacle_chars) then -1000 else old).
Proof.
  intros Hs%reachable_ok Hp Hh Hx Hlast Hc Hcol Hnum.
  destruct (state_ok_lookups s Hs) as [[la0 Hla] [old Hold]].
  destruct (setitem_is_Ok _ _ (Some move) _ Hla) as (k & _ & _ & Hset).
  assert (getitem2 (terrain s) (x head + xdir move) (y head + ydir move) = Ok cell)
    as Hcell.
  { unfold getitem2. rewrite Hx.
    rewrite (getitem_last (terrain s)), Hlast. done. }
  rewrite do_move_unfold. cbv zeta. rewrite Hset.
  rewrite (move_lookups_Ok _ _ _ _ _ Hp Hh Hcell). rewrite Hx.
  unfold move_scores. rewrite Hcol, Hnum.
  destruct (setitem_is_Ok _ _
    (removelast (Pos (-1) (y head + ydir move) :: player)) _ Hp)
    as (k' & Hk' & _ & Hps).
  unfold get_result.
  destruct (bool_decide (cell.1 ∈ obstacle_chars)).
  - destruct (setitem_is_Ok _ _ (-1000) _ Hold) as (k2 & Hk2 & _ & Hsc).
    rewrite Hsc, Hps. eexists _, old. split_and!; try done.
    + cbn. erewrite getitem_setitem by exact Hps. cbn.
      by eapply getitem_head_removelast.
    + cbn. by eapply getitem_setitem.
  - rewrite Hps. eexists _, old. split_and!; try done.
    cbn. erewrite getitem_setitem by exact Hps. cbn.
    by eapply getitem_head_removelast.
Qed.

End game_more.

Lemma do_move_alternates_witness :
  player_to_move (do_move (H:=snakepit) (Vec 1 0) duel_state).2 = 1.
Proof.
  destruct (do_move_alternates (H:=snakepit) duel_state (Vec 1 0))
    as (_ & Htwo & _); [apply reachable_init|].
  destruct Htwo as [H1 _]; [vm_compute; lia|].
  rewrite H1. reflexivity.
Defined.

Lemma get_moves_excludes_reversal_witness :
  ∃ moves,
    get_moves (H:=snakepit)
      (do_move (H:=snakepit) (Vec 0 1) (do_move (H:=snakepit) (Vec 1 0) duel_state).2).2
      = Ok moves ∧
    Vec (-1) 0 ∉ moves.
Proof.
  destruct (get_moves_excludes_reversal (H:=snakepit) duel_state (Vec 1 0))
    as [_ Htwo]; [apply reachable_init| |].
  { unfold directions. cbn. rewrite !elem_of_cons. auto. }
  destruct (Htwo ltac:(vm_compute; lia) (Vec 0 1)) as (moves & Hm & Hin).
  exists moves. split; [exact Hm|].
  intros [_ Hne]%Hin. by apply Hne.
Defined.

Lemma do_move_returns_iff_witness :
  ∃ s', do_move (H:=snakepit) (Vec 1 0) (centre_state five_3x3) = (Ok tt, s').
Proof.
  apply (do_move_returns_iff (H:=snakepit) (centre_state five_3x3) (Vec 1 0));
    [apply reachable_init|].
  exists [Pos 1 1], (Pos 1 1), ("5"%string, 0).
  split_and!; try reflexivity. intros _ _. by exists 5.
Defined.

Lemma do_move_raise_keeps_game_witness :
  scores (do_move (H:=snakepit) (Vec 1 0) edge_state).2 = [0; 0] ∧
  players (do_move (H:=snakepit) (Vec 1 0) edge_state).2 = [[Pos 2 1]].
Proof.
  destruct (do_move_raise_keeps_game (H:=snakepit) edge_state (Vec 1 0) IndexError
              (do_move (H:=snakepit) (Vec 1 0) edge_state).2)
    as (_ & Hsc & Hps & _); [apply reachable_init|reflexivity|].
  by rewrite Hsc, Hps.
Defined.

Lemma do_move_frame_witness :
  scores (do_move (H:=snakepit) (Vec 1 0) duel_state).2 !! 1%nat = Some 0.
Proof.
  destruct (do_move_frame (H:=snakepit) duel_state (Vec 1 0)) as [_ Hj];
    [apply reachable_init|].
  destruct (Hj 1%nat) as (Hsc & _); [vm_compute; lia|].
  rewrite Hsc. reflexivity.
Defined.

Lemma do_move_wraps_left_witness :
  ∃ s', do_move (H:=snakepit) (Vec (-1) 0) walled_state = (Ok tt, s') ∧
        get_result s' 0 = Ok (-1000).
Proof.
  destruct (do_move_wraps_left (H:=snakepit) walled_state (Vec (-1) 0)
              [Pos 0 1] (Pos 0 1) (replicate 3 ("#"%string, 0)) ("#"%string, 0))
    as (s' & old & Hdo & _ & _ & Hres); try reflexivity; [apply reachable_init|].
  exists s'. split; [exact Hdo|]. exact Hres.
Defined.

(** ** MyRobotSnake: the scan for heads, once more *)

Section scanner_more.
Context `{RobotSnake}.
Variable world : World.
Variable color : Z.

Lemma world_at_Raise px py e : world_at world px py = Raise e → e = IndexError.
Proof.
  unfold world_at, getitem2, mbind, res_bind.
  destruct (getitem (cells world) px) as [col| |] eqn:E1;
    [|intros [= <-]; by eapply getitem_Raise|done].
  intros E2. by eapply getitem_Raise.
Qed.

Lemma world_at_not_Stuck px py : world_at world px py ≠ Stuck.
Proof.
  unfold world_at, getitem2, mbind, res_bind.
  destruct (getitem (cells world) px) as [col| |] eqn:E1;
    [apply getitem_not_Stuck|done|by apply getitem_not_Stuck in E1].
Qed.

Lemma scan_cell_inv heads px py heads' :
  scan_cell world color heads px py = Ok heads' →
  ∃ char c, world_at world px py = Ok (char, c) ∧
    heads' = if bool_decide (char = CH_HEAD)
             then if bool_decide (c = color) then (Some (Pos px py), heads.2)
                  else (heads.1, Some (Pos px py))
             else heads.
Proof.
  unfold scan_cell, mbind, res_bind.
  destruct (world_at world px py) as [[char c]| |]; [|done..].
  intros Hh. exists char, c. split; [done|].
  by repeat case_bool_decide; simplify_eq.
Qed.

Lemma scan_cell_last seen heads px py heads' :
  (∀ a b, seen a b → a < px ∨ (a = px ∧ b < py)) →
  heads_last world color seen heads →
  scan_cell world color heads px py = Ok heads' →
  heads_last world color (λ a b, seen a b ∨ (a = px ∧ b = py)) heads'.
Proof.
  intros Hseen [Hown Hother] (char & c & Hcell & ->)%scan_cell_inv.
  assert (∀ p, seen (x p) (y p) ∨ (x p = px ∧ y p = py) →
            scan_le p (Pos px py)) as Hle.
  { intros p [Hp%Hseen|[Hpx Hpy]]; unfold scan_le; cbn; lia. }
  split; intros [a b]; cbn [x y]; intros Hp Hhead.
  - case_bool_decide as Ehead; [case_bool_decide as Ecolor|]; cbn [fst snd].
    + exists (Pos px py). split; [done|]. by apply (Hle (Pos a b)).
    + destruct Hp as [Hp|[-> ->]]; [by apply (Hown (Pos a b))|].
      destruct Hhead as [_ Hw]. cbn in Hw. rewrite Hcell in Hw. by simplify_eq.
    + destruct Hp as [Hp|[-> ->]]; [by apply (Hown (Pos a b))|].
      destruct Hhead as [_ Hw]. cbn in Hw. rewrite Hcell in Hw. by simplify_eq.
  - case_bool_decide as Ehead; [case_bool_decide as Ecolor|]; cbn [fst snd].
    + destruct Hp as [Hp|[-> ->]]; [by apply (Hother (Pos a b))|].
      destruct Hhead as (_ & c' & Hc' & Hw). cbn in Hw. rewrite Hcell in Hw.
      by simplify_eq.
    + exists (Pos px py). split; [done|]. by apply (Hle (Pos a b)).
    + destruct Hp as [Hp|[-> ->]]; [by apply (Hother (Pos a b))|].
      destruct Hhead as (_ & c' & Hc' & Hw). cbn in Hw. rewrite Hcell in Hw.
      by simplify_eq.
Qed.

Lemma heads_last_iff seen seen' heads :
  (∀ a b, seen' a b → seen a b) →
  heads_last world color seen heads → heads_last world color seen' heads.
Proof.
  intros Hs [Hown Hother]. split; intros p Hp; [apply Hown|apply Hother]; auto.
Qed.

Lemma scan_column_last px k : ∀ b n seen heads heads',
  Z.to_nat n = k →
  (∀ a b', seen a b' → a < px ∨ (a = px ∧ b' < b)) →
  heads_last world color seen heads →
  scan_column world color heads px (seqZ b n) = Ok heads' →
  heads_last world color (λ a b', seen a b' ∨ (a = px ∧ b ≤ b' < b + n)) heads'.
Proof.
  induction k as [|k IH]; intros b n seen heads heads' Hk Hseen Hok.
  - rewrite seqZ_nil by lia. intros [= <-].
    eapply heads_last_iff; [|done]. intros a b' [?|[_ ?]]; [done|lia].
  - rewrite seqZ_cons by lia. cbn. unfold mbind, res_bind.
    destruct (scan_cell world color heads px b) as [heads1| |] eqn:Hcell; [|done..].
    intros Hcol.
    eapply scan_cell_last in Hcell; [|done..].
    eapply (IH (Z.succ b) (Z.pred n)) in Hcol; [| lia | | exact Hcell].
    + eapply heads_last_iff; [|exact Hcol]. cbn.
      intros a b' [?|[-> Hb]]; [auto|].
      destruct (decide (b' = b)) as [->|]; [auto|]. right. lia.
    + cbn. intros a b' [Hs%Hseen|[-> ->]]; lia.
Qed.

Lemma scan_world_last k : ∀ a m seen heads heads',
  Z.to_nat m = k →
  (∀ a' b', seen a' b' → a' < a) →
  heads_last world color seen heads →
  scan_world world color heads (seqZ a m) = Ok heads' →
  heads_last world color
    (λ a' b', seen a' b' ∨ (a ≤ a' < a + m ∧ 0 ≤ b' < SIZE_Y world)) heads'.
Proof.
  induction k as [|k IH]; intros a m seen heads heads' Hk Hseen Hok.
  - rewrite seqZ_nil by lia. intros [= <-].
    eapply heads_last_iff; [|done]. intros a' b' [?|[? _]]; [done|lia].
  - rewrite seqZ_cons by lia. cbn. unfold mbind, res_bind.
    destruct (scan_column world color heads a _) as [heads1| |] eqn:Hcol; [|done..].
    intros Hw.
    eapply (scan_column_last a _ 0 (SIZE_Y world)) in Hcol; [|done| |exact Hok].
    2:{ intros a' b' Hs%Hseen. lia. }
    eapply (IH (Z.succ a) (Z.pred m)) in Hw; [|lia| |exact Hcol].
    + eapply heads_last_iff; [|exact Hw]. cbn.
      intros a' b' [?|[Ha Hb]]; [auto|].
      destruct (decide (a' = a)) as [->|]; [left; right; lia|]. right. lia.
    + cbn. intros a' b' [Hs%Hseen|[-> _]]; lia.
Qed.

Lemma scan_column_Ok px ys : ∀ heads heads',
  scan_column world color heads px ys = Ok heads' →
  ∀ py, py ∈ ys → ∃ cell, world_at world px py = Ok cell.
Proof.
  induction ys as [|b ys IH]; intros heads heads'; cbn.
  - by intros _ py ?%elem_of_nil.
  - unfold mbind, res_bind.
    destruct (scan_cell world color heads px b) as [heads1| |] eqn:Hcell; [|done..].
    intros Hcol py [->|Hpy]%elem_of_cons; [|by eapply IH].
    apply scan_cell_inv in Hcell as (char & c & -> & _). eauto.
Qed.

Lemma scan_world_Ok xs : ∀ heads heads',
  scan_world world color heads xs = Ok heads' →
  ∀ px py, px ∈ xs → 0 ≤ py < SIZE_Y world → ∃ cell, world_at world px py = Ok cell.
Proof.
  induction xs as [|a xs IH]; intros heads heads'; cbn.
  - by intros _ px py ?%elem_of_nil.
  - unfold mbind, res_bind.
    destruct (scan_column world color heads a _) as [heads1| |] eqn:Hcol; [|done..].
    intros Hw px py [->|Hpx]%elem_of_cons Hpy; [|by eapply IH].
    eapply scan_column_Ok; [done|]. apply elem_of_seqZ. lia.
Qed.

Lemma scan_cell_Raise heads px py e :
  scan_cell world color heads px py = Raise e → e = IndexError.
Proof.
  unfold scan_cell, mbind, res_bind.
  destruct (world_at world px py) as [[char c]| |] eqn:Hw;
    [|intros [= <-]; by eapply world_at_Raise|done].
  by repeat case_bool_decide.
Qed.

Lemma scan_column_Raise px ys : ∀ heads e,
  scan_column world color heads px ys = Raise e → e = IndexError.
Proof.
  induction ys as [|b ys IH]; intros heads e; cbn; [done|].
  unfold mbind, res_bind.
  destruct (scan_cell world color heads px b) as [heads1| |] eqn:Hcell;
    [apply IH|intros [= <-]; by eapply scan_cell_Raise|done].
Qed.

Lemma scan_world_Raise xs : ∀ heads e,
  scan_world world color heads xs = Raise e → e = IndexError.
Proof.
  induction xs as [|a xs IH]; intros heads e; cbn; [done|].
  unfold mbind, res_bind.
  destruct (scan_column world color heads a _) as [heads1| |] eqn:Hcol;
    [apply IH|intros [= <-]; by eapply scan_column_Raise|done].
Qed.

(** Several heads.  In a world with a cell at every coordinate of the scan
    [_find_snake_heads] returns.  When the world shows one or more heads in
    the color of the controlled agent, the chain returned for it starts at
    a position that holds such a head and that the scan meets last: every
    head in that color lies in an earlier column, or in the same column at
    an earlier or the same row.  The same holds for the heads in other
    colors and the second chain.  So of several heads of one kind the last
    one is kept, and two opponents are tracked as one, the last. *)
Theorem _find_snake_heads_last :
  (covered world → ∃ chains, _find_snake_heads world color = Ok chains) ∧
  ∀ chains, _find_snake_heads world color = Ok chains →
    ((∃ p, own_head world color p) →
       ∃ q, chains !! 0%nat = Some [Some q] ∧ own_head world color q ∧
            ∀ p, own_head world color p → scan_le p q) ∧
    ((∃ p, other_head world color p) →
       ∃ q, chains !! 1%nat = Some [Some q] ∧ other_head world color q ∧
            ∀ p, other_head world color p → scan_le p q).
Proof.
  split.
  { intros Hcov.
    destruct (_find_snake_heads_spec world color Hcov) as (ph & oh & -> & _).
    eauto. }
  intros chains Hret.
  assert (covered world) as Hcov.
  { intros px py [Hx Hy]. revert Hret.
    unfold _find_snake_heads, mbind, res_bind.
    destruct (scan_world world color (None, None) _) as [heads| |] eqn:Hscan;
      [|done..].
    intros _. eapply scan_world_Ok; [done| |done]. apply elem_of_seqZ. lia. }
  destruct (_find_snake_heads_spec world color Hcov)
    as (ph & oh & Hspec & Hph & Hoh).
  revert Hret Hspec. unfold _find_snake_heads, mbind, res_bind.
  destruct (scan_world world color (None, None) _) as [[ph' oh']| |] eqn:Hscan;
    [|done..].
  eapply (scan_world_last _ 0 (SIZE_X world) (λ _ _, False)) in Hscan;
    [|done|done|by split].
  destruct Hscan as [Hown Hother]. cbn [fst snd] in *.
  intros Hchains Hspec.
  assert (ph' = ph ∧ oh' = oh) as [-> ->].
  { destruct oh', oh; by simplify_eq. }
  clear Hspec.
  assert (∀ p, own_head world color p → ∃ q, ph = Some q ∧ scan_le p q) as Hown'.
  { intros p Hp. apply Hown; [|done]. right. destruct Hp as [[? ?] _]. lia. }
  assert (∀ p, other_head world color p → ∃ q, oh = Some q ∧ scan_le p q)
    as Hother'.
  { intros p Hp. apply Hother; [|done]. right. destruct Hp as [[? ?] _]. lia. }
  split; intros [p0 Hp0].
  - destruct (Hown' p0 Hp0) as (q & -> & _). exists q. split_and!.
    + by destruct oh; simplify_eq.
    + done.
    + intros p Hp. destruct (Hown' p Hp) as (q' & Hq' & Hle). by simplify_eq.
  - destruct (Hother' p0 Hp0) as (q & -> & _). exists q. split_and!.
    + by simplify_eq.
    + done.
    + intros p Hp. destruct (Hother' p Hp) as (q' & Hq' & Hle). by simplify_eq.
Qed.

Lemma scan_cell_not_Stuck heads px py : scan_cell world color heads px py ≠ Stuck.
Proof.
  unfold scan_cell, mbind, res_bind.
  destruct (world_at world px py) as [[char c]| |] eqn:Hw;
    [by repeat case_bool_decide|done|by apply world_at_not_Stuck in Hw].
Qed.

Lemma scan_column_not_Stuck px ys : ∀ heads,
  scan_column world color heads px ys ≠ Stuck.
Proof.
  induction ys as [|b ys IH]; intros heads; cbn; [done|].
  unfold mbind, res_bind.
  destruct (scan_cell world color heads px b) as [heads1| |] eqn:Hcell;
    [apply IH|done|by apply scan_cell_not_Stuck in Hcell].
Qed.

Lemma scan_world_not_Stuck xs : ∀ heads,
  scan_world world color heads xs ≠ Stuck.
Proof.
  induction xs as [|a xs IH]; intros heads; cbn; [done|].
  unfold mbind, res_bind.
  destruct (scan_column world color heads a _) as [heads1| |] eqn:Hcol;
    [apply IH|done|by apply scan_column_not_Stuck in Hcol].
Qed.

(** The scan reads every cell.  [_find_snake_heads] returns if and only if
    the world has a cell at every coordinate below its two sizes; it has no
    early exit, so one missing cell makes it raise, and what it raises is
    [IndexError].  Its loops are bounded: it always returns or raises. *)
Theorem _find_snake_heads_returns_iff :
  ((∃ chains, _find_snake_heads world color = Ok chains) ↔ covered world) ∧
  (∀ e, _find_snake_heads world color = Raise e → e = IndexError) ∧
  _find_snake_heads world color ≠ Stuck.
Proof.
  split; [split|split]; [| | |
    unfold _find_snake_heads, mbind, res_bind;
    destruct (scan_world world color (None, None) _) as [[ph oh]| |] eqn:Hscan;
      [by destruct oh|done|by apply scan_world_not_Stuck in Hscan]].
  - intros [chains Hret] px py [Hx Hy]. revert Hret.
    unfold _find_snake_heads, mbind, res_bind.
    destruct (scan_world world color (None, None) _) as [heads| |] eqn:Hscan;
      [|done..].
    intros _. eapply scan_world_Ok; [done| |done]. apply elem_of_seqZ. lia.
  - intros Hcov.
    destruct (_find_snake_heads_spec world color Hcov) as (ph & oh & -> & _).
    eauto.
  - intros e. unfold _find_snake_heads, mbind, res_bind.
    destruct (scan_world world color (None, None) _) as [[ph oh]| |] eqn:Hscan;
      [by destruct oh|intros [= <-]; by eapply scan_world_Raise|done].
Qed.

End scanner_more.

Lemma _find_snake_heads_last_witness :
  @_find_snake_heads snakepit crowded_world 1
    = Ok [[Some (Pos 3 2)]; [Some (Pos 4 0)]] ∧
  scan_le (Pos 1 1) (Pos 3 2) ∧ scan_le (Pos 0 4) (Pos 4 0).
Proof.
  destruct (_find_snake_heads_last (H:=snakepit) crowded_world 1) as [_ Hlast].
  destruct (Hlast [[Some (Pos 3 2)]; [Some (Pos 4 0)]]) as [Hown Hother];
    [reflexivity|].
  destruct Hown as (q & Hq & _ & Hown).
  { exists (Pos 1 1). split; [unfold scanned; cbn; lia|reflexivity]. }
  destruct Hother as (r & Hr & _ & Hother).
  { exists (Pos 0 4). split; [unfold scanned; cbn; lia|].
    exists 2. split; [lia|reflexivity]. }
  injection Hq as <-. injection Hr as <-.
  split_and!.
  - reflexivity.
  - apply Hown. split; [unfold scanned; cbn; lia|reflexivity].
  - apply Hother. split; [unfold scanned; cbn; lia|].
    exists 2. split; [lia|reflexivity].
Defined.

(** ** MyRobotSnake: following a snake *)

Section snake_parts_facts.
Context `{RobotSnake}.
Variable world : World.
Variable color : Z.

Lemma adjacent_neighbours p q :
  adjacent p q ↔
  (x q, y q) ∈ [(x p + 1, y p); (x p - 1, y p); (x p, y p + 1); (x p, y p - 1)].
Proof.
  unfold adjacent. rewrite !elem_of_cons, elem_of_nil. split.
  - intros Hd.
    assert ((x q = x p + 1 ∧ y q = y p) ∨ (x q = x p - 1 ∧ y q = y p) ∨
            (x q = x p ∧ y q = y p + 1) ∨ (x q = x p ∧ y q = y p - 1)) as Hc by lia.
    destruct Hc as [[-> ->]|[[-> ->]|[[-> ->]|[-> ->]]]]; auto.
  - intros [Hq|[Hq|[Hq|[Hq|[]]]]]; injection Hq as -> ->; lia.
Qed.

Lemma _find_snake_rest_loop_S fuel is_player snake p prev :
  _find_snake_rest_loop world color (S fuel) is_player snake (Some p) (Some prev) =
  match next_loop world color is_player (Some prev)
          [(x p + 1, y p); (x p - 1, y p); (x p, y p + 1); (x p, y p - 1)] with
  | Ok (Some q) =>
      _find_snake_rest_loop world color fuel is_player (snake ++ [Some q])
        (Some q) (Some p)
  | Ok None => Ok snake
  | Raise e => Raise e
  | Stuck => Stuck
  end.
Proof.
  change (_find_snake_rest_loop world color (S fuel) is_player snake (Some p) (Some prev))
    with (position' ← next world color is_player (Some p) (Some prev);
          match position' with
          | None => Ok snake
          | Some _ => _find_snake_rest_loop world color fuel is_player
                        (snake ++ [position']) position' (Some p)
          end).
  unfold next, _neighbours, mbind, res_bind.
  by destruct (next_loop _ _ _ _ _) as [[q|]| |].
Qed.

Lemma part_test_spec is_player char c :
  (bool_decide (char = CH_BODY) || bool_decide (char = CH_TAIL))
    && bool_decide (bool_decide (c = color) = is_player) = true ↔
  (char = CH_BODY ∨ char = CH_TAIL) ∧ (c = color ↔ is_player = true).
Proof.
  rewrite andb_true_iff, orb_true_iff, !bool_decide_eq_true.
  split; intros [Hchar Hcol]; (split; [done|]).
  - rewrite <- Hcol. by rewrite bool_decide_eq_true.
  - destruct is_player.
    + apply bool_decide_eq_true. by apply Hcol.
    + apply bool_decide_eq_false. intros Hc%Hcol. done.
Qed.

Lemma next_loop_cons is_player prev px py ns :
  next_loop world color is_player (Some prev) ((px, py) :: ns) =
  if bool_decide (px ≠ x prev ∨ py ≠ y prev) then
    match world_at world px py with
    | Ok (char, c) =>
        if (bool_decide (char = CH_BODY) || bool_decide (char = CH_TAIL))
           && bool_decide (bool_decide (c = color) = is_player)
        then Ok (Some (Pos px py))
        else next_loop world color is_player (Some prev) ns
    | Raise e => Raise e
    | Stuck => Stuck
    end
  else next_loop world color is_player (Some prev) ns.
Proof.
  cbn. unfold mbind, res_bind. case_bool_decide; [|done].
  by destruct (world_at world px py) as [[char c]| |].
Qed.

Lemma passed_cons is_player prev px py ns :
  passed world color is_player prev (px, py) →
  next_loop world color is_player (Some prev) ((px, py) :: ns) =
  next_loop world color is_player (Some prev) ns.
Proof.
  rewrite next_loop_cons. intros [[Hx Hy]|(char & c & Hw & Hpart)]; cbn in *.
  - rewrite bool_decide_eq_false_2; [done|]. intros [?|?]; congruence.
  - rewrite Hw. case_bool_decide; [|done].
    destruct (_ && _) eqn:Htest; [|done].
    by apply part_test_spec in Htest.
Qed.

Lemma next_loop_None_iff is_player prev ns :
  next_loop world color is_player (Some prev) ns = Ok None ↔
  Forall (passed world color is_player prev) ns.
Proof.
  induction ns as [|[px py] ns IH].
  - split; [by constructor|done].
  - split.
    + rewrite next_loop_cons. intros Hnext.
      assert (passed world color is_player prev (px, py) ∧
              next_loop world color is_player (Some prev) ns = Ok None) as [Hp Hn].
      { case_bool_decide as Hne.
        - destruct (world_at world px py) as [[char c]| |] eqn:Hw; [|done..].
          destruct (_ && _) eqn:Htest; [done|].
          split; [|done]. right. exists char, c. split; [done|].
          intros Hpart%part_test_spec. congruence.
        - split; [|done]. left. cbn.
          destruct (decide (px = x prev)); [|by destruct Hne; left].
          destruct (decide (py = y prev)); [done|by destruct Hne; right]. }
      constructor; [done|by apply IH].
    + intros [Hp Hn]%Forall_cons. rewrite passed_cons by done. by apply IH.
Qed.

Lemma next_loop_Some_iff is_player prev ns q :
  next_loop world color is_player (Some prev) ns = Ok (Some q) ↔
  ∃ i, ns !! i = Some (x q, y q) ∧
       Forall (passed world color is_player prev) (take i ns) ∧
       q ≠ prev ∧ part_cell world color is_player q.
Proof.
  induction ns as [|[px py] ns IH].
  - split; [done|]. by intros (i & Hi & _).
  - split.
    + rewrite next_loop_cons. intros Hnext.
      assert ((q = Pos px py ∧ q ≠ prev ∧ part_cell world color is_player q) ∨
              (passed world color is_player prev (px, py) ∧
               next_loop world color is_player (Some prev) ns = Ok (Some q)))
        as [(-> & Hne & Hpart)|[Hp Hn]].
      { case_bool_decide as Hne.
        - destruct (world_at world px py) as [[char c]| |] eqn:Hw; [|done..].
          destruct (_ && _) eqn:Htest.
          + left. injection Hnext as <-. split_and!; [done| |].
            * intros <-. cbn in Hne. by destruct Hne.
            * exists char, c. split; [done|]. by apply part_test_spec.
          + right. split; [|done]. right. exists char, c. split; [done|].
            intros Hpart%part_test_spec. congruence.
        - right. split; [|done]. left. cbn.
          destruct (decide (px = x prev)); [|by destruct Hne; left].
          destruct (decide (py = y prev)); [done|by destruct Hne; right]. }
      * exists 0%nat. cbn. split_and!; [done|constructor|done..].
      * apply IH in Hn as (i & Hi & Hbefore & Hne & Hpart).
        exists (S i). cbn. split_and!; [done|by constructor|done..].
    + intros ([|i] & Hi & Hbefore & Hne & Hpart).
      * cbn in Hi. injection Hi as -> ->. rewrite next_loop_cons.
        destruct Hpart as (char & c & Hw & Hpart).
        rewrite bool_decide_eq_true_2.
        2:{ destruct q as [qx qy], prev as [ax ay]; cbn.
            destruct (decide (qx = ax)) as [->|]; [|by left].
            destruct (decide (qy = ay)) as [->|]; [done|by right]. }
        rewrite Hw. apply part_test_spec in Hpart. rewrite Hpart.
        by destruct q.
      * cbn in Hi, Hbefore. apply Forall_cons in Hbefore as [Hp Hbefore].
        rewrite passed_cons by done. apply IH. by exists i.
Qed.

Lemma is_walk_next is_player prev p rest :
  is_walk world color is_player prev p rest →
  next_loop world color is_player (Some prev) (neighbours p) = Ok (head rest).
Proof.
  destruct rest as [|q rest].
  - intros Hw. apply next_loop_None_iff. exact Hw.
  - intros [Hq _]. apply next_loop_Some_iff. exact Hq.
Qed.

Lemma _find_snake_rest_loop_walk is_player fuel : ∀ snake p prev out,
  _find_snake_rest_loop world color fuel is_player snake (Some p) (Some prev) = Ok out ↔
  ∃ rest, out = snake ++ (Some <$> rest) ∧ (length rest < fuel)%nat ∧
          is_walk world color is_player prev p rest.
Proof.
  induction fuel as [|fuel IH]; intros snake p prev out.
  { split; [done|]. intros (rest & _ & Hlen & _). lia. }
  rewrite _find_snake_rest_loop_S. fold (neighbours p).
  split.
  - destruct (next_loop _ _ _ _ _) as [[q|]| |] eqn:Hnext; [| |done..].
    + intros (rest & -> & Hlen & Hwalk)%IH.
      exists (q :: rest). split_and!.
      * by rewrite <- app_assoc.
      * cbn. lia.
      * split; [|done]. by apply next_loop_Some_iff.
    + intros [= <-]. exists []. split_and!.
      * by rewrite app_nil_r.
      * cbn. lia.
      * by apply next_loop_None_iff.
  - intros (rest & -> & Hlen & Hwalk).
    rewrite (is_walk_next _ _ _ _ Hwalk).
    destruct rest as [|q rest]; cbn.
    + by rewrite app_nil_r.
    + apply IH. exists rest. cbn in Hlen, Hwalk.
      split_and!; [by rewrite <- app_assoc|lia|by destruct Hwalk].
Qed.

Lemma is_walk_path is_player : ∀ rest prev p,
  is_walk world color is_player prev p rest →
  is_path world color is_player prev p rest.
Proof.
  induction rest as [|q rest IH]; intros prev p; cbn.
  - intros Hall q Hq%adjacent_neighbours Hne.
    eapply Forall_forall in Hall; [|exact Hq].
    destruct Hall as [[Hx Hy]|(char & c & Hw & Hnot)]; cbn in *.
    + destruct Hne. destruct q, prev; cbn in *. congruence.
    + intros (char' & c' & Hw' & Hpart). rewrite Hw in Hw'.
      injection Hw' as <- <-. done.
  - intros [(i & Hi & _ & Hne & Hpart) Hwalk].
    split_and!; [|done|done|by apply IH].
    apply adjacent_neighbours. by eapply list_elem_of_lookup_2.
Qed.

(** Following the snake.  [_find_snake_rest] follows the snake from its head: at each
    position it takes the first neighbour, in the order right, left, below,
    above, that is not the position before and whose cell holds a body or a
    tail of the wanted color, and it stops where all four neighbours are
    passed over.  It returns exactly when this walk ends, within the rounds
    it is given; what it returns is then the head followed by the walk.
    Each position of the walk is one step from the one before it, differs
    from the one before that, and holds a part of the snake; at the end no
    such neighbour is left. *)
Theorem _find_snake_rest_path fuel head is_player snake :
  (_find_snake_rest world color fuel (Some head) is_player = Ok snake ↔
   ∃ rest, snake = Some <$> (head :: rest) ∧ (length rest < fuel)%nat ∧
           is_walk world color is_player head head rest) ∧
  (∀ rest, is_walk world color is_player head head rest →
           is_path world color is_player head head rest).
Proof.
  split; [|intros rest; apply is_walk_path].
  unfold _find_snake_rest. by rewrite _find_snake_rest_loop_walk.
Qed.

Lemma update_loop_spec char_to_find old_color ps :
  match update_loop world char_to_find old_color ps with
  | Ok (Some q) =>
      ∃ i, ps !! i = Some (x q, y q) ∧
        world_at world (x q) (y q) = Ok (char_to_find, old_color) ∧
        ∀ j c, (j < i)%nat → ps !! j = Some c →
          ∃ cell, world_at world c.1 c.2 = Ok cell ∧ cell ≠ (char_to_find, old_color)
  | Ok None =>
      ∀ c, c ∈ ps →
        ∃ cell, world_at world c.1 c.2 = Ok cell ∧ cell ≠ (char_to_find, old_color)
  | Raise e =>
      e = IndexError ∧ ∃ c, c ∈ ps ∧ world_at world c.1 c.2 = Raise IndexError
  | Stuck => False
  end.
Proof.
  induction ps as [|[px py] ps IH]; cbn.
  - by intros c ?%elem_of_nil.
  - unfold mbind, res_bind.
    destruct (world_at world px py) as [[char c]| |] eqn:Hw.
    + destruct (bool_decide (char = char_to_find) && bool_decide (c = old_color))
        eqn:Hfound.
      * apply andb_true_iff in Hfound
          as [->%bool_decide_eq_true ->%bool_decide_eq_true].
        exists 0%nat. cbn. split_and!; [done..|]. intros j c' Hj. lia.
      * assert ((char, c) ≠ (char_to_find, old_color)) as Hne.
        { intros [= -> ->].
          by rewrite !bool_decide_eq_true_2 in Hfound. }
        destruct (update_loop world char_to_find old_color ps) as [[q|]| |].
        -- destruct IH as (i & Hi & Hq & Hbefore).
           exists (S i). split_and!; [done..|].
           intros [|j] c' Hj; cbn.
           ++ intros [= <-]. cbn. eauto.
           ++ apply Hbefore. lia.
        -- intros c' [->|Hc']%elem_of_cons; [cbn; eauto|by apply IH].
        -- destruct IH as (-> & c' & Hc' & Hraise).
           split; [done|]. exists c'. split; [by right|done].
        -- done.
    + pose proof (world_at_Raise world _ _ _ Hw) as ->.
      split; [done|]. exists (px, py). split; [by left|done].
    + by apply world_at_not_Stuck in Hw.
Qed.

(** [_update_snake_part] tries five cells in a fixed order, the neighbours
    right, left, below and above the old position and then the old position
    itself, and returns the first whose cell holds the wanted symbol in the
    wanted color; every cell tried before it holds something else.  It
    returns [None] when none of the five does.  It raises when a cell it
    tries is not in the world, which is an [IndexError]; it never looks
    beyond the first match. *)
Theorem _update_snake_part_first p char_to_find old_color :
  match _update_snake_part world (Some p) char_to_find old_color with
  | Ok (Some q) =>
      ∃ i, candidates p !! i = Some (x q, y q) ∧
        world_at world (x q) (y q) = Ok (char_to_find, old_color) ∧
        ∀ j c, (j < i)%nat → candidates p !! j = Some c →
          ∃ cell, world_at world c.1 c.2 = Ok cell ∧ cell ≠ (char_to_find, old_color)
  | Ok None =>
      ∀ c, c ∈ candidates p →
        ∃ cell, world_at world c.1 c.2 = Ok cell ∧ cell ≠ (char_to_find, old_color)
  | Raise e =>
      e = IndexError ∧ ∃ c, c ∈ candidates p ∧ world_at world c.1 c.2 = Raise IndexError
  | Stuck => False
  end.
Proof. apply (update_loop_spec char_to_find old_color (candidates p)). Qed.

(** The last column.  For a position in the last column of the world the
    first neighbour that is tried, the one to the right, is not a cell:
    [_find_snake_rest] and [_update_snake_part] raise [IndexError] at once,
    whatever the world shows around the position. *)
Theorem last_column_raises p :
  Z.of_nat (length (cells world)) ≤ x p + 1 →
  (∀ fuel is_player,
     _find_snake_rest world color (S fuel) (Some p) is_player = Raise IndexError) ∧
  (∀ char_to_find old_color,
     _update_snake_part world (Some p) char_to_find old_color = Raise IndexError).
Proof.
  intros Hlast.
  assert (world_at world (x p + 1) (y p) = Raise IndexError) as Hw.
  { unfold world_at, getitem2, getitem, py_index.
    rewrite !bool_decide_eq_false_2 by lia. done. }
  split.
  - intros fuel is_player. unfold _find_snake_rest.
    rewrite _find_snake_rest_loop_S. cbn [next_loop or_raise].
    unfold mbind, res_bind. rewrite bool_decide_eq_true_2 by (left; lia).
    by rewrite Hw.
  - intros char_to_find old_color. unfold _update_snake_part. cbn.
    unfold mbind, res_bind. by rewrite Hw.
Qed.

End snake_parts_facts.

Lemma _find_snake_rest_path_witness :
  @_find_snake_rest snakepit snake_world 1 3 (Some (Pos 1 1)) true
    = Ok [Some (Pos 1 1); Some (Pos 2 1); Some (Pos 3 1)].
Proof.
  apply (_find_snake_rest_path (H:=snakepit) snake_world 1 3 (Pos 1 1) true).
  exists [Pos 2 1; Pos 3 1]. split_and!; [reflexivity|cbn; lia|].
  assert (∀ prev c char col,
            world_at snake_world c.1 c.2 = Ok (char, col) →
            char ≠ "*"%string → char ≠ "$"%string →
            passed (H:=snakepit) snake_world 1 true prev c) as Hfree.
  { intros prev c char col Hw Hb Ht. right. exists char, col.
    split; [exact Hw|]. intros [[Hc|Hc] _]; [by apply Hb|by apply Ht]. }
  assert (∀ q char, world_at snake_world (x q) (y q) = Ok (char, 1) →
            char = "*"%string ∨ char = "$"%string →
            part_cell (H:=snakepit) snake_world 1 true q) as Hpart.
  { intros q char Hw Hc. exists char, 1. split; [exact Hw|]. split; [exact Hc|done]. }
  split; [|split].
  - exists 0%nat. split_and!; [reflexivity|constructor|done|].
    apply (Hpart _ "*"%string); [reflexivity|by left].
  - exists 0%nat. split_and!; [reflexivity|constructor|done|].
    apply (Hpart _ "$"%string); [reflexivity|by right].
  - constructor; [|constructor; [|constructor; [|constructor; [|constructor]]]].
    + apply (Hfree _ _ " "%string 0); [reflexivity|done..].
    + by left.
    + apply (Hfree _ _ " "%string 0); [reflexivity|done..].
    + apply (Hfree _ _ " "%string 0); [reflexivity|done..].
Defined.

(** The coiled snake.  From the head at [(1, 1)] the loop goes to the body
    at [(2, 1)], to the tail at [(3, 1)], then through [(3, 2)] and
    [(2, 2)] back to [(2, 1)], and around again: however many rounds it is
    given, it has not returned. *)
Lemma coil_rounds fuel snake :
  @_find_snake_rest_loop snakepit coil_world 1 fuel true snake
    (Some (Pos 2 1)) (Some (Pos 2 2)) = Stuck ∧
  @_find_snake_rest_loop snakepit coil_world 1 fuel true snake
    (Some (Pos 3 1)) (Some (Pos 2 1)) = Stuck ∧
  @_find_snake_rest_loop snakepit coil_world 1 fuel true snake
    (Some (Pos 3 2)) (Some (Pos 3 1)) = Stuck ∧
  @_find_snake_rest_loop snakepit coil_world 1 fuel true snake
    (Some (Pos 2 2)) (Some (Pos 3 2)) = Stuck.
Proof.
  revert snake. induction fuel as [|fuel IH]; intros snake; [done|].
  rewrite !_find_snake_rest_loop_S.
  change (next_loop coil_world 1 true (Some (Pos 2 2)) _) with (Ok (Some (Pos 3 1))).
  change (next_loop coil_world 1 true (Some (Pos 2 1)) _) with (Ok (Some (Pos 3 2))).
  change (next_loop coil_world 1 true (Some (Pos 3 1)) _) with (Ok (Some (Pos 2 2))).
  change (next_loop coil_world 1 true (Some (Pos 3 2)) _) with (Ok (Some (Pos 2 1))).
  cbv beta iota.
  split_and!; apply IH.
Qed.

Lemma coil_never_returns fuel :
  @_find_snake_rest snakepit coil_world 1 fuel (Some (Pos 1 1)) true = Stuck.
Proof.
  unfold _find_snake_rest.
  destruct fuel as [|[|fuel]]; [done..|].
  rewrite _find_snake_rest_loop_S.
  change (next_loop coil_world 1 true (Some (Pos 1 1)) _) with (Ok (Some (Pos 2 1))).
  cbv beta iota. rewrite _find_snake_rest_loop_S.
  change (next_loop coil_world 1 true (Some (Pos 1 1)) _) with (Ok (Some (Pos 3 1))).
  cbv beta iota. apply coil_rounds.
Qed.

Lemma last_column_raises_witness :
  @_update_snake_part empty_world (Some (Pos 2 1)) "@" 1 = Raise IndexError.
Proof.
  destruct (last_column_raises (H:=snakepit) empty_world 1 (Pos 2 1)) as [_ Hup].
  - cbn. lia.
  - apply Hup.
Defined.

(** ** The rounds of UCT, step by step *)

Section uct_more.
Context `{RobotSnake} {V : Type} (ucb1 : Z → Z → Z → V) (gtb : V → V → bool).
Variable rand : nat → nat.

Lemma outcome_and {A} (r : res A * Search) (Q1 Q2 : A → Search → Prop) :
  outcome r Q1 → outcome r Q2 → outcome r (λ a s, Q1 a s ∧ Q2 a s).
Proof. by destruct r as [[a|e|] s]. Qed.

(** The selection loop ends at a node that has an untried move or no
    child. *)
Lemma select_phase_stops fuel : ∀ node s,
  tree_ok None (tree s) → (node < length (tree s))%nat →
  (length (tree s) - node ≤ fuel)%nat →
  outcome (select_phase ucb1 gtb fuel node s)
    (λ node' s', tree s' = tree s ∧ stops (tree s) node').
Proof.
  induction fuel as [|fuel IH]; intros node s Hok Hnode Hfuel; [lia|].
  destruct (lookup_lt_is_Some_2 _ _ Hnode) as [n Hn].
  cbn [select_phase].
  eapply outcome_bind; [by apply outcome_node_at|]. intros ? ? [-> ->].
  destruct (bool_decide (Node.untriedMoves n = []) &&
            bool_decide (Node.childNodes n ≠ [])) eqn:Econd.
  2:{ apply outcome_ret. split; [done|]. exists n. split; [done|].
      apply andb_false_iff in Econd as [Hu%bool_decide_eq_false|Hc%bool_decide_eq_false];
        [by left|right].
      by destruct (Node.childNodes n); [|destruct Hc]. }
  apply andb_prop in Econd as [Hu%bool_decide_eq_true_1 Hc%bool_decide_eq_true_1].
  destruct (tree_ok_children _ _ _ Hok Hn) as [Hcs Hv].
  destruct (uct_select_child_returns ucb1 gtb (tree s) n (Hv Hc) Hc Hcs)
    as (c & Hsel & Hcin).
  destruct (tree_ok_child _ _ _ c Hok Hn Hcin) as (cn & Hcn & Hlt & _ & _ & [m Hm] & _).
  eapply outcome_bind; [apply outcome_get|]. intros ? ? [-> ->].
  eapply outcome_bind; [by apply outcome_lift_Ok|].
  cbn beta. intros ? ? [-> ->].
  eapply outcome_bind; [by apply outcome_lift_Ok|]. cbn beta. intros ? ? [-> ->].
  eapply outcome_bind; [by apply outcome_node_at|]. intros ? ? [-> ->].
  eapply outcome_bind; [apply outcome_lift_Ok; by rewrite Hm|].
  cbn beta. intros ? ? [-> ->].
  eapply outcome_bind; [apply outcome_do_move|]. intros _ s1 [Ht1 _].
  pose proof (lookup_lt_Some _ _ _ Hcn) as Hclt.
  eapply outcome_weaken.
  - apply IH; rewrite Ht1; [exact Hok|exact Hclt|lia].
  - cbn beta. intros node' s'. rewrite Ht1. done.
Qed.

(** The expansion step, in full. *)
Lemma expand_grown node s n :
  tree s !! node = Some n →
  outcome (expand rand node s) (λ node' s', grown (tree s) node (tree s') node').
Proof.
  intros Hn. unfold expand.
  eapply outcome_bind; [by apply outcome_node_at|]. intros ? ? [-> ->].
  destruct (Node.untriedMoves n) as [|m0 ms] eqn:Eu.
  { apply outcome_ret. left. split; [done|]. split; [done|]. by exists n. }
  rewrite <-Eu.
  eapply outcome_bind; [apply outcome_choice|]. intros m s1 [Hm Ht1].
  eapply outcome_bind; [apply outcome_do_move|]. intros _ s2 [Ht2 _].
  rewrite Ht1 in Ht2. clear dependent s1.
  unfold add_child.
  eapply outcome_bind; [apply outcome_get|]. intros ? ? [-> ->].
  eapply outcome_bind.
  { apply outcome_lift.
    - unfold Node_init. intros e.
      destruct (get_moves_outcome (state s2)) as [[l ->]| ->]; [done|].
      intros [= <-]. by left.
    - unfold Node_init.
      by destruct (get_moves_outcome (state s2)) as [[l ->]| ->]. }
  cbn beta. intros new ? [Hnew ->].
  eapply outcome_bind; [apply outcome_modify|]. intros _ ? ->.
  eapply outcome_bind.
  { apply outcome_node_at. cbn. rewrite Ht2. by apply lookup_app_l_Some. }
  intros ? ? [-> ->].
  destruct (list_remove_Ok m (Node.untriedMoves n) Hm) as [um Hum].
  eapply outcome_bind; [by apply outcome_lift_Ok|]. cbn beta. intros ? ? [-> ->].
  eapply outcome_bind; [apply outcome_modify|]. intros _ ? ->.
  apply outcome_ret. cbn. rewrite Ht2. right.
  exists n, m, um, new, (state s2). by split_and!.
Qed.

Lemma grown_expanded t node t' node' :
  grown t node t' node' → expanded t node t' node'.
Proof.
  intros [?|(n & m & um & new & st & Hn & Hm & Hum & Hnew & -> & ->)]; [by left|].
  right. exists n, m, um, new. split_and!; try done.
  all: unfold Node_init in Hnew;
    destruct (get_moves st); cbn in Hnew; by simplify_eq.
Qed.

(** One round of the loop of [UCT], as its three steps on the arena: the
    selection ends at [node], the expansion turns the arena [t] into [t1]
    and descends to [node'], the back-propagation turns [t1] into the arena
    the round leaves. *)
Lemma iteration_steps rootstate maxdepth k s :
  search_ok k (tree s) → 0 ≤ k →
  outcome (iteration ucb1 gtb rand rootstate maxdepth s)
    (λ _ s', ∃ node t1 node',
       stops (tree s) node ∧ grown (tree s) node t1 node' ∧
       bumped t1 node' (tree s') ∧ search_ok (k + 1) (tree s')).
Proof.
  intros Hsok Hk0.
  eapply outcome_weaken.
  { apply outcome_and; [|by apply (iteration_spec ucb1 gtb rand rootstate maxdepth k s)].
    instantiate (1 := λ _ s', ∃ node t1 node',
       stops (tree s) node ∧ grown (tree s) node t1 node' ∧
       bumped t1 node' (tree s')).
    destruct Hsok as [Hok (root & Hroot & Hk & Hopen)]. unfold iteration.
    eapply outcome_bind; [apply outcome_modify|]. intros _ ? ->.
    eapply outcome_bind; [apply outcome_get|]. intros ? ? [-> ->].
    cbn [tree set_state].
    eapply outcome_bind.
    { apply select_phase_stops; cbn [tree set_state];
        [done|by eapply lookup_lt_Some|lia]. }
    cbn [tree set_state]. intros node s2 (Ht2 & Hstop).
    pose proof Hstop as (n & Hn & _).
    eapply outcome_bind; [apply (expand_grown node s2 n); by rewrite Ht2|].
    rewrite Ht2. intros node' s3 Hexp.
    eapply outcome_bind; [apply rollout_spec|]. intros [] s4 Ht4. cbn beta in Ht4.
    eapply outcome_bind; [apply outcome_get|]. intros ? ? [-> ->].
    destruct (expanded_tree_ok _ _ _ _ Hok (grown_expanded _ _ _ _ Hexp))
      as (fresh & Hfresh & Hok3 & Hnode').
    eapply outcome_weaken.
    { apply backpropagate_spec; rewrite Ht4;
        [by eapply tree_ok_parents_below|done|done]. }
    cbn beta. rewrite Ht4. intros [] s5 Hb.
    by exists node, (tree s3), node'. }
  cbn beta. intros _ s' [(node & t1 & node' & ? & ? & ?) [? _]].
  by exists node, t1, node'.
Qed.

(** What every round keeps, the loop keeps: a property [I] of the number
    of rounds and the arena that each round carries from [j] to [j + 1]
    holds, after [n] rounds more, of [j + n]. *)
Lemma iterations_inv (I : nat → list Node → Prop) rootstate maxdepth :
  (∀ j t node t1 node' t',
     search_ok (Z.of_nat j) t → I j t → stops t node → grown t node t1 node' →
     bumped t1 node' t' → I (S j) t') →
  ∀ n j s,
    search_ok (Z.of_nat j) (tree s) → I j (tree s) →
    outcome (iterations ucb1 gtb rand rootstate maxdepth n s)
      (λ _ s', I (j + n)%nat (tree s')).
Proof.
  intros Hstep. induction n as [|n IH]; intros j s Hok HI.
  { apply outcome_ret. by rewrite Nat.add_0_r. }
  cbn [iterations].
  eapply outcome_bind; [apply iteration_steps; [done|lia]|].
  cbn beta. intros _ s1 (node & t1 & node' & Hstop & Hgrown & Hb & Hok1).
  replace (Z.of_nat j + 1) with (Z.of_nat (S j)) in Hok1 by lia.
  eapply outcome_weaken; [apply (IH (S j)); [done|by eapply Hstep]|].
  cbn beta. intros _ s' HI'.
  by replace (j + S n)%nat with (S j + n)%nat by lia.
Qed.

Lemma UCT_tree_inv (I : nat → list Node → Prop) rootstate itermax maxdepth t :
  (∀ j t node t1 node' t',
     search_ok (Z.of_nat j) t → I j t → stops t node → grown t node t1 node' →
     bumped t1 node' t' → I (S j) t') →
  (∀ root, Node_init None None rootstate = Ok root → I 0%nat [root]) →
  UCT_tree ucb1 gtb rand rootstate itermax maxdepth = Ok t →
  I (Z.to_nat itermax) t.
Proof.
  intros Hstep Hinit. unfold UCT_tree.
  destruct (Node_init None None rootstate) as [root| |] eqn:Hroot; [|done..].
  cbn.
  pose proof (iterations_inv I rootstate maxdepth Hstep (Z.to_nat itermax) 0
                (mkSearch [root] rootstate 0)
                (Node_init_ok _ _ Hroot) (Hinit _ eq_refl)) as Hit.
  destruct (iterations _ _ _ _ _ _ _) as [[u| |] s']; cbn in Hit; [|done..].
  by intros [= <-].
Qed.

End uct_more.

(** ** The moves of the nodes *)

Section uct_moves.
Context `{RobotSnake} {V : Type} (ucb1 : Z → Z → Z → V) (gtb : V → V → bool).
Variable rand : nat → nat.

Lemma list_remove_perm m l um : list_remove m l = Ok um → l ≡ₚ m :: um.
Proof.
  revert um. induction l as [|a l IH]; intros um; cbn; [done|].
  case_decide as Ea; [by intros [= <-]; subst|].
  unfold mbind, res_bind.
  destruct (list_remove m l) as [um'| |]; [|done..].
  intros [= <-]. rewrite (IH um' eq_refl). apply Permutation_swap.
Qed.

Lemma bumped_lookup t node t' i n' :
  bumped t node t' → t' !! i = Some n' → ∃ n, t !! i = Some n ∧ shape n' = shape n.
Proof.
  intros [Hlen Hb] Hi.
  destruct (lookup_lt_is_Some_2 t i) as [n Hn].
  { rewrite <- Hlen. by eapply lookup_lt_Some. }
  destruct (Hb i n Hn) as (n'' & Hn'' & Hshape & _).
  exists n. split; [done|]. congruence.
Qed.

Lemma bumped_moves t node t' c :
  bumped t node t' → (t' !! c ≫= Node.move) = (t !! c ≫= Node.move).
Proof.
  intros Hb. destruct (t' !! c) as [cn'|] eqn:Hc'.
  - destruct (bumped_lookup _ _ _ _ _ Hb Hc') as (cn & -> & Hshape).
    cbn. by injection Hshape.
  - destruct Hb as [Hlen _]. apply lookup_ge_None in Hc'.
    rewrite Hlen in Hc'. apply lookup_ge_None in Hc'. by rewrite Hc'.
Qed.

Lemma child_moves_ext t t' n n' :
  Node.childNodes n' = Node.childNodes n →
  (∀ c, c ∈ Node.childNodes n → (t' !! c ≫= Node.move) = (t !! c ≫= Node.move)) →
  child_moves t' n' = child_moves t n.
Proof.
  unfold child_moves. intros -> Hsame.
  apply list_fmap_ext. intros j c Hc. apply Hsame. by eapply list_elem_of_lookup_2.
Qed.

Lemma moves_kept_bumped rootstate t node t' :
  moves_kept rootstate t → bumped t node t' → moves_kept rootstate t'.
Proof.
  intros Hkept Hb i n' Hi.
  destruct (bumped_lookup _ _ _ _ _ Hb Hi) as (n & Hn & Hshape).
  destruct (Hkept i n Hn) as (st & moves & Hroot & Hmoves & Hperm).
  exists st, moves. split_and!; [done..|].
  injection Hshape as _ _ Hch Hu _. rewrite Hu.
  rewrite (child_moves_ext t t' n n'); [done|done|].
  intros c _. by eapply bumped_moves.
Qed.

Lemma moves_kept_grown rootstate t node t' node' :
  tree_ok None t → moves_kept rootstate t → grown t node t' node' →
  moves_kept rootstate t'.
Proof.
  intros Hok Hkept
    [(-> & _)|(n & m & um & new & st & Hn & Hm & Hum & Hnew & -> & ->)]; [done|].
  pose proof (lookup_lt_Some _ _ _ Hn) as Hnode.
  set (n' := Node.mk _ _ _ _ _ _ _).
  assert (Node.move new = Some m ∧ Node.childNodes new = [] ∧
          get_moves st = Ok (Node.untriedMoves new)) as (Hmove & Hnil & Hst).
  { unfold Node_init in Hnew. destruct (get_moves st); cbn in Hnew; by simplify_eq. }
  assert (∀ c, (c < length t)%nat →
            (<[node := n']> (t ++ [new]) !! c ≫= Node.move) = (t !! c ≫= Node.move))
    as Hsame.
  { intros c Hc. destruct (decide (c = node)) as [->|Hne].
    - rewrite list_lookup_insert_eq by (rewrite length_app; lia). by rewrite Hn.
    - rewrite list_lookup_insert_ne by done. by rewrite lookup_app_l. }
  assert (∀ i x c, t !! i = Some x → c ∈ Node.childNodes x → (c < length t)%nat)
    as Hchild.
  { intros i x c Hi Hc. destruct Hok as (_ & _ & Hch).
    destruct (Hch i x c Hi Hc) as (cn & Hcn & _). by eapply lookup_lt_Some. }
  intros i x Hx.
  apply lookup_insert_snoc in Hx as [[-> ->]|[[Hne Hi]|[-> ->]]]; [| | |done].
  - destruct (Hkept node n Hn) as (st0 & moves & Hroot & Hmoves & Hperm).
    exists st0, moves. split_and!; [done..|].
    rewrite Hperm. unfold child_moves, n'. cbn [Node.childNodes Node.untriedMoves].
    rewrite fmap_app. cbn [fmap list_fmap].
    rewrite list_lookup_insert_ne by lia. rewrite lookup_app_r by lia.
    rewrite Nat.sub_diag. cbn. rewrite Hmove.
    rewrite (list_remove_perm _ _ _ Hum). rewrite fmap_cons.
    rewrite <- app_assoc. cbn.
    apply Permutation_app; [|done].
    apply reflexive_eq, list_fmap_ext. intros j c Hc. symmetry.
    apply Hsame. eapply Hchild; [done|]. by eapply list_elem_of_lookup_2.
  - destruct (Hkept i x Hi) as (st0 & moves & Hroot & Hmoves & Hperm).
    exists st0, moves. split_and!; [done..|].
    rewrite Hperm. apply Permutation_app; [|done].
    apply reflexive_eq, list_fmap_ext. intros j c Hc. symmetry.
    apply Hsame. eapply Hchild; [done|]. by eapply list_elem_of_lookup_2.
  - exists st, (Node.untriedMoves new). split_and!; [lia|done|].
    unfold child_moves. by rewrite Hnil.
Qed.

Lemma moves_kept_init rootstate root :
  Node_init None None rootstate = Ok root → moves_kept rootstate [root].
Proof.
  unfold Node_init. destruct (get_moves rootstate) as [l| |] eqn:Hl; [|done..].
  intros [= <-] [|i] n Hi; [|by destruct i]. injection Hi as <-.
  by exists rootstate, l.
Qed.

Lemma UCT_tree_moves_kept rootstate itermax maxdepth t :
  UCT_tree ucb1 gtb rand rootstate itermax maxdepth = Ok t →
  moves_kept rootstate t.
Proof.
  apply (UCT_tree_inv ucb1 gtb rand (λ _, moves_kept rootstate)).
  - intros j t0 node t1 node' t' [Hok _] Hkept _ Hgrown Hb.
    eapply moves_kept_bumped; [|done]. by eapply moves_kept_grown.
  - apply moves_kept_init.
Qed.

Lemma get_moves_sound st moves :
  get_moves st = Ok moves → NoDup moves ∧ ∀ m, m ∈ moves → m ∈ directions.
Proof.
  unfold get_moves, mbind, res_bind.
  destruct (getitem (last_action st) _) as [[a|]| |]; [| |done..];
    intros [= <-]; (split; [apply NoDup_elements|]); intros m Hm;
    apply elem_of_elements in Hm; apply Actions_directions; [|done].
  by apply elem_of_difference in Hm as [Hm _].
Qed.

Lemma mapM_Ok_inv {A B} (f : A → res B) l k :
  mapM f l = Ok k → Forall2 (λ a b, f a = Ok b) l k.
Proof.
  revert k. induction l as [|a l IH]; intros k; cbn.
  - intros [= <-]. constructor.
  - unfold mbind, res_bind. destruct (f a) as [b| |] eqn:Hb; [|done..].
    destruct (mapM f l) as [k'| |]; [|done..].
    intros [= <-]. constructor; auto.
Qed.

Lemma most_visited_child t mv :
  most_visited t = Ok mv →
  ∃ root c cn, t !! 0%nat = Some root ∧ c ∈ Node.childNodes root ∧
    t !! c = Some cn ∧ mv = Node.move cn.
Proof.
  unfold most_visited, mbind, res_bind.
  destruct (t !! 0%nat) as [root|]; [|done].
  destruct (mapM _ _) as [cns| |] eqn:Hmap; [|done..].
  destruct (getitem _ _) as [best| |] eqn:Hbest; [|done..].
  intros [= <-].
  apply getitem_Ok in Hbest as (k & _ & Hk).
  apply list_elem_of_lookup_2 in Hk. rewrite sorted_perm in Hk.
  apply mapM_Ok_inv in Hmap.
  apply list_elem_of_lookup_1 in Hk as [j Hj].
  destruct (Forall2_lookup_r _ _ _ _ _ Hmap Hj) as (c & Hc & Hcn).
  exists root, c, best. split_and!; try done.
  - by eapply list_elem_of_lookup_2.
  - by destruct (t !! c); simplify_eq.
Qed.

(** The move [UCT] returns is a move of the root state: one of the moves
    that [get_moves] returns on it, so one of the four directions and not
    the reversal of the last action recorded for the agent to move.  [UCT]
    never returns [None]. *)
Theorem UCT_returns_root_move rootstate itermax maxdepth mv :
  UCT ucb1 gtb rand rootstate itermax maxdepth = Ok mv →
  ∃ m moves, mv = Some m ∧ get_moves rootstate = Ok moves ∧ m ∈ moves ∧
    m ∈ directions ∧
    ∀ a, getitem (last_action rootstate) (player_to_move rootstate) = Ok (Some a) →
         m ≠ opposite a.
Proof.
  unfold UCT, mbind, res_bind.
  destruct (UCT_tree _ _ _ _ _ _) as [t| |] eqn:Ht; [|done..].
  intros (root & c & cn & Hroot & Hc & Hcn & ->)%most_visited_child.
  destruct (UCT_tree_moves_kept _ _ _ _ Ht 0%nat root Hroot)
    as (st & moves & Hst & Hmoves & Hperm).
  rewrite (Hst eq_refl) in Hmoves. clear Hst.
  assert (Node.move cn ∈ Some <$> moves) as Hin.
  { rewrite Hperm. apply elem_of_app. left. unfold child_moves.
    apply list_elem_of_fmap. exists c. by rewrite Hcn. }
  apply list_elem_of_fmap in Hin as (m & Hm & Hin).
  exists m, moves. split_and!; try done.
  - by apply (get_moves_sound _ _ Hmoves).
  - intros a Ha. revert Hmoves. unfold get_moves, mbind, res_bind, _opposite_action.
    rewrite Ha. intros [= <-]. apply elem_of_elements in Hin.
    apply elem_of_difference in Hin as [_ Hne]. intros ->. apply Hne.
    by apply elem_of_singleton.
Qed.

(** No node tries a move twice.  In the arena [UCT] has built, the
    children of a node carry pairwise different moves, none of which is
    still among the untried moves of the node; children and untried moves
    together are never more than the four directions. *)
Theorem children_distinct_moves rootstate itermax maxdepth t i n :
  UCT_tree ucb1 gtb rand rootstate itermax maxdepth = Ok t →
  t !! i = Some n →
  NoDup (child_moves t n) ∧ NoDup (Node.untriedMoves n) ∧
  (∀ m, m ∈ Node.untriedMoves n → Some m ∉ child_moves t n) ∧
  (length (Node.childNodes n) + length (Node.untriedMoves n) ≤ 4)%nat.
Proof.
  intros Ht Hn.
  destruct (UCT_tree_moves_kept _ _ _ _ Ht i n Hn)
    as (st & moves & _ & Hmoves & Hperm).
  destruct (get_moves_sound _ _ Hmoves) as [Hnd Hdir].
  assert (NoDup (child_moves t n ++ (Some <$> Node.untriedMoves n))) as Hall.
  { rewrite <- Hperm. apply NoDup_fmap; [|done]. by intros ? ? [= ->]. }
  apply NoDup_app in Hall as (Hc & Hdisj & Hu).
  split_and!; [done| | |].
  - by apply NoDup_fmap in Hu; [|intros ? ? [= ->]].
  - intros m Hm Hcm. apply (Hdisj _ Hcm). by apply list_elem_of_fmap_2.
  - assert (length moves ≤ 4)%nat as Hle.
    { change 4%nat with (length directions).
      apply submseteq_length, NoDup_submseteq; done. }
    apply Permutation_length in Hperm.
    rewrite length_fmap, length_app, length_fmap in Hperm.
    unfold child_moves in Hperm. rewrite length_fmap in Hperm. lia.
Qed.

Lemma all_open_step t node t1 node' t' :
  (∀ st l, get_moves st = Ok l → l ≠ []) →
  all_open t → stops t node → grown t node t1 node' → bumped t1 node' t' →
  length t' = S (length t) ∧ all_open t'.
Proof.
  intros Hmoves Hopen (n0 & Hn0 & Hstop) Hgrown Hb.
  destruct Hgrown
    as [(-> & -> & n & Hn & Hu)|(n & m & um & new & st & Hn & Hm & Hum & Hnew & -> & ->)].
  { assert (n0 = n) as -> by congruence.
    destruct (Hopen _ _ Hn), Hstop; congruence. }
  pose proof (lookup_lt_Some _ _ _ Hn) as Hnode.
  split.
  - destruct Hb as [-> _]. rewrite length_insert, length_app. cbn. lia.
  - intros i x' Hi.
    destruct (bumped_lookup _ _ _ _ _ Hb Hi) as (x & Hx & Hshape).
    injection Hshape as _ _ -> -> _.
    apply lookup_insert_snoc in Hx as [[-> ->]|[[Hne Hx]|[-> ->]]]; [|by eauto| |done].
    + right. cbn. by destruct (Node.childNodes n).
    + left. unfold Node_init in Hnew.
      destruct (get_moves st) as [l| |] eqn:Hl; cbn in Hnew; [|done..].
      injection Hnew as <-. cbn. by eapply Hmoves.
Qed.

(** One node for each round.  With four different directions every node
    has a move to try when it is built, so every round of the loop finds a
    node to expand: the arena [UCT] has built holds the root and one node
    for each of the [itermax] rounds, and each of its nodes has an untried
    move or a child. *)
Theorem UCT_tree_size rootstate itermax maxdepth t :
  NoDup directions →
  UCT_tree ucb1 gtb rand rootstate itermax maxdepth = Ok t →
  length t = S (Z.to_nat itermax) ∧ all_open t.
Proof.
  intros Hnd Ht.
  apply (UCT_tree_inv ucb1 gtb rand
           (λ j t, length t = S j ∧ all_open t) rootstate itermax maxdepth t);
    [| |done].
  - intros j t0 node t1 node' t' _ [Hlen Hopen] Hstop Hgrown Hb.
    destruct (all_open_step t0 node t1 node' t') as [Hlen' Hopen']; try done.
    { intros st l. by apply get_moves_not_nil. }
    split; [lia|done].
  - intros root Hroot. split; [done|].
    intros [|i] n Hi; [|by destruct i]. injection Hi as <-.
    left. unfold Node_init in Hroot.
    destruct (get_moves rootstate) as [l| |] eqn:Hl; cbn in Hroot; [|done..].
    injection Hroot as <-. cbn. by eapply get_moves_not_nil.
Qed.

(** No rounds.  With [itermax] zero or negative the loop does not run, the
    root has no child, and the last entry of the empty sorted list is an
    [IndexError], whatever the root state. *)
Theorem UCT_no_rounds rootstate itermax maxdepth :
  itermax ≤ 0 →
  UCT ucb1 gtb rand rootstate itermax maxdepth = Raise IndexError.
Proof.
  intros Hle. unfold UCT, UCT_tree, Node_init.
  replace (Z.to_nat itermax) with 0%nat by lia.
  destruct (get_moves_outcome rootstate) as [[l ->]| ->]; [|done].
  done.
Qed.

(** The rollout swallows the [ValueError] of [int]: it returns or it raises
    [IndexError], and it leaves the arena as it is. *)
Theorem rollout_no_ValueError maxdepth s :
  tree (rollout rand maxdepth s).2 = tree s ∧
  ((∃ u, (rollout rand maxdepth s).1 = Ok u) ∨
   (rollout rand maxdepth s).1 = Raise IndexError).
Proof.
  revert s. induction maxdepth as [|j IH]; intros s; [split; [done|left; by eexists]|].
  cbn [rollout]. pose proof (rollout_body_spec rand s) as [Ht Hr]. cbv zeta in *.
  destruct ((get_st ≫= _) s) as [[a|e|] s1]; cbn in *; [| |done].
  - destruct (IH s1) as [Ht1 Hr1]. split; [congruence|done].
  - destruct Hr as [->| ->]; cbn; [by split; [|right]|].
    split; [done|left; by eexists].
Qed.

End uct_moves.

Lemma wide_search_returns :
  ∃ mv, UCT (H:=snakepit) (ucb1_float log_upto_8) float_gt counting wide_state 8 2 = Ok mv.
Proof. vm_compute. eauto. Qed.

Lemma wide_search_root :
  ∃ t root, UCT_tree (H:=snakepit) (ucb1_float log_upto_8) float_gt counting wide_state 8 2 = Ok t ∧
            t !! 0%nat = Some root.
Proof. vm_compute. eauto. Qed.

Lemma UCT_returns_root_move_witness :
  ∃ m, UCT (H:=snakepit) (ucb1_float log_upto_8) float_gt counting wide_state 8 2 = Ok (Some m).
Proof.
  destruct wide_search_returns as [mv Hmv].
  destruct (UCT_returns_root_move (H:=snakepit) (ucb1_float log_upto_8) float_gt counting
              wide_state 8 2 mv Hmv) as (m & moves & Hm & _).
  exists m. rewrite <- Hm. exact Hmv.
Defined.

Lemma children_distinct_moves_witness :
  ∃ t root, UCT_tree (H:=snakepit) (ucb1_float log_upto_8) float_gt counting wide_state 8 2 = Ok t ∧
    t !! 0%nat = Some root ∧ NoDup (child_moves t root).
Proof.
  destruct wide_search_root as (t & root & Ht & Hroot).
  destruct (children_distinct_moves (H:=snakepit) (ucb1_float log_upto_8) float_gt counting
              wide_state 8 2 t 0%nat root Ht Hroot) as (Hnd & _).
  exists t, root. split; [exact Ht|]. split; [exact Hroot|exact Hnd].
Defined.

Lemma UCT_tree_size_witness :
  ∃ t, UCT_tree (H:=snakepit) (ucb1_float log_upto_8) float_gt counting wide_state 8 2 = Ok t ∧
       length t = 9%nat.
Proof.
  destruct wide_search_runs as [t Ht].
  destruct (UCT_tree_size (H:=snakepit) (ucb1_float log_upto_8) float_gt counting
              wide_state 8 2 t) as [Hlen _].
  - apply snakepit_wf.
  - exact Ht.
  - exists t. split; [exact Ht|exact Hlen].
Defined.

Lemma UCT_no_rounds_witness :
  UCT (H:=snakepit) (ucb1_float log_upto_8) float_gt counting wide_state 0 2 = Raise IndexError.
Proof.
  apply (UCT_no_rounds (H:=snakepit) (ucb1_float log_upto_8) float_gt counting wide_state 0 2).
  lia.
Defined.

(** ** The visits of the nodes *)

Section uct_visits.
Context `{RobotSnake} {V : Type} (ucb1 : Z → Z → Z → V) (gtb : V → V → bool).
Variable rand : nat → nat.

Lemma sum_visits_app t cs cs' :
  sum_visits t (cs ++ cs') = sum_visits t cs + sum_visits t cs'.
Proof.
  unfold sum_visits. induction cs as [|c cs IH]; cbn; [done|].
  cbn in IH. rewrite IH. lia.
Qed.

Lemma sum_visits_ext t t' cs :
  (∀ c, c ∈ cs → from_option Node.visits 0 (t' !! c) = from_option Node.visits 0 (t !! c)) →
  sum_visits t' cs = sum_visits t cs.
Proof.
  unfold sum_visits. induction cs as [|c cs IH]; cbn; [done|]. intros Hsame.
  rewrite Hsame by left. cbn in IH. rewrite IH; [done|].
  intros c' Hc'. apply Hsame. by right.
Qed.

Lemma sum_visits_one_more t t' cs c0 :
  NoDup cs → c0 ∈ cs →
  from_option Node.visits 0 (t' !! c0) = from_option Node.visits 0 (t !! c0) + 1 →
  (∀ c, c ∈ cs → c ≠ c0 →
     from_option Node.visits 0 (t' !! c) = from_option Node.visits 0 (t !! c)) →
  sum_visits t' cs = sum_visits t cs + 1.
Proof.
  intros Hnd Hin H0 Hsame.
  apply list_elem_of_split in Hin as (l1 & l2 & ->).
  apply NoDup_app in Hnd as (_ & Hdisj & [Hnot _]%NoDup_cons).
  rewrite !sum_visits_app.
  change (c0 :: l2) with ([c0] ++ l2). rewrite !sum_visits_app.
  rewrite (sum_visits_ext t t' l1), (sum_visits_ext t t' l2).
  - unfold sum_visits at 2 5. cbn. lia.
  - intros c Hc. apply Hsame; [set_solver|]. intros ->. done.
  - intros c Hc. apply Hsame; [set_solver|]. intros ->.
    apply (Hdisj c0 Hc). by left.
Qed.

Lemma ancestor_proper_child t a i :
  ancestor t a i → a ≠ i →
  ∃ c cn, ancestor t a c ∧ t !! c = Some cn ∧ Node.parentNode cn = Some i.
Proof.
  induction 1 as [|a n p j Ha Hp Hanc IH]; [done|]. intros Hne.
  destruct (decide (p = j)) as [->|Hpj].
  - exists a, n. split; [constructor|done].
  - destruct (IH Hpj) as (c & cn & Hc & Hcn & Hparent).
    exists c, cn. split; [|done]. by eapply ancestor_parent.
Qed.

Lemma ancestor_chain t a c c' :
  ancestor t a c → ancestor t a c' → ancestor t c c' ∨ ancestor t c' c.
Proof.
  induction 1 as [|a n p j Ha Hp Hanc IH]; [by left|].
  intros Hc'. inversion Hc' as [|? n0 p0 ? Ha0 Hp0 Hanc0]; subst.
  - right. by eapply ancestor_parent.
  - assert (p0 = p) as -> by congruence. by apply IH.
Qed.

Lemma ancestor_one_child t a i c c' cn cn' :
  parents_below t →
  ancestor t a c → ancestor t a c' →
  t !! c = Some cn → Node.parentNode cn = Some i →
  t !! c' = Some cn' → Node.parentNode cn' = Some i →
  c = c'.
Proof.
  intros Hpb Hc Hc' Hcn Hp Hcn' Hp'.
  pose proof (Hpb _ _ _ Hcn Hp) as Hlt. pose proof (Hpb _ _ _ Hcn' Hp') as Hlt'.
  destruct (ancestor_chain _ _ _ _ Hc Hc') as [Ha|Ha];
    inversion Ha as [|? n0 p0 ? Hn0 Hp0 Ha0]; subst; try done.
  - assert (p0 = i) as -> by congruence.
    apply ancestor_le in Ha0; [lia|done].
  - assert (p0 = i) as -> by congruence.
    apply ancestor_le in Ha0; [lia|done].
Qed.

(** What the back-propagation does to the sum over the children of a
    node [i] of the arena [t]: one more when [i] is above the node it
    started at, nothing otherwise. *)
Lemma sum_visits_bumped fresh t node t' i n :
  tree_ok fresh t → linked t → bumped t node t' →
  t !! i = Some n →
  (ancestor t node i → i ≠ node →
   sum_visits t' (Node.childNodes n) = sum_visits t (Node.childNodes n) + 1) ∧
  (¬ (ancestor t node i ∧ i ≠ node) →
   sum_visits t' (Node.childNodes n) = sum_visits t (Node.childNodes n)).
Proof.
  intros Hok [Hnd Hlink] Hb Hn.
  pose proof (tree_ok_parents_below _ _ Hok) as Hpb.
  destruct Hok as (_ & _ & Hch).
  assert (∀ c cn, t !! c = Some cn → ancestor t node c →
            from_option Node.visits 0 (t' !! c) = Node.visits cn + 1) as Hup.
  { intros c cn Hc Ha. destruct Hb as [_ Hb].
    destruct (Hb c cn Hc) as (cn' & -> & _ & [[_ Hv]|(? & _)]); [|done].
    cbn. lia. }
  assert (∀ c cn, t !! c = Some cn → ¬ ancestor t node c →
            from_option Node.visits 0 (t' !! c) = Node.visits cn) as Hsame.
  { intros c cn Hc Ha. destruct Hb as [_ Hb].
    destruct (Hb c cn Hc) as (cn' & -> & _ & [[? _]|(_ & Hv & _)]); [done|].
    cbn. lia. }
  split.
  - intros Hanc Hne.
    destruct (ancestor_proper_child _ _ _ Hanc) as (c0 & cn0 & Hc0 & Hcn0 & Hp0);
      [done|].
    destruct (Hlink _ _ _ Hcn0 Hp0) as (pn & Hpn & Hin).
    assert (pn = n) as -> by congruence.
    apply (sum_visits_one_more t t' _ c0); [by eapply Hnd|done| |].
    + rewrite Hcn0. cbn. by apply Hup.
    + intros c Hc Hcne. destruct (Hch _ _ _ Hn Hc) as (cn & Hcn & Hp).
      rewrite Hcn. cbn. apply Hsame; [done|].
      intros Hca. apply Hcne.
      by eapply (ancestor_one_child t node i c c0).
  - intros Hanc. apply sum_visits_ext. intros c Hc.
    destruct (Hch _ _ _ Hn Hc) as (cn & Hcn & Hp).
    rewrite Hcn. cbn. apply Hsame; [done|].
    intros Hca. apply Hanc. split; [by eapply ancestor_up|].
    intros ->. apply ancestor_le in Hca; [|done].
    pose proof (Hpb _ _ _ Hcn Hp). lia.
Qed.

Lemma linked_bumped t node t' : linked t → bumped t node t' → linked t'.
Proof.
  intros [Hnd Hlink] Hb. split.
  - intros i n' Hi. destruct (bumped_lookup _ _ _ _ _ Hb Hi) as (n & Hn & Hshape).
    injection Hshape as _ _ -> _ _. by eapply Hnd.
  - intros i n' p Hi Hp.
    destruct (bumped_lookup _ _ _ _ _ Hb Hi) as (n & Hn & Hshape).
    injection Hshape as _ Hpar _ _ _. rewrite Hpar in Hp.
    destruct (Hlink _ _ _ Hn Hp) as (pn & Hpn & Hin).
    destruct Hb as [_ Hb]. destruct (Hb p pn Hpn) as (pn' & Hpn' & Hshape' & _).
    exists pn'. split; [done|]. injection Hshape' as _ _ -> _ _. done.
Qed.

Lemma visits_step t node t1 node' t' :
  (∀ st l, get_moves st = Ok l → l ≠ []) →
  tree_ok None t → all_open t → linked t → visits_add_up t →
  stops t node → grown t node t1 node' → bumped t1 node' t' →
  linked t' ∧ visits_add_up t'.
Proof.
  intros Hmoves Hok Hopen Hlinked Hsum (n0 & Hn0 & Hstop) Hgrown Hb.
  destruct (expanded_tree_ok _ _ _ _ Hok (grown_expanded _ _ _ _ Hgrown))
    as (fresh & _ & Hok1 & _).
  destruct Hgrown
    as [(-> & -> & n & Hn & Hu)|(n & m & um & new & st & Hn & Hm & Hum & Hnew & -> & ->)].
  { assert (n0 = n) as -> by congruence.
    destruct (Hopen _ _ Hn), Hstop; congruence. }
  clear n0 Hn0 Hstop.
  pose proof (lookup_lt_Some _ _ _ Hn) as Hnode.
  pose proof (tree_ok_parents_below _ _ Hok) as Hpb.
  set (n' := Node.mk _ _ _ _ _ _ _) in *.
  set (t1 := <[node := n']> (t ++ [new])) in *.
  assert (Node.parentNode new = Some node ∧ Node.childNodes new = [] ∧
          Node.visits new = 0) as (Hnewp & Hnewc & Hnewv).
  { unfold Node_init in Hnew. destruct (get_moves st); cbn in Hnew; by simplify_eq. }
  assert (∀ i x c, t !! i = Some x → c ∈ Node.childNodes x → (c < length t)%nat)
    as Hchild.
  { intros i x c Hi Hc. destruct Hok as (_ & _ & Hch).
    destruct (Hch i x c Hi Hc) as (cn & Hcn & _). by eapply lookup_lt_Some. }
  assert (linked t1) as Hlinked1.
  { destruct Hlinked as [Hnd Hlink]. split.
    - intros i x Hx.
      apply lookup_insert_snoc in Hx as [[-> ->]|[[Hne Hx]|[-> ->]]]; [| | |done].
      + cbn. apply NoDup_app. split_and!; [by eapply Hnd| |apply NoDup_singleton].
        intros c Hc Hc1. apply list_elem_of_singleton in Hc1.
        pose proof (Hchild _ _ _ Hn Hc). lia.
      + by eapply Hnd.
      + rewrite Hnewc. constructor.
    - intros i x p Hx Hp.
      apply lookup_insert_snoc in Hx as [[-> ->]|[[Hne Hx]|[-> ->]]]; [| | |done].
      + cbn in Hp. destruct (Hlink _ _ _ Hn Hp) as (pn & Hpn & Hin).
        pose proof (Hpb _ _ _ Hn Hp).
        exists pn. split; [|done].
        apply lookup_insert_snoc; [done|]. right. left. split; [lia|done].
      + destruct (Hlink _ _ _ Hx Hp) as (pn & Hpn & Hin).
        destruct (decide (p = node)) as [->|Hpne].
        * assert (pn = n) as -> by congruence.
          exists n'. split; [apply lookup_insert_snoc; auto|].
          cbn. apply elem_of_app. by left.
        * exists pn. split; [|done].
          apply lookup_insert_snoc; [done|]. right. left. done.
      + assert (p = node) as -> by congruence.
        exists n'. split; [apply lookup_insert_snoc; auto|].
        cbn. apply elem_of_app. right. by left. }
  assert (∀ cs, (∀ c, c ∈ cs → (c < length t)%nat) →
            sum_visits t1 cs = sum_visits t cs) as Hold.
  { intros cs Hcs. apply sum_visits_ext. intros c Hc. specialize (Hcs c Hc).
    unfold t1. destruct (decide (c = node)) as [->|Hne].
    - rewrite list_lookup_insert_eq by (rewrite length_app; lia). by rewrite Hn.
    - rewrite list_lookup_insert_ne by done. by rewrite lookup_app_l. }
  assert (∀ i x, t1 !! i = Some x → i ≠ length t →
            Node.visits x = (if decide (i = 0%nat) then 0 else 1) +
                            sum_visits t1 (Node.childNodes x)) as Hsum1.
  { intros i x Hx Hi.
    apply lookup_insert_snoc in Hx as [[-> ->]|[[Hne Hx]|[-> ->]]]; [| | |done].
    - unfold n'. cbn [Node.visits Node.childNodes].
      rewrite sum_visits_app, Hold by (intros ? ?; by eapply Hchild).
      rewrite (Hsum _ _ Hn).
      unfold sum_visits at 3. cbn. unfold t1.
      rewrite list_lookup_insert_ne by lia. rewrite lookup_app_r by lia.
      rewrite Nat.sub_diag. cbn. lia.
    - rewrite Hold by (intros ? ?; by eapply Hchild). by apply Hsum.
    - done. }
  split; [by eapply linked_bumped|].
  intros i x' Hi.
  destruct (bumped_lookup _ _ _ _ _ Hb Hi) as (x & Hx & Hshape).
  injection Hshape as _ _ Hch _ _. rewrite Hch.
  destruct (sum_visits_bumped _ _ _ _ _ _ Hok1 Hlinked1 Hb Hx) as [Hplus Hsame].
  pose proof Hb as [_ Hb']. destruct (Hb' i x Hx) as (x'' & Hx'' & _ & Hcase).
  assert (x'' = x') as -> by congruence.
  destruct (decide (i = length t)) as [->|Hne].
  - assert (x = new) as ->.
    { unfold t1 in Hx. rewrite list_lookup_insert_ne in Hx by lia.
      rewrite lookup_app_r in Hx by lia. rewrite Nat.sub_diag in Hx.
      by injection Hx. }
    rewrite Hsame by (by intros [_ ?]). rewrite Hnewc.
    destruct Hcase as [[_ ->]|[Hna _]]; [|destruct Hna; constructor].
    rewrite decide_False by lia. rewrite Hnewv. done.
  - specialize (Hsum1 i x Hx Hne).
    destruct Hcase as [[Ha ->]|(Hna & -> & _)].
    + rewrite Hplus by done. lia.
    + rewrite Hsame by (by intros [? _]). lia.
Qed.

(** The visits add up.  In the arena [UCT] has built with four different
    directions, the root has as many visits as its children together, and
    every other node has one visit more than its children together, the
    visit of the round that made it.  No node is twice the child of a
    node, and every node is a child of its parent. *)
Theorem UCT_visits_add_up rootstate itermax maxdepth t :
  NoDup directions →
  UCT_tree ucb1 gtb rand rootstate itermax maxdepth = Ok t →
  visits_add_up t ∧ linked t.
Proof.
  intros Hnd Ht.
  assert (∀ st l, get_moves st = Ok l → l ≠ []) as Hmoves.
  { intros st l. by apply get_moves_not_nil. }
  cut (all_open t ∧ linked t ∧ visits_add_up t); [by intros (_ & ? & ?)|].
  apply (UCT_tree_inv ucb1 gtb rand
           (λ _ t, all_open t ∧ linked t ∧ visits_add_up t)
           rootstate itermax maxdepth t); [| |done].
  - intros j t0 node t1 node' t' [Hok _] (Hopen & Hlinked & Hsum) Hstop Hgrown Hb.
    destruct (all_open_step t0 node t1 node' t') as [_ Hopen']; try done.
    destruct (visits_step t0 node t1 node' t'); try done.
  - intros root Hroot. unfold Node_init in Hroot.
    destruct (get_moves rootstate) as [l| |] eqn:Hl; cbn in Hroot; [|done..].
    injection Hroot as <-. split_and!.
    + intros [|i] n Hi; [|by destruct i]. injection Hi as <-.
      left. cbn. by eapply Hmoves.
    + split.
      * intros [|i] n Hi; [|by destruct i]. injection Hi as <-. constructor.
      * intros [|i] n p Hi; [|by destruct i]. by injection Hi as <-.
    + intros [|i] n Hi; [|by destruct i]. by injection Hi as <-.
Qed.

End uct_visits.

Lemma UCT_visits_add_up_witness :
  ∃ t root, UCT_tree (H:=snakepit) (ucb1_float log_upto_8) float_gt counting wide_state 8 2 = Ok t ∧
    t !! 0%nat = Some root ∧
    Node.visits root = sum_visits t (Node.childNodes root).
Proof.
  destruct wide_search_root as (t & root & Ht & Hroot).
  destruct (UCT_visits_add_up (H:=snakepit) (ucb1_float log_upto_8) float_gt counting
              wide_state 8 2 t) as [Hsum _].
  - apply snakepit_wf.
  - exact Ht.
  - exists t, root. split; [exact Ht|]. split; [exact Hroot|].
    apply (Hsum 0%nat root Hroot).
Defined.

(** ** The store and the game state it stands for *)

Module HeapMoves.
Local Abbreviation game_do_move := do_move.
Local Abbreviation game_collides := _collides_with_player.
Import Heap HeapFacts.

Lemma bind_Ok {A B} (m : St heap A) (f : A → St heap B) h v h1 :
  m h = (Ok v, h1) → (m ≫= f) h = f v h1.
Proof. unfold mbind, St_bind. by intros ->. Qed.

Lemma bind_Raise {A B} (m : St heap A) (f : A → St heap B) h e h1 :
  m h = (Raise e, h1) → (m ≫= f) h = (Raise e, h1).
Proof. unfold mbind, St_bind. by intros ->. Qed.

Lemma bind_Stuck {A B} (m : St heap A) (f : A → St heap B) h h1 :
  m h = (Stuck, h1) → (m ≫= f) h = (Stuck, h1).
Proof. unfold mbind, St_bind. by intros ->. Qed.

Lemma getitem_Forall2 {A B} (P : A → B → Prop) (l : list A) (k : list B) i :
  Forall2 P l k →
  match getitem l i with
  | Ok a => ∃ b j, getitem k i = Ok b ∧ P a b ∧
              py_index (length l) i = Some j ∧ l !! j = Some a ∧ k !! j = Some b
  | Raise e => getitem k i = Raise e
  | Stuck => False
  end.
Proof.
  intros Hf. pose proof (Forall2_length _ _ _ Hf) as Hlen.
  unfold getitem. rewrite <- Hlen.
  destruct (py_index (length l) i) as [j|] eqn:Hj; cbn; [|done].
  pose proof (py_index_lt _ _ _ Hj) as Hlt.
  destruct (lookup_lt_is_Some_2 l j Hlt) as [a Ha].
  destruct (Forall2_lookup_l _ _ _ _ _ Hf Ha) as (b & Hb & HP).
  rewrite Ha, Hb. cbn. by exists b, j.
Qed.

Section heap_moves.
Context `{RobotSnake}.

Lemma collides_Forall2 items chains p h :
  Forall2 (λ r l, deques h !! r = Some l) items chains →
  _collides_with_player items p h =
    (Ok (existsb (λ player : Player, bool_decide (p ∈ player)) chains), h).
Proof.
  induction 1 as [|r l items chains Hr _ IH]; [done|].
  cbn [_collides_with_player existsb].
  erewrite bind_Ok by (by apply load_eq). cbn beta.
  by case_bool_decide.
Qed.

Lemma assign_score_eq self pm v h a sc :
  states h !! self = Some a → score_lists h !! a_scores a = Some sc →
  assign_score self pm v h =
    match setitem sc pm v with
    | Ok sc' => (Ok tt, set_score_lists (<[a_scores a := sc']> (score_lists h)) h)
    | Raise e => (Raise e, h)
    | Stuck => (Stuck, h)
    end.
Proof.
  intros Ha Hsc. unfold assign_score.
  erewrite bind_Ok by (by apply load_eq). cbn beta.
  erewrite bind_Ok by (by apply load_eq). cbn beta.
  destruct (setitem sc pm v) as [sc'| |].
  - by erewrite bind_Ok by reflexivity.
  - by erewrite bind_Raise by reflexivity.
  - by erewrite bind_Stuck by reflexivity.
Qed.

Lemma set_score_lists_id h r sc :
  score_lists h !! r = Some sc →
  set_score_lists (<[r := sc]> (score_lists h)) h = h.
Proof. intros Hr. rewrite list_insert_id by done. by destruct h. Qed.

(** The [if] chain of [do_move] on the store computes the scores of
    [move_scores]. *)
Lemma scoring_eq self s h a new_head char :
  states h !! self = Some a → score_lists h !! a_scores a = Some (scores s) →
  (if game_collides s new_head then
     assign_score self (player_to_move s) (-1000)
   else if isnumeric char then
     sc ← load score_lists (a_scores a);
     old ← lift_res (getitem sc (player_to_move s));
     v ← lift_res (int char);
     assign_score self (player_to_move s) (old + v)
   else if bool_decide (char ∈ obstacle_chars) then
     assign_score self (player_to_move s) (-1000)
   else mret tt) h =
  match move_scores s new_head char with
  | Ok sc' => (Ok tt, set_score_lists (<[a_scores a := sc']> (score_lists h)) h)
  | Raise e => (Raise e, h)
  | Stuck => (Stuck, h)
  end.
Proof.
  intros Ha Hsc. unfold move_scores.
  destruct (game_collides s new_head); [by eapply assign_score_eq|].
  destruct (isnumeric char).
  { erewrite bind_Ok by (by apply load_eq). cbn beta.
    destruct (getitem (scores s) _) as [old| |].
    - erewrite bind_Ok by reflexivity. cbn beta.
      destruct (int char) as [v| |].
      + erewrite bind_Ok by reflexivity. cbn beta. by eapply assign_score_eq.
      + by erewrite bind_Raise by reflexivity.
      + by erewrite bind_Stuck by reflexivity.
    - by erewrite bind_Raise by reflexivity.
    - by erewrite bind_Stuck by reflexivity. }
  destruct (bool_decide _); [by eapply assign_score_eq|].
  by rewrite set_score_lists_id.
Qed.

Lemma Forall2_insert_deques (items : list nat) (chains : list Player)
    (dq : list Player) r j new :
  NoDup items →
  Forall2 (λ r l, dq !! r = Some l) items chains →
  items !! j = Some r →
  Forall2 (λ r' l, <[r := new]> dq !! r' = Some l) items (<[j := new]> chains).
Proof.
  intros Hnd Hf Hj.
  apply Forall2_same_length_lookup in Hf as [Hlen Hf].
  apply Forall2_same_length_lookup. split; [by rewrite length_insert|].
  intros i x y Hx Hy.
  destruct (decide (i = j)) as [->|Hne].
  - assert (x = r) as -> by congruence.
    rewrite list_lookup_insert_eq in Hy
      by (rewrite <- Hlen; by eapply lookup_lt_Some).
    injection Hy as <-.
    destruct (lookup_lt_is_Some_2 chains j) as [l Hl];
      [rewrite <- Hlen; by eapply lookup_lt_Some|].
    apply list_lookup_insert_eq. eapply lookup_lt_Some. by eapply Hf.
  - rewrite list_lookup_insert_ne in Hy by done.
    rewrite list_lookup_insert_ne; [by eapply Hf|].
    intros <-. apply Hne. by eapply NoDup_lookup.
Qed.

Lemma move_lookups_Raise_chain move s e :
  getitem (players s) (player_to_move s) = Raise e → move_lookups move s = Raise e.
Proof. unfold move_lookups. by intros ->. Qed.

Lemma move_lookups_Raise_head move s player e :
  getitem (players s) (player_to_move s) = Ok player →
  getitem player 0 = Raise e → move_lookups move s = Raise e.
Proof. unfold move_lookups. intros -> Hh. cbn. by rewrite Hh. Qed.

Lemma move_lookups_Raise_cell move s player head e :
  getitem (players s) (player_to_move s) = Ok player →
  getitem player 0 = Ok head →
  getitem2 (terrain s) (x head + xdir move) (y head + ydir move) = Raise e →
  move_lookups move s = Raise e.
Proof. unfold move_lookups. intros -> Hh Hc. cbn. rewrite Hh. cbn. by rewrite Hc. Qed.

Lemma getitem2_not_Stuck {A} (grid : list (list A)) i j : getitem2 grid i j ≠ Stuck.
Proof.
  unfold getitem2, mbind, res_bind.
  destruct (getitem grid i) as [row| |] eqn:E;
    [apply getitem_not_Stuck|done|by apply getitem_not_Stuck in E].
Qed.

Lemma do_move_snapshot self move h s a items :
  (snapshot self h).1 = Ok s →
  states h !! self = Some a →
  player_lists h !! a_players a = Some items →
  NoDup items →
  (do_move self move h).1 = (game_do_move move s).1 ∧
  (snapshot self (do_move self move h).2).1 = Ok (game_do_move move s).2.
Proof.
  intros Hs Ha Hi Hnd.
  apply snapshot_Ok in Hs as (a' & items' & Ha' & Ht & Hi' & Hf & Hla & Hsc & Hj).
  assert (a' = a) as -> by congruence. assert (items' = items) as -> by congruence.
  clear Ha' Hi'.
  pose proof (lookup_lt_Some _ _ _ Ha) as Hself.
  assert ((if bool_decide (1 < length items)%nat then 1 - a_playerJustMoved a else 0)
          = player_to_move s) as Hpm.
  { unfold player_to_move. by rewrite <- (Forall2_length _ _ _ Hf), Hj. }
  rewrite do_move_unfold. cbv zeta.
  unfold do_move.
  erewrite bind_Ok by (by apply load_eq). cbn beta.
  erewrite bind_Ok by (by apply load_eq). cbn beta. cbv zeta. rewrite Hpm.
  set (pm := player_to_move s).
  set (a1 := mkAttrs pm (a_terrain a) (a_players a) (a_last_action a) (a_scores a)).
  erewrite bind_Ok by reflexivity.
  set (h1 := set_states (<[self := a1]> (states h)) h).
  assert (states h1 !! self = Some a1) as Ha1
    by (by apply list_lookup_insert_eq).
  erewrite bind_Ok by (apply load_eq; exact Hla). cbn beta.
  destruct (setitem (last_action s) pm (Some move)) as [la'| |] eqn:Ela.
  2:{ erewrite bind_Raise by reflexivity. split; [done|].
      apply snapshot_Ok. by exists a1, items. }
  2:{ by apply setitem_not_Stuck in Ela. }
  pose proof Ela as (kla & Hkla & ->)%setitem_Ok.
  erewrite bind_Ok by reflexivity. cbn beta.
  erewrite bind_Ok by reflexivity.
  set (h2 := set_action_lists _ h1).
  assert (action_lists h2 !! a_last_action a = Some (<[kla := Some move]> (last_action s)))
    as Hla2.
  { apply list_lookup_insert_eq. by eapply lookup_lt_Some. }
  pose proof (getitem_Forall2 _ items (players s) pm Hf) as Hget.
  assert ((snapshot self h2).1 =
            Ok (set_last_action (<[kla := Some move]> (last_action s))
                  (set_playerJustMoved pm s))) as Hsnap2.
  { apply snapshot_Ok. by exists a1, items. }
  destruct (getitem items pm) as [r| |] eqn:Er; [| |done].
  2:{ erewrite bind_Raise by reflexivity.
      by rewrite (move_lookups_Raise_chain move s e Hget). }
  destruct Hget as (player & j & Hgp & Hr & Hjidx & Hjr & Hjp).
  erewrite bind_Ok by reflexivity. cbn beta.
  erewrite bind_Ok by (apply load_eq; exact Hr). cbn beta.
  destruct (getitem player 0) as [head| |] eqn:Eh.
  2:{ erewrite bind_Raise by reflexivity.
      by rewrite (move_lookups_Raise_head move s player e Hgp Eh). }
  2:{ by apply getitem_not_Stuck in Eh. }
  erewrite bind_Ok by reflexivity. cbn beta. cbv zeta. cbn [x y].
  erewrite bind_Ok by (apply load_eq; exact Ht). cbn beta.
  set (new_head := Pos (x head + xdir move) (y head + ydir move)).
  destruct (getitem2 (terrain s) (x head + xdir move) (y head + ydir move))
    as [cell| |] eqn:Ecell.
  2:{ erewrite bind_Raise by reflexivity.
      by rewrite (move_lookups_Raise_cell move s player head e Hgp Eh Ecell). }
  2:{ by apply getitem2_not_Stuck in Ecell. }
  rewrite (move_lookups_Ok move s player head cell Hgp Eh Ecell).
  erewrite bind_Ok by reflexivity. cbn beta.
  erewrite bind_Ok by (apply collides_Forall2; exact Hf). cbn beta.
  change (existsb _ (players s)) with (game_collides s new_head).
  pose proof (scoring_eq self s h2 a1 new_head cell.1 Ha1 Hsc) as Hscore.
  fold pm in Hscore. cbn [a_scores a1] in Hscore.
  fold new_head.
  destruct (move_scores s new_head cell.1) as [sc'| |] eqn:Esc.
  2:{ by erewrite bind_Raise by exact Hscore. }
  2:{ by apply move_scores_not_Stuck in Esc. }
  erewrite bind_Ok by exact Hscore. cbn beta.
  set (h3 := set_score_lists _ h2).
  erewrite bind_Ok by (apply load_eq; exact Hr). cbn beta.
  unfold store. cbn [fst snd].
  assert (setitem (players s) pm (removelast (new_head :: player))
          = Ok (<[j := removelast (new_head :: player)]> (players s))) as ->.
  { apply setitem_Ok. exists j. split; [|done].
    by rewrite <- (Forall2_length _ _ _ Hf). }
  split; [done|]. cbn [snd].
  apply snapshot_Ok. exists a1, items. cbn. split_and!; try done;
    [by apply Forall2_insert_deques
    |apply list_lookup_insert_eq; by eapply lookup_lt_Some].
Qed.

(** The store and the game state agree.  When the object [self] of the
    store stands for the game state [s] and no deque is twice in its list
    of chains, [do_move] on the object ends as [do_move] on [s] does, with
    the same exception if it raises, and the object then stands for the
    game state that [do_move] leaves of [s]. *)
Theorem do_move_simulates self move h s a items :
  (snapshot self h).1 = Ok s →
  states h !! self = Some a →
  player_lists h !! a_players a = Some items →
  NoDup items →
  (do_move self move h).1 = (game_do_move move s).1 ∧
  (snapshot self (do_move self move h).2).1 = Ok (game_do_move move s).2.
Proof.
  intros Hs Ha Hi Hnd. by apply (do_move_snapshot self move h s a items).
Qed.

End heap_moves.
End HeapMoves.

Lemma do_move_simulates_witness :
  (Heap.snapshot 0 moved_heap).1 =
    Ok (do_move (H:=snakepit) (Vec 1 0) (centre_state open_3x3)).2.
Proof.
  destruct (HeapMoves.do_move_simulates (H:=snakepit) 0 (Vec 1 0) fresh_heap
              (centre_state open_3x3) (Heap.mkAttrs 1 0 0 0 0) [0%nat])
    as [_ Hsnap];
    [reflexivity|reflexivity|reflexivity|apply NoDup_singleton|exact Hsnap].
Defined.

(** ** The store: what a move writes to *)

Module HeapFrame.
Import Heap HeapFacts.

Section footprint.
Context `{RobotSnake}.
Variables (h0 : heap) (self : nat) (a : attrs) (items : list nat).
Hypothesis Hitems0 : player_lists h0 !! a_players a = Some items.
Local Abbreviation W := (λ h, writes_only h0 h self a items).

Lemma keeps_bind {A B} (m : St heap A) (f : A → St heap B) h :
  W (m h).2 → (∀ v, W (f v (m h).2).2) → W ((m ≫= f) h).2.
Proof.
  intros Hm Hf. unfold mbind, St_bind.
  destruct (m h) as [[v| |] h1]; cbn in *; auto.
Qed.

Lemma keeps_load {A B} (get : heap → list A) r (f : A → St heap B) h :
  W h → (∀ o, get h !! r = Some o → W (f o h).2) → W ((load get r ≫= f) h).2.
Proof.
  intros Hh Hf. unfold mbind, St_bind, load.
  destruct (get h !! r) as [o|]; cbn; auto.
Qed.

Lemma keeps_lift {A B} (r : res A) (f : A → St heap B) h :
  W h → (∀ v, r = Ok v → W (f v h).2) → W ((lift_res r ≫= f) h).2.
Proof.
  intros Hh Hf. unfold mbind, St_bind, lift_res. destruct r; cbn; auto.
Qed.

Lemma keeps_store_states j h :
  W h →
  W (set_states (<[self := mkAttrs j (a_terrain a) (a_players a)
                             (a_last_action a) (a_scores a)]> (states h)) h).
Proof.
  intros (Ht & Hp & Hd & Hl & Hs & Hst & [j' Hself] & Hos & Hol & Hosc & Hod).
  split_and!; try done; cbn.
  - by rewrite length_insert.
  - exists j. apply list_lookup_insert_eq. by eapply lookup_lt_Some.
  - intros i Hi. rewrite list_lookup_insert_ne by done. by apply Hos.
Qed.

Lemma keeps_store_actions l h :
  W h → W (set_action_lists (<[a_last_action a := l]> (action_lists h)) h).
Proof.
  intros (Ht & Hp & Hd & Hl & Hs & Hst & [j' Hself] & Hos & Hol & Hosc & Hod).
  split_and!; try done; cbn.
  - by rewrite length_insert.
  - by exists j'.
  - intros i Hi. rewrite list_lookup_insert_ne by done. by apply Hol.
Qed.

Lemma keeps_store_scores l h :
  W h → W (set_score_lists (<[a_scores a := l]> (score_lists h)) h).
Proof.
  intros (Ht & Hp & Hd & Hl & Hs & Hst & [j' Hself] & Hos & Hol & Hosc & Hod).
  split_and!; try done; cbn.
  - by rewrite length_insert.
  - by exists j'.
  - intros i Hi. rewrite list_lookup_insert_ne by done. by apply Hosc.
Qed.

Lemma keeps_store_deques r l h :
  r ∈ items → W h → W (set_deques (<[r := l]> (deques h)) h).
Proof.
  intros Hr (Ht & Hp & Hd & Hl & Hs & Hst & [j' Hself] & Hos & Hol & Hosc & Hod).
  split_and!; try done; cbn.
  - by rewrite length_insert.
  - by exists j'.
  - intros r' Hr'. rewrite list_lookup_insert_ne by (by intros ->). by apply Hod.
Qed.

Lemma keeps_assign_score pm v h : W h → W (assign_score self pm v h).2.
Proof.
  intros Hh. unfold assign_score.
  apply keeps_load; [done|]. intros a' Ha'.
  assert (a_scores a' = a_scores a) as ->.
  { destruct Hh as (_ & _ & _ & _ & _ & _ & [j Hc] & _). by simplify_eq. }
  apply keeps_load; [done|]. intros sc Hsc.
  apply keeps_lift; [done|]. intros sc' Hsc'.
  unfold store. cbn. by apply keeps_store_scores.
Qed.

Lemma keeps_do_move move h : W h → W (do_move self move h).2.
Proof.
  intros Hh. unfold do_move.
  apply keeps_load; [done|]. intros a' Ha'.
  assert (∃ j, a' = mkAttrs j (a_terrain a) (a_players a) (a_last_action a)
                      (a_scores a)) as [j ->].
  { destruct Hh as (_ & _ & _ & _ & _ & _ & [j Hc] & _). exists j. by simplify_eq. }
  cbn [a_players a_terrain a_last_action a_scores a_playerJustMoved].
  apply keeps_load; [done|]. intros items' Hitems'.
  assert (items' = items) as ->.
  { destruct Hh as (_ & Hp & _). rewrite Hp in Hitems'. by simplify_eq. }
  apply keeps_bind; [by apply keeps_store_states|]. intros _.
  unfold store at 1. cbn [snd].
  match goal with |- writes_only _ (_ ?h1).2 _ _ _ =>
    assert (W h1) as Hh1 by (by apply keeps_store_states); generalize dependent h1 end.
  intros h1 Hh1.
  apply keeps_load; [done|]. intros la Hla.
  apply keeps_lift; [done|]. intros la' Hla'.
  apply keeps_bind; [by apply keeps_store_actions|]. intros _.
  unfold store at 1. cbn [snd].
  match goal with |- writes_only _ (_ ?h2).2 _ _ _ =>
    assert (W h2) as Hh2 by (by apply keeps_store_actions); generalize dependent h2 end.
  intros h2 Hh2.
  apply keeps_lift; [done|]. intros r Hr.
  assert (r ∈ items) as Hri.
  { apply getitem_Ok in Hr as (k & _ & Hk). by eapply list_elem_of_lookup_2. }
  apply keeps_load; [done|]. intros player Hplayer.
  apply keeps_lift; [done|]. intros head Hhead.
  apply keeps_load; [done|]. intros t Ht.
  apply keeps_lift; [done|]. intros cell Hcell.
  apply keeps_bind; [by rewrite collides_heap|]. intros hit.
  rewrite collides_heap.
  match goal with |- writes_only _ ((?m ≫= _) _).2 _ _ _ => assert (W (m h2).2) as Hm end.
  { destruct hit; [by apply keeps_assign_score|].
    destruct (isnumeric cell.1).
    { apply keeps_load; [done|]. intros sc Hsc.
      apply keeps_lift; [done|]. intros old Hold.
      apply keeps_lift; [done|]. intros v Hv.
      by apply keeps_assign_score. }
    destruct (bool_decide (cell.1 ∈ obstacle_chars));
      [by apply keeps_assign_score|done]. }
  apply keeps_bind; [done|]. intros _.
  match goal with |- writes_only _ (_ ?h3).2 _ _ _ => generalize dependent h3 end.
  intros h3 Hh3.
  apply keeps_load; [done|]. intros player' Hplayer'.
  unfold store. cbn. by apply keeps_store_deques.
Qed.

End footprint.

(** What a move writes to.  [do_move] on a game state object, whether it
    returns or raises, creates no object and writes to nothing but the
    object itself, its [last_action], its [scores] and the deques of its
    chains: every terrain, every list of chains and every other object of
    the store is what it was.  The same holds of any number of moves. *)
Theorem do_moves_write_only `{RobotSnake} self moves h a items :
  states h !! self = Some a →
  player_lists h !! a_players a = Some items →
  writes_only h (do_moves self moves h) self a items.
Proof.
  intros Ha Hi.
  assert (writes_only h h self a items) as Hh.
  { split_and!; try done. exists (a_playerJustMoved a). by destruct a. }
  revert Hh. generalize h at 2 4 as h'.
  induction moves as [|move moves IH]; intros h' Hh'; [done|].
  cbn [do_moves]. apply IH. by apply keeps_do_move.
Qed.

End HeapFrame.

Lemma do_moves_write_only_witness :
  Heap.terrains (Heap.do_moves (H:=snakepit) 0 [Vec 1 0; Vec 0 1] fresh_heap)
    = [open_3x3].
Proof.
  destruct (HeapFrame.do_moves_write_only (H:=snakepit) 0 [Vec 1 0; Vec 0 1]
              fresh_heap (Heap.mkAttrs 1 0 0 0 0) [0%nat]) as (Ht & _);
    [reflexivity|reflexivity|].
  rewrite Ht. reflexivity.
Defined.

(** ** The store: two objects on one list of chains *)

Module HeapShare.
Local Abbreviation game_do_move := do_move.
Import Heap HeapFacts HeapMoves HeapFrame.

Lemma lookup_snoc2_l {A} (l : list A) a b : ((l ++ [a]) ++ [b]) !! length l = Some a.
Proof.
  rewrite lookup_app_l by (rewrite length_app; cbn; lia).
  by apply list_lookup_middle.
Qed.

Lemma lookup_snoc2_r {A} (l : list A) a b : ((l ++ [a]) ++ [b]) !! S (length l) = Some b.
Proof.
  apply list_lookup_middle. rewrite length_app. cbn. lia.
Qed.

Lemma lookup_snoc2_old {A} (l : list A) a b i x :
  l !! i = Some x → ((l ++ [a]) ++ [b]) !! i = Some x.
Proof. intros Hi. by do 2 apply lookup_app_l_Some. Qed.

(** [GameState.__init__] keeps the list of chains it is given.  Two
    objects built on the same list stand for the same game state, and a
    move made on the first is seen through the second: its chains are the
    moved ones, while its own [playerJustMoved], [last_action] and [scores]
    are untouched.  Only [clone] separates the chains. *)
Theorem init_shares_chains `{RobotSnake} h t p T items chains move :
  terrains h !! t = Some T →
  player_lists h !! p = Some items →
  Forall2 (λ r l, deques h !! r = Some l) items chains →
  NoDup items →
  ∃ st1 st2 h2,
    (st1 ← init t p; st2 ← init t p; mret (st1, st2)) h = (Ok (st1, st2), h2) ∧
    st1 ≠ st2 ∧
    (snapshot st1 h2).1 = Ok (GameState_init T chains) ∧
    (snapshot st2 h2).1 = Ok (GameState_init T chains) ∧
    (snapshot st2 (do_move st1 move h2).2).1 =
      Ok (mkGameState 1 T
            (players (game_do_move move (GameState_init T chains)).2)
            [None; None] [0; 0]).
Proof.
  intros Ht Hp Hf Hnd.
  set (a1 := mkAttrs 1 t p (length (action_lists h)) (length (score_lists h))).
  set (a2 := mkAttrs 1 t p (S (length (action_lists h))) (S (length (score_lists h)))).
  set (h2 := mkHeap (deques h) (player_lists h)
               ((action_lists h ++ [[None; None]]) ++ [[None; None]])
               ((score_lists h ++ [[0; 0]]) ++ [[0; 0]])
               (terrains h) ((states h ++ [a1]) ++ [a2])).
  exists (length (states h)), (S (length (states h))), h2.
  assert (states h2 !! length (states h) = Some a1) as Hst1 by apply lookup_snoc2_l.
  assert (states h2 !! S (length (states h)) = Some a2) as Hst2.
  { apply lookup_snoc2_r. }
  assert ((snapshot (length (states h)) h2).1 = Ok (GameState_init T chains)) as Hs1.
  { apply snapshot_Ok. exists a1, items. cbn.
    split_and!; try done; apply lookup_snoc2_l. }
  assert ((snapshot (S (length (states h))) h2).1 = Ok (GameState_init T chains)) as Hs2.
  { apply snapshot_Ok. exists a2, items. cbn.
    split_and!; try done; apply lookup_snoc2_r. }
  split_and!; [|lia|done|done|].
  { unfold init, alloc, mbind, St_bind, mret, St_ret. cbn.
    rewrite !length_app. cbn. unfold h2, a1, a2.
    by rewrite !Nat.add_1_r. }
  destruct (do_move_snapshot (length (states h)) move h2
              (GameState_init T chains) a1 items Hs1 Hst1 Hp Hnd) as [_ Hs3].
  pose proof (keeps_do_move h2 (length (states h)) a1 items Hp move h2) as Hw.
  destruct Hw as (Ht3 & Hp3 & _ & _ & _ & _ & [j Hself3] & Hos & Hol & Hosc & _).
  { split_and!; try done. by exists 1. }
  apply snapshot_Ok in Hs3
    as (a' & items' & Ha' & _ & Hi' & Hf3 & _ & _ & _).
  rewrite Hself3 in Ha'. injection Ha' as <-.
  cbn in Hi'. rewrite Hp3 in Hi'. cbn in Hi'.
  assert (items' = items) as -> by congruence.
  apply snapshot_Ok. exists a2, items. cbn [a_terrain a_players a_last_action
    a_scores a_playerJustMoved a2 terrain players last_action scores playerJustMoved].
  split_and!; try done.
  - rewrite Hos by lia. done.
  - by rewrite Ht3.
  - by rewrite Hp3.
  - rewrite Hol by (cbn; lia). apply lookup_snoc2_r.
  - rewrite Hosc by (cbn; lia). apply lookup_snoc2_r.
Qed.

End HeapShare.

Lemma init_shares_chains_witness :
  ∃ st1 st2 h2,
    (st1 ← Heap.init 0 0; st2 ← Heap.init 0 0; mret (st1, st2)) base_heap
      = (Ok (st1, st2), h2) ∧
    (Heap.snapshot st2 (Heap.do_move (H:=snakepit) st1 (Vec 1 0) h2).2).1 =
      Ok (mkGameState 1 open_3x3 [[Pos 2 1]] [None; None] [0; 0]).
Proof.
  destruct (HeapShare.init_shares_chains (H:=snakepit) base_heap 0 0 open_3x3
              [0%nat] [[Pos 1 1]] (Vec 1 0))
    as (st1 & st2 & h2 & Hinit & _ & _ & _ & Hsnap).
  - reflexivity.
  - reflexivity.
  - repeat constructor.
  - apply NoDup_singleton.
  - exists st1, st2, h2. split; [exact Hinit|exact Hsnap].
Defined.

(** ** OXOState *)

Module OXOFacts.
Import OXO.

Lemma getitem_board (board : list Z) i :
  length board = 9%nat → 0 ≤ i ≤ 8 →
  ∃ b, board !! Z.to_nat i = Some b ∧ getitem board i = Ok b.
Proof.
  intros Hlen Hi.
  destruct (lookup_lt_is_Some_2 board (Z.to_nat i)) as [b Hb]; [lia|].
  exists b. split; [done|]. apply getitem_Ok. exists (Z.to_nat i).
  split; [|done]. unfold py_index. rewrite bool_decide_eq_true_2 by lia. done.
Qed.

Lemma setitem_board (board : list Z) i v :
  length board = 9%nat → 0 ≤ i ≤ 8 →
  setitem board i v = Ok (<[Z.to_nat i := v]> board).
Proof.
  intros Hlen Hi. apply setitem_Ok. exists (Z.to_nat i). split; [|done].
  unfold py_index. rewrite bool_decide_eq_true_2 by lia. done.
Qed.

(** [DoMove] on a board of nine squares: the move is made, or the
    assertion fails and the state is what it was. *)
Lemma DoMove_cases s move :
  length (board s) = 9%nat →
  (0 ≤ move ≤ 8 ∧ board s !! Z.to_nat move = Some 0 ∧
   DoMove move s =
     (Checked (Ok tt),
      mk (3 - playerJustMoved s)
         (<[Z.to_nat move := 3 - playerJustMoved s]> (board s)))) ∨
  (¬ (0 ≤ move ≤ 8 ∧ board s !! Z.to_nat move = Some 0) ∧
   DoMove move s = (AssertionError, s)).
Proof.
  intros Hlen. unfold DoMove.
  destruct (decide (0 ≤ move ≤ 8)) as [Hm|Hm].
  - rewrite !bool_decide_eq_true_2 by lia. cbn [andb].
    destruct (getitem_board (board s) move Hlen Hm) as (b & Hb & ->).
    case_bool_decide as Hb0.
    + subst b. left. split_and!; [lia..|done|].
      cbv zeta. by rewrite setitem_board.
    + right. split; [|done]. intros (_ & ?). congruence.
  - right. split; [by intros [? _]|].
    destruct (decide (0 ≤ move)).
    + rewrite (bool_decide_eq_false_2 (move ≤ 8)) by lia.
      by rewrite andb_false_r.
    + by rewrite (bool_decide_eq_false_2 (0 ≤ move)) by lia.
Qed.

Lemma count_cons v b board :
  count v (b :: board) = ((if bool_decide (b = v) then 1 else 0) + count v board)%nat.
Proof.
  unfold count. rewrite filter_cons. by case_decide; case_bool_decide.
Qed.

Lemma count_insert board : ∀ k v w,
  board !! k = Some 0 → v ≠ 0 →
  count v (<[k := w]> board) =
    ((if bool_decide (w = v) then 1 else 0) + count v board)%nat.
Proof.
  induction board as [|b board IH]; intros [|k] v w Hk Hv; try done.
  - cbn in Hk. injection Hk as ->.
    change (<[0%nat := w]> (0 :: board)) with (w :: board).
    rewrite !count_cons. rewrite (bool_decide_eq_false_2 (0 = v)) by done. lia.
  - change (<[S k := w]> (b :: board)) with (b :: <[k := w]> board).
    rewrite !count_cons. rewrite (IH k v w) by done. lia.
Qed.

Lemma count_insert_0 board : ∀ k w,
  board !! k = Some 0 → w ≠ 0 →
  S (count 0 (<[k := w]> board)) = count 0 board.
Proof.
  induction board as [|b board IH]; intros [|k] w Hk Hw; try done.
  - cbn in Hk. injection Hk as ->.
    change (<[0%nat := w]> (0 :: board)) with (w :: board).
    rewrite !count_cons. rewrite (bool_decide_eq_false_2 (w = 0)) by done.
    by rewrite bool_decide_eq_true_2.
  - change (<[S k := w]> (b :: board)) with (b :: <[k := w]> board).
    rewrite !count_cons. rewrite <- (IH k w) by done. lia.
Qed.

Lemma count_total board :
  Forall (λ b, b = 0 ∨ b = 1 ∨ b = 2) board →
  (count 0%Z board + count 1%Z board + count 2%Z board)%nat = length board.
Proof.
  induction 1 as [|b board Hb _ IH]; [done|].
  rewrite !count_cons. cbn [length]. rewrite <- IH.
  destruct Hb as [-> | [-> | ->]];
    repeat (first [rewrite bool_decide_eq_true_2 by done
                  |rewrite bool_decide_eq_false_2 by done]); lia.
Qed.

Lemma init_ok : marks_ok init.
Proof.
  split_and!; [done|by right| |done].
  repeat constructor.
Qed.

Lemma DoMove_ok move s : marks_ok s → marks_ok (DoMove move s).2.
Proof.
  intros (Hlen & Hj & Hall & Hcount).
  destruct (DoMove_cases s move Hlen) as [(Hm & Hb & ->)|[_ ->]]; [|done].
  cbn [snd]. split_and!; cbn [board playerJustMoved].
  - by rewrite length_insert.
  - lia.
  - apply Forall_insert; [done|]. lia.
  - rewrite !count_insert by done.
    destruct Hj as [Hj|Hj]; rewrite Hj in *; cbn in *;
      repeat (first [rewrite bool_decide_eq_true_2 by done
                    |rewrite bool_decide_eq_false_2 by done]);
      rewrite ?bool_decide_eq_true_2 in Hcount by done;
      rewrite ?bool_decide_eq_false_2 in Hcount by done; lia.
Qed.

Lemma reachable_marks_ok s : reachable s → marks_ok s.
Proof.
  induction 1 as [|s _ IH|s move _ IH];
    [apply init_ok|by destruct s|by apply DoMove_ok].
Qed.

(** The marks on the board.  In every state the class can build the board
    has nine squares, [playerJustMoved] is 1 or 2, player 1 has as many
    marks as player 2, or one more when it has just moved, and the empty
    squares and the marks make up the nine squares. *)
Theorem reachable_marks s :
  reachable s →
  length (board s) = 9%nat ∧
  (playerJustMoved s = 1 ∨ playerJustMoved s = 2) ∧
  count 1 (board s) =
    (count 2%Z (board s) + if bool_decide (playerJustMoved s = 1%Z) then 1 else 0)%nat ∧
  (count 0%Z (board s) + count 1%Z (board s) + count 2%Z (board s))%nat = 9%nat.
Proof.
  intros (Hlen & Hj & Hall & Hcount)%reachable_marks_ok.
  split_and!; try done. by rewrite count_total.
Qed.

Lemma GetMoves_loop_spec board range :
  length board = 9%nat →
  (∀ i, i ∈ range → 0 ≤ i ≤ 8) →
  GetMoves_loop board range =
    Ok (filter (λ i, board !! Z.to_nat i = Some 0) range).
Proof.
  intros Hlen. induction range as [|i range IH]; intros Hr; [done|].
  cbn [GetMoves_loop].
  destruct (getitem_board board i Hlen) as (b & Hb & ->); [apply Hr; left|].
  rewrite IH by (intros ? ?; apply Hr; by right).
  rewrite filter_cons. rewrite Hb. unfold mbind, res_bind.
  case_bool_decide as Hb0; case_decide as Hd; try done.
  - subst. done.
  - injection Hd as ->. done.
Qed.

Lemma GetMoves_spec s :
  length (board s) = 9%nat →
  GetMoves s = Ok (filter (λ i, board s !! Z.to_nat i = Some 0) (seqZ 0 9)).
Proof.
  intros Hlen. apply GetMoves_loop_spec; [done|].
  intros i Hi%elem_of_seqZ. lia.
Qed.

Lemma filter_ext_in {A} (P Q : A → Prop) `{!∀ x, Decision (P x), !∀ x, Decision (Q x)}
    (l : list A) :
  (∀ x, x ∈ l → P x ↔ Q x) → filter P l = filter Q l.
Proof.
  induction l as [|a l IH]; intros Hext; [done|].
  rewrite !filter_cons. rewrite IH by (intros ? ?; apply Hext; by right).
  destruct (Hext a) as [H1 H2]; [by left|].
  destruct (decide (P a)) as [HP|HP], (decide (Q a)) as [HQ|HQ]; try done.
  - destruct HQ; auto.
  - destruct HP; auto.
Qed.

Lemma length_filter_ne_Z (l : list Z) o :
  NoDup l → o ∈ l → S (length (filter (λ i, i ≠ o) l)) = length l.
Proof.
  induction 1 as [|a l Ha Hnd IH]; [by intros ?%elem_of_nil|].
  rewrite filter_cons. intros [->|Ho]%elem_of_cons.
  - rewrite decide_False by (by intros ?). cbn. f_equal.
    f_equal. clear IH Hnd. induction l as [|b l IH]; [done|].
    rewrite filter_cons. apply not_elem_of_cons in Ha as [Hab Ha].
    rewrite decide_True by done. by rewrite IH.
  - rewrite decide_True by (intros ->; done). cbn. by rewrite IH.
Qed.

(** The legal moves.  In a state the class can build, [GetMoves] returns
    the empty squares, the indices from 0 to 8 whose square holds 0, in
    ascending order; [DoMove] with one of them returns, hands the turn
    to the other player, marks the square for the player that moves, and
    leaves the other empty squares as the moves of the new state.
    [DoMove] with anything else fails its assertion and changes
    nothing. *)
Theorem DoMove_legal s move :
  reachable s →
  ∃ moves, GetMoves s = Ok moves ∧
    (move ∈ moves →
       ∃ s', DoMove move s = (Checked (Ok tt), s') ∧
         playerJustMoved s' = 3 - playerJustMoved s ∧
         getitem (board s') move = Ok (3 - playerJustMoved s) ∧
         GetMoves s' = Ok (filter (λ i, i ≠ move) moves) ∧
         S (length (filter (λ i, i ≠ move) moves)) = length moves) ∧
    (move ∉ moves → DoMove move s = (AssertionError, s)) ∧
    moves = filter (λ i, board s !! Z.to_nat i = Some 0) (seqZ 0 9).
Proof.
  intros (Hlen & Hj & Hall & Hcount)%reachable_marks_ok.
  eexists. split; [by apply GetMoves_spec|]. split; [|split; [|done]].
  - intros [Hm Hr]%list_elem_of_filter. apply elem_of_seqZ in Hr.
    destruct (DoMove_cases s move Hlen) as [(_ & _ & ->)|[Hno _]];
      [|destruct Hno; split; [lia|done]].
    eexists. split; [done|]. cbn [playerJustMoved board].
    assert (length (<[Z.to_nat move := 3 - playerJustMoved s]> (board s)) = 9%nat)
      as Hlen' by (by rewrite length_insert).
    split_and!; [done| | |].
    + destruct (getitem_board _ move Hlen') as (b & Hb & ->); [lia|].
      rewrite list_lookup_insert_eq in Hb by lia. congruence.
    + rewrite GetMoves_spec by done. cbn [board]. f_equal.
      rewrite list_filter_filter. apply filter_ext_in. intros i Hi%elem_of_seqZ.
      destruct (decide (i = move)) as [->|Hne].
      * rewrite list_lookup_insert_eq by lia. split; [|by intros [? _]].
        intros [= ?]. lia.
      * rewrite list_lookup_insert_ne by lia. by split; [|intros [_ ?]].
    + apply length_filter_ne_Z.
      * apply NoDup_filter, NoDup_seqZ.
      * apply list_elem_of_filter. split; [done|apply elem_of_seqZ; lia].
  - intros Hm. destruct (DoMove_cases s move Hlen) as [(Hr & Hb & _)|[_ ->]];
      [|done].
    destruct Hm. apply list_elem_of_filter. split; [done|apply elem_of_seqZ; lia].
Qed.


Lemma lines_in_range :
  Forall (λ l : Z * Z * Z, 0 ≤ l.1.1 ≤ 8 ∧ 0 ≤ l.1.2 ≤ 8 ∧ 0 ≤ l.2 ≤ 8) lines.
Proof. repeat constructor; cbn; lia. Qed.

Lemma holds_inj board v w i : holds board v i → holds board w i → v = w.
Proof. unfold holds. congruence. Qed.

(** The loop of [GetResult] on a board of nine squares: the first line
    whose three squares hold the same value decides, for every
    [playerjm]; without such a line the loop ends. *)
Lemma GetResult_loop_spec board ls :
  length board = 9%nat →
  Forall (λ l : Z * Z * Z, 0 ≤ l.1.1 ≤ 8 ∧ 0 ≤ l.1.2 ≤ 8 ∧ 0 ≤ l.2 ≤ 8) ls →
  (∃ k l v, ls !! k = Some l ∧
     holds board v l.1.1 ∧ holds board v l.1.2 ∧ holds board v l.2 ∧
     (∀ j l', (j < k)%nat → ls !! j = Some l' → ¬ uniform board l') ∧
     ∀ p, GetResult_loop board p ls =
            Ok (Some (if bool_decide (v = p) then win else loss))) ∨
  ((∀ l, l ∈ ls → ¬ uniform board l) ∧
   ∀ p, GetResult_loop board p ls = Ok None).
Proof.
  intros Hlen. induction 1 as [|[[a b] c] ls (Ha & Hb & Hc) _ IH].
  { right. split; [by intros l ?%elem_of_nil|done]. }
  cbn in Ha, Hb, Hc.
  destruct (getitem_board board a Hlen Ha) as (va & _ & Hva).
  destruct (getitem_board board b Hlen Hb) as (vb & _ & Hvb).
  destruct (getitem_board board c Hlen Hc) as (vc & _ & Hvc).
  assert (∀ p, GetResult_loop board p ((a, b, c) :: ls) =
            if bool_decide (va = vb) && bool_decide (vb = vc)
            then Ok (Some (if bool_decide (va = p) then win else loss))
            else GetResult_loop board p ls) as Hstep.
  { intros p. cbn [GetResult_loop]. rewrite Hva, Hvb. unfold mbind, res_bind.
    case_bool_decide; [|done]. rewrite Hvc. by case_bool_decide. }
  destruct (bool_decide (va = vb) && bool_decide (vb = vc)) eqn:Hu.
  - apply andb_true_iff in Hu as [->%bool_decide_eq_true ->%bool_decide_eq_true].
    left. exists 0%nat, (a, b, c), vc. split_and!; try done.
    intros j l' Hj. lia.
  - assert (¬ uniform board (a, b, c)) as Hnu.
    { intros (v & H1 & H2 & H3). cbn in H1, H2, H3.
      pose proof (holds_inj _ _ _ _ H1 Hva). pose proof (holds_inj _ _ _ _ H2 Hvb).
      pose proof (holds_inj _ _ _ _ H3 Hvc). subst.
      by rewrite !bool_decide_eq_true_2 in Hu. }
    destruct IH as [(k & l & v & Hk & H1 & H2 & H3 & Hfirst & Hres)|[Hnone Hres]].
    + left. exists (S k), l, v. split_and!; try done.
      * intros [|j] l' Hj; cbn; [by intros [= <-]|]. apply Hfirst. lia.
      * intros p. by rewrite Hstep.
    + right. split.
      * intros l [->|Hl]%elem_of_cons; auto.
      * intros p. by rewrite Hstep.
Qed.

Lemma GetMoves_nil s :
  length (board s) = 9%nat →
  ∃ moves, GetMoves s = Ok moves ∧ (moves = [] ↔ 0 ∉ board s).
Proof.
  intros Hlen. rewrite GetMoves_spec by done. eexists. split; [done|]. split.
  - intros Hnil [k Hk]%list_elem_of_lookup.
    pose proof (lookup_lt_Some _ _ _ Hk) as Hlt.
    apply (filter_nil_not_elem_of _ _ (Z.of_nat k) Hnil).
    + by rewrite Nat2Z.id.
    + apply elem_of_seqZ. lia.
  - intros Hno.
    destruct (filter _ (seqZ 0 9)) as [|i moves] eqn:E; [done|].
    assert (i ∈ filter (λ i, board s !! Z.to_nat i = Some 0) (seqZ 0 9)) as Hi
      by (rewrite E; left).
    apply list_elem_of_filter in Hi as [Hi _].
    destruct Hno. by eapply list_elem_of_lookup_2.
Qed.

(** The first line decides.  On a board of nine squares [GetResult] goes
    by the first of the eight lines, rows before columns before diagonals,
    whose three squares hold the same value: it returns 1.0 when that
    value is [playerjm] and 0.0 otherwise.  The value may be 0: a line of
    three empty squares counts, so while the top row is empty both players
    are told 0.0, also when one of them has completed another line.
    Without such a line it returns 0.5 on a full board and fails its
    assertion otherwise. *)
Theorem GetResult_first_line s :
  length (board s) = 9%nat →
  (∀ k l, lines !! k = Some l → uniform (board s) l →
     (∀ j l', (j < k)%nat → lines !! j = Some l' → ¬ uniform (board s) l') →
     ∃ v, holds (board s) v l.1.1 ∧
       ∀ p, GetResult s p = Checked (Ok (if bool_decide (v = p) then win else loss))) ∧
  ((∀ l, l ∈ lines → ¬ uniform (board s) l) →
     ∀ p, GetResult s p =
            if bool_decide (0 ∈ board s) then AssertionError else Checked (Ok draw)).
Proof.
  intros Hlen.
  destruct (GetResult_loop_spec (board s) lines Hlen lines_in_range)
    as [(k' & l' & v & Hk' & H1 & H2 & H3 & Hfirst & Hres)|[Hnone Hres]].
  - split.
    + intros k l Hk Hu Hmin.
      assert (k = k') as ->.
      { destruct (Nat.lt_trichotomy k k') as [Hlt|[->|Hlt]]; [|done|].
        - destruct (Hfirst k l Hlt Hk Hu).
        - destruct (Hmin k' l' Hlt Hk'). by exists v. }
      assert (l = l') as -> by congruence.
      exists v. split; [done|]. intros p. unfold GetResult. by rewrite Hres.
    + intros Hno. destruct (Hno l'); [by eapply list_elem_of_lookup_2|by exists v].
  - split.
    + intros k l Hk Hu _. destruct (Hnone l); [by eapply list_elem_of_lookup_2|done].
    + intros _ p. unfold GetResult. rewrite Hres.
      destruct (GetMoves_nil s Hlen) as (moves & -> & Hnil).
      case_bool_decide as H0.
      * destruct moves; [|done]. by destruct (proj1 Hnil).
      * by rewrite (proj2 Hnil).
Qed.

(** Zero sum.  In a state the class can build in which no line is empty,
    what [GetResult] returns to player 1 and what it returns to player 2
    add up to 1: a win and a loss, or two draws. *)
Theorem GetResult_zero_sum s r1 :
  reachable s →
  (∀ l, l ∈ lines →
     ¬ (holds (board s) 0 l.1.1 ∧ holds (board s) 0 l.1.2 ∧ holds (board s) 0 l.2)) →
  GetResult s 1 = Checked (Ok r1) →
  ∃ r2, GetResult s 2 = Checked (Ok r2) ∧
        QArith_base.Qeq (QArith_base.Qplus r1 r2) win.
Proof.
  intros (Hlen & Hj & Hall & Hcount)%reachable_marks_ok Hfull.
  unfold GetResult.
  destruct (GetResult_loop_spec (board s) lines Hlen lines_in_range)
    as [(k & l & v & Hk & H1 & H2 & H3 & Hfirst & Hres)|[Hnone Hres]];
    rewrite !Hres.
  - assert (v = 1 ∨ v = 2) as Hv.
    { assert (v ≠ 0) as Hv0.
      { intros ->. apply (Hfull l); [by eapply list_elem_of_lookup_2|done]. }
      apply getitem_Ok in H1 as (i & _ & Hi).
      pose proof (proj1 (Forall_lookup _ _) Hall i v Hi) as Hvv.
      cbn beta in Hvv. lia. }
    intros [= <-]. eexists. split; [done|].
    by destruct Hv as [-> | ->].
  - destruct (GetMoves s) as [[|i moves]| |]; [|done..].
    intros [= <-]. by exists draw.
Qed.

End OXOFacts.

Lemma oxo_middle_row_reachable : OXO.reachable oxo_middle_row.
Proof.
  unfold oxo_middle_row. cbn [foldl].
  repeat apply OXO.reachable_DoMove. apply OXO.reachable_init.
Qed.

Lemma oxo_bottom_row_reachable : OXO.reachable oxo_bottom_row.
Proof.
  unfold oxo_bottom_row. cbn [foldl].
  repeat apply OXO.reachable_DoMove. apply OXO.reachable_init.
Qed.

Lemma reachable_marks_witness :
  OXO.count 1 (OXO.board oxo_middle_row) = 3%nat ∧
  OXO.count 2 (OXO.board oxo_middle_row) = 2%nat.
Proof.
  destruct (OXOFacts.reachable_marks oxo_middle_row oxo_middle_row_reachable)
    as (_ & _ & Hcount & _).
  split; [|reflexivity]. rewrite Hcount. reflexivity.
Defined.

Lemma DoMove_legal_witness :
  ∃ s', OXO.DoMove 4 OXO.init = (OXO.Checked (Ok tt), s') ∧
        OXO.playerJustMoved s' = 1.
Proof.
  destruct (OXOFacts.DoMove_legal OXO.init 4 OXO.reachable_init)
    as (moves & Hmoves & Hin & _).
  destruct Hin as (s' & Hdo & Hj & _).
  - vm_compute in Hmoves. injection Hmoves as <-.
    rewrite !elem_of_cons. auto 10.
  - exists s'. split; [exact Hdo|]. rewrite Hj. reflexivity.
Defined.

Lemma GetResult_first_line_witness :
  OXO.holds (OXO.board oxo_middle_row) 1 3 ∧
  OXO.holds (OXO.board oxo_middle_row) 1 4 ∧
  OXO.holds (OXO.board oxo_middle_row) 1 5 ∧
  OXO.GetResult oxo_middle_row 1 = OXO.Checked (Ok OXO.loss).
Proof.
  split_and!; [reflexivity..|].
  destruct (OXOFacts.GetResult_first_line oxo_middle_row) as [Hfirst _];
    [reflexivity|].
  destruct (Hfirst 0%nat (0, 1, 2)) as (v & Hv & Hres).
  - reflexivity.
  - by exists 0.
  - intros j l' Hj. lia.
  - rewrite Hres. vm_compute in Hv. injection Hv as <-. reflexivity.
Defined.

Lemma GetResult_zero_sum_witness :
  ∃ r2, OXO.GetResult oxo_bottom_row 2 = OXO.Checked (Ok r2) ∧
        QArith_base.Qeq (QArith_base.Qplus OXO.win r2) OXO.win.
Proof.
  apply (OXOFacts.GetResult_zero_sum oxo_bottom_row OXO.win).
  - apply oxo_bottom_row_reachable.
  - intros l Hl. unfold OXO.lines in Hl.
    repeat (apply elem_of_cons in Hl as [-> | Hl]);
      [..|by apply elem_of_nil in Hl];
      intros (H1 & H2 & H3); vm_compute in H1, H2, H3; congruence.
  - reflexivity.
Defined.
